(** * dormsoup-daemon: the email-to-events pipeline ([src/emailToEvents.ts])

    A shallow embedding of [mergeEvents], [isDormspam],
    [emailToRelaxedParsedMail], [processMail] and of the uid filtering and
    the tally of [fetchEmailsAndExtractEvents], with the properties of the
    natural-language specification stated over it, and further properties
    of the code.

    [processMail] is an async function: its calls share the store, the
    embedding index and [processingTasks], and interleave at every [await].
    It is embedded as a machine that takes one step per [await]
    ([processMailStep]); the event loop is the relation [step], which lets
    any call that can run take the next step; [processMail] itself is a call
    run on its own, from its steps.

    Conventions.
    - A JavaScript string is the list of its code points ([jsstring]).
    - A JavaScript [Date] is its time value: milliseconds since the epoch,
      an integer ([Z]).  Invalid dates are not modelled.
    - A call that can throw returns a [js]: [Ret v] or [Throw]. *)

From Stdlib Require Import ZArith NArith List String Ascii Bool Lia.
From stdpp Require Import base option list gmap relations sorting.

Local Open Scope Z_scope.

(** ** JavaScript values *)

Definition jschar := N.
Definition jsstring := list jschar.

(** An ASCII literal of the source, as a [jsstring]. *)
Definition lit (s : string) : jsstring :=
  List.map N_of_ascii (list_ascii_of_string s).

Inductive js (A : Type) : Type :=
| Ret (a : A)
| Throw.
Arguments Ret {A} a.
Arguments Throw {A}.

#[global] Instance js_bind : MBind js := λ A B k m,
  match m with
  | Ret a => k a
  | Throw => Throw
  end.

(** *** [String.prototype.includes] *)

Fixpoint startsWith (p s : jsstring) : bool :=
  match p, s with
  | [], _ => true
  | _ :: _, [] => false
  | c :: p', d :: s' => N.eqb c d && startsWith p' s'
  end.

Fixpoint includes (s p : jsstring) : bool :=
  startsWith p s ||
  match s with
  | [] => false
  | _ :: s' => includes s' p
  end.

Definition jsstring_eqb (a b : jsstring) : bool :=
  bool_decide (a = b).

(** *** [Date] getters

    [localTZA t] is the offset of local time from UTC, in milliseconds, at
    time value [t]; it depends on the host's time zone. *)

Definition msPerMinute : Z := 60000.
Definition msPerHour : Z := 3600000.
Definition msPerDay : Z := 86400000.

Section Dates.
Variable localTZA : Z → Z.

Definition localTime (t : Z) : Z := t + localTZA t.
Definition getTime (t : Z) : Z := t.
Definition getHours (t : Z) : Z := (localTime t / msPerHour) mod 24.
Definition getMinutes (t : Z) : Z := (localTime t / msPerMinute) mod 60.
(* 1 January 1970 was a Thursday (4) *)
Definition getDay (t : Z) : Z := (localTime t / msPerDay + 4) mod 7.
End Dates.

(** ** [mergeEvents] *)

Inductive MergeResult := Unmergable | Former | Latter.

#[global] Instance MergeResult_eq_dec : EqDecision MergeResult.
Proof. solve_decision. Defined.

(** The fields of an event that [mergeEvents] reads; [me_fromEmail] is the
    [receivedAt] of the owning email, [None] for [fromEmail: null]. *)
Record MergeInput := {
  me_date : Z;
  me_location : jsstring;
  me_fromEmail : option Z
}.

Section MergeEvents.
Variable localTZA : Z → Z.
Variable toLowerCase : jsstring → jsstring.

Definition isAllDay (date : Z) : bool :=
  (getHours localTZA date =? 0) && (getMinutes localTZA date =? 0).

Definition sameDate (event1 event2 : MergeInput) : bool :=
  ((isAllDay (me_date event1) || isAllDay (me_date event2)) &&
   (getDay localTZA (me_date event1) =? getDay localTZA (me_date event2)))
  || (getTime (me_date event1) =? getTime (me_date event2)).

Definition sameLocation (event1 event2 : MergeInput) : bool :=
  jsstring_eqb (toLowerCase (me_location event1)) (lit "unknown") ||
  jsstring_eqb (toLowerCase (me_location event2)) (lit "unknown") ||
  includes (toLowerCase (me_location event1)) (toLowerCase (me_location event2)) ||
  includes (toLowerCase (me_location event2)) (toLowerCase (me_location event1)).

(** [x.fromEmail!.receivedAt]: a [TypeError] when [fromEmail] is [null]. *)
Definition receivedAtOf (e : MergeInput) : js Z :=
  match me_fromEmail e with
  | Some r => Ret r
  | None => Throw
  end.

Definition mergeEvents (event1 event2 : MergeInput) : js MergeResult :=
  if negb (sameDate event1 event2) then Ret Unmergable
  else if negb (sameLocation event1 event2) then Ret Unmergable
  else
    r1 ← receivedAtOf event1;
    r2 ← receivedAtOf event2;
    Ret (if r1 <=? r2 then Latter else Former).
End MergeEvents.

(** ** [isDormspam]

    [isDormspamRegex] is built from [dormspamKeywords]: in each keyword every
    run of spaces becomes [\s+], every other character stands for itself
    (the keywords hold no pattern metacharacter), the keywords are grouped
    and joined with [|]; the flags are [u] and [i]. *)

Definition dormspamKeywords : list jsstring :=
  List.map lit
    [ "bcc'd to all dorms"%string;
      "bcc's to all dorms"%string;
      "bcc'd to dorms"%string;
      "bcc'ed dorms"%string;
      "bcc'ed to dorms"%string;
      "bcc to dorms"%string;
      "bcc'd to everyone"%string;
      "bcc dormlists"%string;
      "bcc to dormlists"%string;
      "for bc-talk"%string ].

(** The patterns that the source builds. *)
Inductive regex :=
| RVoid                       (* matches nothing *)
| REps                        (* the empty pattern *)
| RChar (c : jschar)          (* a pattern character *)
| RSpace                      (* [\s] *)
| RSeq (r1 r2 : regex)
| RAlt (r1 r2 : regex)        (* [r1|r2] *)
| RPlus (r : regex).          (* [r+] *)

Definition SPACE : jschar := 32%N.

(** The code points of [\s]: WhiteSpace and LineTerminator of ECMAScript. *)
Definition isWhiteSpace (c : jschar) : bool :=
  ((9 <=? c) && (c <=? 13) || (c =? 32) || (c =? 160) || (c =? 5760)
   || (8192 <=? c) && (c <=? 8202) || (c =? 8232) || (c =? 8233)
   || (c =? 8239) || (c =? 8287) || (c =? 12288) || (c =? 65279))%N.

(** [keyword.replaceAll(/ +/g, "\\s+")], read as a pattern; [afterSpace]
    tells that the previous character belonged to the current run. *)
Fixpoint keywordPattern (afterSpace : bool) (keyword : jsstring) : regex :=
  match keyword with
  | [] => REps
  | c :: rest =>
      if (c =? SPACE)%N then
        if afterSpace then keywordPattern true rest
        else RSeq (RPlus RSpace) (keywordPattern true rest)
      else RSeq (RChar c) (keywordPattern false rest)
  end.

(** [patterns.join("|")] *)
Fixpoint joinAlt (rs : list regex) : regex :=
  match rs with
  | [] => REps
  | [r] => r
  | r :: rs' => RAlt r (joinAlt rs')
  end.

Definition isDormspamRegex : regex :=
  joinAlt (List.map (keywordPattern false) dormspamKeywords).

Section RegExp.
(** [Canonicalize] of the [u] and [i] flags: simple case folding. *)
Variable canonicalize : jschar → jschar.

Fixpoint nullable (r : regex) : bool :=
  match r with
  | RVoid => false
  | REps => true
  | RChar _ => false
  | RSpace => false
  | RSeq r1 r2 => nullable r1 && nullable r2
  | RAlt r1 r2 => nullable r1 || nullable r2
  | RPlus r => nullable r
  end.

(** What remains of [r] after it has read [ch].  With the [i] flag a
    pattern character matches [ch] when both canonicalize alike; white
    space has no case variants, so [\s] tests [ch] itself. *)
Fixpoint deriv (ch : jschar) (r : regex) : regex :=
  match r with
  | RVoid => RVoid
  | REps => RVoid
  | RChar c => if (canonicalize ch =? canonicalize c)%N then REps else RVoid
  | RSpace => if isWhiteSpace ch then REps else RVoid
  | RSeq r1 r2 =>
      RAlt (RSeq (deriv ch r1) r2) (if nullable r1 then deriv ch r2 else RVoid)
  | RAlt r1 r2 => RAlt (deriv ch r1) (deriv ch r2)
  | RPlus r => RSeq (deriv ch r) (RAlt REps (RPlus r))
  end.

(** Does [r] match a prefix of [s]? *)
Fixpoint matchPrefix (r : regex) (s : jsstring) : bool :=
  nullable r ||
  match s with
  | [] => false
  | ch :: s' => matchPrefix (deriv ch r) s'
  end.

(** [RegExp.prototype.test] without the [g] and [y] flags: a match may
    start at any index, and no state is kept between calls. *)
Fixpoint test (r : regex) (s : jsstring) : bool :=
  matchPrefix r s ||
  match s with
  | [] => false
  | _ :: s' => test r s'
  end.

Definition isDormspam (text : jsstring) : bool :=
  test isDormspamRegex text.

(** The strings a pattern matches. *)
Inductive matches : regex → jsstring → Prop :=
| m_eps : matches REps []
| m_char c ch :
    canonicalize ch = canonicalize c → matches (RChar c) [ch]
| m_space ch :
    isWhiteSpace ch = true → matches RSpace [ch]
| m_seq r1 r2 s1 s2 :
    matches r1 s1 → matches r2 s2 → matches (RSeq r1 r2) (s1 ++ s2)
| m_alt_l r1 r2 s : matches r1 s → matches (RAlt r1 r2) s
| m_alt_r r1 r2 s : matches r2 s → matches (RAlt r1 r2) s
| m_plus_one r s : matches r s → matches (RPlus r) s
| m_plus_more r s1 s2 :
    matches r s1 → matches (RPlus r) s2 → matches (RPlus r) (s1 ++ s2).

(** The specification's reading of the classifier: a phrase occurs in a
    text when some fragment of the text spells it, letter case ignored and
    each run of spaces of the phrase standing for one or more white-space
    characters. *)
Definition sameLetter (c d : jschar) : Prop :=
  canonicalize c = canonicalize d.

Fixpoint dropSpaces (phrase : jsstring) : jsstring :=
  match phrase with
  | [] => []
  | c :: rest => if (c =? SPACE)%N then dropSpaces rest else phrase
  end.

Inductive spells : jsstring → jsstring → Prop :=
| spells_nil : spells [] []
| spells_letter c d phrase fragment :
    c ≠ SPACE → sameLetter d c → spells phrase fragment →
    spells (c :: phrase) (d :: fragment)
| spells_separator phrase ws fragment :
    ws ≠ [] → Forall (λ ch, isWhiteSpace ch = true) ws →
    spells (dropSpaces phrase) fragment →
    spells (SPACE :: phrase) (ws ++ fragment).

Definition containsPhrase (phrase text : jsstring) : Prop :=
  ∃ before fragment after,
    text = before ++ fragment ++ after ∧ spells phrase fragment.
End RegExp.

(** Simple case folding on the characters that fold to an ASCII letter
    (the Latin capitals, the long s and the Kelvin sign); every other code
    point is left alone, which is exact for a comparison with an ASCII
    pattern character. *)
Definition asciiFold (c : jschar) : jschar :=
  (if (65 <=? c) && (c <=? 90) then c + 32
   else if c =? 383 then 115
   else if c =? 8490 then 107
   else c)%N.

(** ** The persistent store (Prisma)

    The tables as [processMail] and [fetchEmailsAndExtractEvents] use them;
    rows are kept in insertion order. *)

Inductive DataSource := DORMSPAM | OTHER_SOURCE.

Record Email := {
  e_messageId : jsstring;          (* unique *)
  e_scrapedBy : jsstring;
  e_uid : Z;
  e_sender : jsstring;             (* sender.email *)
  e_subject : jsstring;
  e_body : jsstring;
  e_receivedAt : Z;
  e_modelName : jsstring;
  e_inReplyToId : option jsstring
}.

Record EmailSender := {
  s_email : jsstring;
  s_name : option jsstring
}.

Record EventData := {
  d_date : Z;
  d_source : DataSource;
  d_title : jsstring;
  d_location : jsstring;
  d_organizer : jsstring;
  d_duration : Z;
  d_fromEmailId : option jsstring;
  d_text : jsstring
}.

Record Event := {
  ev_id : Z;
  ev_data : EventData
}.

Record IgnoredEmail := {
  i_scrapedBy : jsstring;
  i_uid : Z;
  i_receivedAt : Z
}.

Record Store := {
  emails : list Email;
  senders : list EmailSender;
  events : list Event;
  ignoredEmails : list IgnoredEmail;
  nextEventId : Z                   (* the autoincrement of [Event.id] *)
}.

Definition setModelName (name : jsstring) (e : Email) : Email :=
  {| e_messageId := e_messageId e; e_scrapedBy := e_scrapedBy e;
     e_uid := e_uid e; e_sender := e_sender e; e_subject := e_subject e;
     e_body := e_body e; e_receivedAt := e_receivedAt e;
     e_modelName := name; e_inReplyToId := e_inReplyToId e |}.

Definition withEmails (f : list Email → list Email) (db : Store) : Store :=
  {| emails := f (emails db); senders := senders db; events := events db;
     ignoredEmails := ignoredEmails db; nextEventId := nextEventId db |}.

Definition withEvents (f : list Event → list Event) (db : Store) : Store :=
  {| emails := emails db; senders := senders db; events := f (events db);
     ignoredEmails := ignoredEmails db; nextEventId := nextEventId db |}.

(** [prisma.email.findUnique({ where: { messageId } })] *)
Definition email_findUnique (messageId : jsstring) (db : Store) : option Email :=
  List.find (λ e, jsstring_eqb (e_messageId e) messageId) (emails db).

(** [prisma.event.findUnique({ where: { id } })] *)
Definition event_findUnique (id : Z) (db : Store) : option Event :=
  List.find (λ ev, ev_id ev =? id) (events db).

Definition anchoredAt (rootMessageId : jsstring) (ev : Event) : bool :=
  match d_fromEmailId (ev_data ev) with
  | Some m => jsstring_eqb m rootMessageId
  | None => false
  end.

(** [prisma.event.findFirst({ where: { fromEmailId } })] *)
Definition event_findFirst (rootMessageId : jsstring) (db : Store) : option Event :=
  List.find (anchoredAt rootMessageId) (events db).

(** [prisma.event.deleteMany({ where: { fromEmailId } })] *)
Definition event_deleteMany (rootMessageId : jsstring) (db : Store) : Store :=
  withEvents (List.filter (λ ev, negb (anchoredAt rootMessageId ev))) db.

(** [fromEmail: { connect: { messageId } }] finds the email to connect. *)
Definition connects (fromEmailId : option jsstring) (db : Store) : bool :=
  match fromEmailId with
  | Some m => bool_decide (is_Some (email_findUnique m db))
  | None => true
  end.

(** [prisma.event.update({ where: { id }, data })]: the row keeps its id;
    an error when no row has this id or the email to connect is not
    stored. *)
Definition event_update (id : Z) (data : EventData) (db : Store) : js Store :=
  match event_findUnique id db with
  | None => Throw
  | Some _ =>
      if connects (d_fromEmailId data) db then
        Ret (withEvents
               (List.map (λ ev, if ev_id ev =? id
                                then {| ev_id := id; ev_data := data |} else ev))
               db)
      else Throw
  end.

(** [prisma.event.create({ data })]: an error when the email to connect is
    not stored. *)
Definition event_create (data : EventData) (db : Store) : js (Store * Event) :=
  if connects (d_fromEmailId data) db then
    let ev := {| ev_id := nextEventId db; ev_data := data |} in
    Ret ({| emails := emails db; senders := senders db;
            events := events db ++ [ev];
            ignoredEmails := ignoredEmails db;
            nextEventId := nextEventId db + 1 |}, ev)
  else Throw.

Definition ignoredHas (scrapedBy : jsstring) (uid : Z) (db : Store) : bool :=
  existsb (λ ig, jsstring_eqb (i_scrapedBy ig) scrapedBy && (i_uid ig =? uid))
          (ignoredEmails db).

(** [prisma.ignoredEmail.upsert({ where: { scrapedBy_uid }, create, update: {} })] *)
Definition ignoredEmail_upsert (scrapedBy : jsstring) (uid receivedAt : Z)
    (db : Store) : Store :=
  if ignoredHas scrapedBy uid db then db
  else {| emails := emails db; senders := senders db; events := events db;
          ignoredEmails := ignoredEmails db ++
            [{| i_scrapedBy := scrapedBy; i_uid := uid; i_receivedAt := receivedAt |}];
          nextEventId := nextEventId db |}.

(** [prisma.email.update({ where: { messageId }, data: { modelName } })]:
    an error when the email is not stored. *)
Definition email_updateModelName (messageId name : jsstring) (db : Store) : js Store :=
  match email_findUnique messageId db with
  | None => Throw
  | Some _ =>
      Ret (withEmails
             (List.map (λ e, if jsstring_eqb (e_messageId e) messageId
                             then setModelName name e else e))
             db)
  end.

(** [sender: { connectOrCreate }] *)
Definition sender_connectOrCreate (address name : jsstring) (l : list EmailSender)
    : list EmailSender :=
  if existsb (λ s, jsstring_eqb (s_email s) address) l then l
  else l ++ [{| s_email := address; s_name := Some name |}].

(** [prisma.email.upsert({ where: { messageId }, create, update })] of
    [processMail]; [inReplyTo: { connect }] is an error when the parent is
    not stored. *)
Definition email_upsert (new : Email) (senderName processing : jsstring)
    (db : Store) : js Store :=
  match email_findUnique (e_messageId new) db with
  | Some _ => email_updateModelName (e_messageId new) processing db
  | None =>
      if connects (e_inReplyToId new) db then
        Ret {| emails := emails db ++ [new];
               senders := sender_connectOrCreate (e_sender new) senderName (senders db);
               events := events db;
               ignoredEmails := ignoredEmails db;
               nextEventId := nextEventId db |}
      else Throw
  end.

(** ** The embedding index ([vectordb.js]) *)

(** What the code reads of an entry: [entry.embeddings] and
    [entry.metadata.eventIds]. *)
Record Embedding (vector : Type) := {
  embeddings : vector;
  eventIds : list Z                 (* metadata.eventIds *)
}.
Arguments embeddings {vector} _.
Arguments eventIds {vector} _.

(** Modelled from the spec: [vectordb.js] is not among the sources.  The
    index maps a label to a vector and its metadata, the event ids of the
    label.  The metadata of an entry is an object that [processMail] reads
    and writes in place ([metadata.eventIds = ...]): an entry holds a
    reference to its metadata object, and [metadata] gives the [eventIds]
    of every such object.  [get(label)] returns the entry or nothing,
    [delete(label)] removes it.  What [upsert(label, vector, metadata)]
    does to an index is not fixed here: it is one of the external
    collaborators below. *)
Record Index (vector : Type) := {
  entries : gmap jsstring (vector * nat);
  metadata : gmap nat (list Z)
}.
Arguments entries {vector} _.
Arguments metadata {vector} _.

#[global] Instance Index_empty {vector} : Empty (Index vector) :=
  {| entries := ∅; metadata := ∅ |}.

(** [metadata.eventIds], for the metadata object [object]. *)
Definition eventIdsOf {vector} (index : Index vector) (object : nat) : list Z :=
  default [] (metadata index !! object).

(** The metadata object of [getEmbedding(title)]. *)
Definition metadataOf {vector} (title : jsstring) (index : Index vector)
    : option nat :=
  '(_, object) ← entries index !! title; Some object.

Definition getEmbedding {vector} (title : jsstring) (index : Index vector)
    : option (Embedding vector) :=
  '(embedding, object) ← entries index !! title;
  Some {| embeddings := embedding; eventIds := eventIdsOf index object |}.

Definition deleteEmbedding {vector} (title : jsstring) (index : Index vector)
    : Index vector :=
  {| entries := delete title (entries index); metadata := metadata index |}.

(** [object.eventIds = ids] *)
Definition setEventIds {vector} (object : nat) (ids : list Z)
    (index : Index vector) : Index vector :=
  {| entries := entries index; metadata := <[object := ids]> (metadata index) |}.

(** ** External collaborators

    What [processMail] imports and this file does not define: the name of
    the current model, the text clean-up, the upsert and the
    nearest-neighbour query of the index, and the host's locale (time zone,
    case mappings). *)
Record Externals := {
  vector : Type;
  distance : Type;
  CURRENT_MODEL_NAME : jsstring;
  convert : jsstring → jsstring;
  removeArtifacts : jsstring → jsstring;
  upsertEmbedding : jsstring → vector → list Z → Index vector → Index vector;
  getKNearestNeighbors : Index vector → vector → nat → list (jsstring * distance);
  localTZA : Z → Z;
  toLowerCase : jsstring → jsstring;
  canonicalize : jschar → jschar
}.

(** The events that [extractFromEmail] returns. *)
Record ExtractedEvent := {
  x_title : jsstring;
  x_dateTime : Z;
  x_location : jsstring;
  x_organizer : jsstring;
  x_duration : Z
}.

Inductive ExtractResult :=
| ErrorMalformedJson                       (* "error-malformed-json" *)
| ErrorOpenaiNetwork                       (* "error-openai-network" *)
| RejectedByGpt3                           (* "rejected-by-gpt-3" *)
| RejectedByGpt4                           (* "rejected-by-gpt-4" *)
| Extracted (events : list ExtractedEvent).

(** What the outside world answers to the calls awaited in one step of a
    task: whether the awaited call rejects, what [extractFromEmail]
    resolves to, what the first and the second [createEmbedding] of a merge
    resolve to. *)
Record Reply (X : Externals) := {
  fails : bool;
  extracted : ExtractResult;
  embedding1 : vector X;
  embedding2 : vector X
}.
Arguments fails {X} _.
Arguments extracted {X} _.
Arguments embedding1 {X} _.
Arguments embedding2 {X} _.

(** ** The messages ([RelaxedParsedMail]) *)

Record EmailAddress := {
  ea_address : option jsstring;
  ea_name : option jsstring
}.

Record ParsedMail := {
  p_messageId : option jsstring;
  p_from : option (list EmailAddress);      (* from.value *)
  p_html : option jsstring;                 (* [None]: false or undefined *)
  p_subject : option jsstring;
  p_date : option Z;
  p_inReplyTo : option jsstring;
  p_text : option jsstring
}.

(** One call of [processMail]: its [uid] and [parsed] arguments, and what
    [new Date()] gives when the mail has no date. *)
Record Task := {
  t_uid : Z;
  t_parsed : ParsedMail;
  t_now : Z
}.

Inductive ProcessEmailResult :=
| MALFORMED_EMAIL
| NOT_DORMSPAM
| DORMSPAM_BUT_ROOT_NOT_IN_DB
| DORMSPAM_BUT_NOT_EVENT_BY_GPT_3
| DORMSPAM_BUT_NOT_EVENT_BY_GPT_4
| DORMSPAM_PROCESSED_WITH_SAME_PROMPT
| DORMSPAM_BUT_NETWORK_ERROR
| DORMSPAM_BUT_MALFORMED_JSON
| DORMSPAM_WITH_EVENT.

#[global] Instance ProcessEmailResult_eq_dec : EqDecision ProcessEmailResult.
Proof. solve_decision. Defined.

(** The constants of a call once the mail has passed validation and
    classification. *)
Record Locals := {
  messageId : jsstring;
  senderAddress : jsstring;
  senderName : jsstring;
  html : jsstring;
  subject : jsstring;
  text : jsstring;
  receivedAt : Z
}.

(** ** The merge of one extracted event (the body of the [outer] loop) *)

Inductive Decision :=
| KeepExisting (eventId : Z)      (* merged === "latter" *)
| Supersede (eventId : Z)         (* merged === "former" *)
| Insert (eventId : Z).           (* no stored event merges *)

(** The two verdicts of [mergeEvents] that end the scan. *)
Inductive Verdict := IsLatter | IsFormer.

Definition verdictResult (v : Verdict) : MergeResult :=
  match v with
  | IsLatter => Latter
  | IsFormer => Former
  end.

Section Merge.
Variable X : Externals.

Definition newEventData (l : Locals) (rootMessageId : jsstring)
    (event : ExtractedEvent) : EventData :=
  {| d_date := x_dateTime event;
     d_source := DORMSPAM;
     d_title := x_title event;
     d_location := x_location event;
     d_organizer := x_organizer event;
     d_duration := x_duration event;
     d_fromEmailId := Some rootMessageId;
     d_text := text l |}.

(** [{ ...event, date: event.dateTime, fromEmail: { receivedAt } }] *)
Definition candidateInput (l : Locals) (event : ExtractedEvent) : MergeInput :=
  {| me_date := x_dateTime event;
     me_location := x_location event;
     me_fromEmail := Some (receivedAt l) |}.

(** A stored event with [include: { fromEmail: { select: { receivedAt } } }] *)
Definition storedInput (db : Store) (ev : Event) : MergeInput :=
  {| me_date := d_date (ev_data ev);
     me_location := d_location (ev_data ev);
     me_fromEmail :=
       m ← d_fromEmailId (ev_data ev);
       e ← email_findUnique m db;
       Some (e_receivedAt e) |}.

(** [for (const eventId of metadata.eventIds)]: the first stored event
    that merges with the candidate, and the verdict. *)
Fixpoint scanEventIds (db : Store) (candidate : MergeInput) (ids : list Z)
    : js (option (Z * Verdict)) :=
  match ids with
  | [] => Ret None
  | eventId :: ids' =>
      match event_findUnique eventId db with
      | None => scanEventIds db candidate ids'         (* warn; continue *)
      | Some otherEvent =>
          merged ← mergeEvents (localTZA X) (toLowerCase X) candidate
                     (storedInput db otherEvent);
          match merged with
          | Unmergable => scanEventIds db candidate ids'
          | Latter => Ret (Some (eventId, IsLatter))
          | Former => Ret (Some (eventId, IsFormer))
          end
      end
  end.

(** [for (const [title, distance] of knn)]: the neighbour whose metadata
    holds the first merging event, with that metadata object. *)
Fixpoint scanNeighbors (db : Store) (index : Index (vector X))
    (candidate : MergeInput) (knn : list (jsstring * distance X))
    : js (option (jsstring * nat * Z * Verdict)) :=
  match knn with
  | [] => Ret None
  | (title, _) :: knn' =>
      match metadataOf title index with
      | None => Throw                       (* getEmbedding(title)! *)
      | Some object =>
          hit ← scanEventIds db candidate (eventIdsOf index object);
          match hit with
          | Some (eventId, merged) => Ret (Some (title, object, eventId, merged))
          | None => scanNeighbors db index candidate knn'
          end
      end
  end.

(** The [merged === "former"] branch, on the index.  [object] is the
    metadata object read from the neighbour's entry before
    [upsertEmbedding] runs; its [eventIds] are read again and assigned
    after it. *)
Definition reattach (event : ExtractedEvent) (embedding : vector X)
    (title : jsstring) (object : nat) (eventId : Z) (index : Index (vector X))
    : Index (vector X) :=
  let index1 := upsertEmbedding X (x_title event) embedding [eventId] index in
  let ids := List.filter (λ id, negb (id =? eventId)) (eventIdsOf index1 object) in
  let index2 := setEventIds object ids index1 in
  if bool_decide (ids = []) then deleteEmbedding title index2 else index2.

(** One turn of the [outer] loop: the store and the index it leaves, and
    the decision, or [Throw] when the turn ends in an exception. *)
Definition mergeOne (reply : Reply X) (l : Locals) (rootMessageId : jsstring)
    (event : ExtractedEvent) (db : Store) (index : Index (vector X))
    : Store * Index (vector X) * js Decision :=
  let embedding := embedding1 reply in
  let index1 := upsertEmbedding X (x_title event) embedding [] index in
  match getEmbedding (x_title event) index1 with
  | None => (db, index1, Throw)             (* getEmbedding(event.title)! *)
  | Some own =>
      let knn := getKNearestNeighbors X index1 (embeddings own) 3 in
      match scanNeighbors db index1 (candidateInput l event) knn with
      | Throw => (db, index1, Throw)
      | Ret (Some (title, object, eventId, IsLatter)) =>
          (db, index1, Ret (KeepExisting eventId))         (* continue outer *)
      | Ret (Some (title, object, eventId, IsFormer)) =>
          let index2 :=
            reattach event (embedding2 reply) title object eventId index1 in
          match event_update eventId (newEventData l rootMessageId event) db with
          | Ret db' => (db', index2, Ret (Supersede eventId))
          | Throw => (db, index2, Throw)
          end
      | Ret None =>
          match event_create (newEventData l rootMessageId event) db with
          | Ret (db', newEvent) =>
              (db',
               upsertEmbedding X (x_title event) embedding [ev_id newEvent] index1,
               Ret (Insert (ev_id newEvent)))
          | Throw => (db, index1, Throw)
          end
      end
  end.
End Merge.

(** ** [processMail] as a task of the event loop

    A call of [processMail] runs synchronously up to its next [await]; a
    program counter names the [await] a call is suspended at and holds the
    local variables that are live there.  One step of a task performs the
    awaited call on the shared state and runs the code that follows, up to
    the next [await] or to the end of the call.  The merge of one extracted
    event (one turn of the [outer] loop) is taken as one step; of the calls
    it awaits, [fails] rejects the first. *)

Inductive pc :=
| NotStarted
    (* [processMail] has not been called yet *)
| AwaitIgnore (result : ProcessEmailResult)
    (* [await ignoreThisEmailForever()], then [return result] *)
| AwaitFindSelf (messageId senderAddress : jsstring) (name : option jsstring)
    (html subject : jsstring)
    (* [await prisma.email.findUnique({ where: { messageId } })] *)
| AwaitFindParent (l : Locals) (parentId : jsstring)
    (* [await prisma.email.findUnique({ where: { messageId: parsed.inReplyTo } })] *)
| AwaitFindNextRoot (l : Locals) (inReplyToEmail : Email) (nextId : jsstring)
    (* [await prisma.email.findUnique({ where: { messageId: root.inReplyToId } })] *)
| AwaitPrevDeferred (l : Locals) (rootMessageId : jsstring) (prevDeferred : nat)
    (* [await prevDeferred.promise] *)
| AwaitUpsert (l : Locals) (rootMessageId : jsstring)
    (* [await prisma.email.upsert(...)] *)
| AwaitFindExisting (l : Locals) (rootMessageId : jsstring)
    (* [await prisma.event.findFirst(...)] *)
| AwaitMarkProcessed (l : Locals) (result : ProcessEmailResult)
    (* [await markProcessedByCurrentModel()], then [return result] *)
| AwaitDeleteMany (l : Locals) (rootMessageId : jsstring)
    (* [await prisma.event.deleteMany(...)] *)
| AwaitExtract (l : Locals) (rootMessageId : jsstring)
    (* [await extractFromEmail(subject, text, receivedAt)] *)
| AwaitMergeEvents (l : Locals) (rootMessageId : jsstring)
    (events : list ExtractedEvent)
    (* in the [outer] loop, [events] still to merge *)
| Exited (outcome : option ProcessEmailResult).
    (* the promise is settled: fulfilled with a result, or rejected *)

Inductive StoreWrite :=
| IgnoredEmailUpsert
| EmailUpsert
| EmailUpdate
| EventDeleteMany
| EventUpdate
| EventCreate.

#[global] Instance StoreWrite_eq_dec : EqDecision StoreWrite.
Proof. solve_decision. Defined.

(** What a run records, newest first.  A [Deferred] is named by the task
    that created it. *)
Inductive Action :=
| Register (task : nat) (messageId : jsstring)        (* processingTasks.set *)
| Lookup (task : nat) (messageId : jsstring) (found : option nat)
                                                      (* processingTasks.get *)
| Write (task : nat) (w : StoreWrite)                 (* a write to the store *)
| Decide (task : nat) (d : Decision)                  (* a merge is settled *)
| Resolve (task : nat)                                (* deferred.resolve() *)
| UnhandledRejection (task : nat).
    (* the promise of an unawaited call is rejected, and nothing handles it *)

Definition isResolve (d : nat) (a : Action) : bool :=
  match a with
  | Resolve t => Nat.eqb t d
  | _ => false
  end.

Record State (X : Externals) := {
  store : Store;
  vectordb : Index (vector X);
  processingTasks : gmap jsstring nat;
  unawaited : list (nat * jsstring);
    (* calls of [markProcessedByCurrentModel()] in flight that nobody awaits *)
  history : list Action;
  pcs : list pc
}.
Arguments store {X} _.
Arguments vectordb {X} _.
Arguments processingTasks {X} _.
Arguments unawaited {X} _.
Arguments history {X} _.
Arguments pcs {X} _.

(** How the body of the [try] block leaves a step. *)
Inductive BodyStep :=
| Continue (next : pc)
| Return (result : ProcessEmailResult)
| Raise.

Section ProcessMail.
Variable X : Externals.
Variable scrapedBy : jsstring.          (* auth.user *)

Definition setStore (db : Store) (s : State X) : State X :=
  {| store := db; vectordb := vectordb s;
     processingTasks := processingTasks s; unawaited := unawaited s;
     history := history s; pcs := pcs s |}.

Definition setVectordb (index : Index (vector X)) (s : State X) : State X :=
  {| store := store s; vectordb := index;
     processingTasks := processingTasks s; unawaited := unawaited s;
     history := history s; pcs := pcs s |}.

Definition setProcessingTasks (m : gmap jsstring nat) (s : State X) : State X :=
  {| store := store s; vectordb := vectordb s;
     processingTasks := m; unawaited := unawaited s;
     history := history s; pcs := pcs s |}.

Definition setUnawaited (u : list (nat * jsstring)) (s : State X) : State X :=
  {| store := store s; vectordb := vectordb s;
     processingTasks := processingTasks s; unawaited := u;
     history := history s; pcs := pcs s |}.

Definition log (a : Action) (s : State X) : State X :=
  {| store := store s; vectordb := vectordb s;
     processingTasks := processingTasks s; unawaited := unawaited s;
     history := a :: history s; pcs := pcs s |}.

Definition setPc (i : nat) (p : pc) (s : State X) : State X :=
  {| store := store s; vectordb := vectordb s;
     processingTasks := processingTasks s; unawaited := unawaited s;
     history := history s; pcs := <[i := p]> (pcs s) |}.

Definition resolved (s : State X) (d : nat) : bool :=
  existsb (isResolve d) (history s).

Definition PROCESSING : jsstring :=
  CURRENT_MODEL_NAME X ++ lit "_PROCESSING".

Definition receivedAtOfTask (t : Task) : Z :=
  default (t_now t) (p_date (t_parsed t)).      (* parsed.date ?? new Date() *)

Definition ignoreThisEmailForever (t : Task) (db : Store) : Store :=
  ignoredEmail_upsert scrapedBy (t_uid t) (receivedAtOfTask t) db.

Definition markProcessedByCurrentModel (messageId : jsstring) (db : Store)
    : js Store :=
  email_updateModelName messageId (CURRENT_MODEL_NAME X) db.

(** The write of a store call that may reject. *)
Definition writing (i : nat) (w : StoreWrite) (r : js Store)
    (s : State X) (k : State X → State X * BodyStep) : State X * BodyStep :=
  match r with
  | Throw => (s, Raise)
  | Ret db => k (log (Write i w) (setStore db s))
  end.

(** The synchronous start of the call, up to the first [await]. *)
Definition start (i : nat) (t : Task) (s : State X) : State X * BodyStep :=
  let parsed := t_parsed t in
  let s1 :=
    match p_messageId parsed with
    | Some messageId =>
        log (Register i messageId)
            (setProcessingTasks (<[messageId := i]> (processingTasks s)) s)
    | None => s
    end in
  match p_messageId parsed with
  | None => (s1, Continue (AwaitIgnore MALFORMED_EMAIL))
  | Some messageId =>
  match p_from parsed with
  | None => (s1, Continue (AwaitIgnore MALFORMED_EMAIL))
  | Some [] => (s1, Raise)          (* from.value[0] is undefined *)
  | Some (sender :: _) =>
  match ea_address sender with
  | None => (s1, Continue (AwaitIgnore MALFORMED_EMAIL))
  | Some address =>
  match p_html parsed with
  | None | Some [] => (s1, Continue (AwaitIgnore MALFORMED_EMAIL))
  | Some html =>
  match p_subject parsed with
  | None => (s1, Continue (AwaitIgnore MALFORMED_EMAIL))
  | Some subject =>
      (s1, Continue (AwaitFindSelf messageId address (ea_name sender) html subject))
  end end end end end.

(** Once the root is found: [processingTasks.get(inReplyToEmail.messageId)]. *)
Definition rootFound (i : nat) (l : Locals) (inReplyToEmail root : Email)
    (s : State X) : State X * BodyStep :=
  let prevDeferred := processingTasks s !! e_messageId inReplyToEmail in
  let s1 := log (Lookup i (e_messageId inReplyToEmail) prevDeferred) s in
  match prevDeferred with
  | Some d => (s1, Continue (AwaitPrevDeferred l (e_messageId root) d))
  | None => (s1, Continue (AwaitUpsert l (e_messageId root)))
  end.

(** [while (root.inReplyToId !== null)] *)
Definition walk (i : nat) (l : Locals) (inReplyToEmail root : Email)
    (s : State X) : State X * BodyStep :=
  match e_inReplyToId root with
  | Some nextId => (s, Continue (AwaitFindNextRoot l inReplyToEmail nextId))
  | None => rootFound i l inReplyToEmail root s
  end.

(** The end of the [outer] loop: [markProcessedByCurrentModel()] is
    called, not awaited, and the call returns. *)
Definition mergeLoop (i : nat) (l : Locals) (rootMessageId : jsstring)
    (events : list ExtractedEvent) (s : State X) : State X * BodyStep :=
  match events with
  | [] => (setUnawaited (unawaited s ++ [(i, messageId l)]) s,
           Return DORMSPAM_WITH_EVENT)
  | _ :: _ => (s, Continue (AwaitMergeEvents l rootMessageId events))
  end.

Definition decisionWrite (d : Decision) : list StoreWrite :=
  match d with
  | KeepExisting _ => []
  | Supersede _ => [EventUpdate]
  | Insert _ => [EventCreate]
  end.

(** One step of the body of the [try] block of task [i], suspended at
    [p]; [reply] is what the awaited calls answer. *)
Definition body (i : nat) (t : Task) (reply : Reply X) (p : pc) (s : State X)
    : State X * BodyStep :=
  let parsed := t_parsed t in
  let receivedAt := receivedAtOfTask t in
  match p with
  | NotStarted => start i t s
  | Exited _ => (s, Raise)
  | AwaitPrevDeferred l rootMessageId _ =>
      (s, Continue (AwaitUpsert l rootMessageId))
  | _ =>
  if fails reply then (s, Raise) else
  match p with
  | AwaitIgnore result =>
      (log (Write i IgnoredEmailUpsert)
           (setStore (ignoreThisEmailForever t (store s)) s),
       Return result)
  | AwaitFindSelf messageId senderAddress name html subject =>
      let conflict :=
        match email_findUnique messageId (store s) with
        | Some emailWithSameMessageId =>
            negb (e_uid emailWithSameMessageId =? t_uid t)
        | None => false
        end in
      if conflict then (s, Continue (AwaitIgnore MALFORMED_EMAIL))
      else
        let text := removeArtifacts X (default (convert X html) (p_text parsed)) in
        if negb (isDormspam (canonicalize X) text)
        then (s, Continue (AwaitIgnore NOT_DORMSPAM))
        else
          let l := {| messageId := messageId; senderAddress := senderAddress;
                      senderName := default senderAddress name;
                      html := html; subject := subject; text := text;
                      receivedAt := receivedAt |} in
          match p_inReplyTo parsed with
          | Some parentId => (s, Continue (AwaitFindParent l parentId))
          | None => (s, Continue (AwaitUpsert l messageId))
          end
  | AwaitFindParent l parentId =>
      match email_findUnique parentId (store s) with
      | None => (s, Return DORMSPAM_BUT_ROOT_NOT_IN_DB)
      | Some inReplyToEmail => walk i l inReplyToEmail inReplyToEmail s
      end
  | AwaitFindNextRoot l inReplyToEmail nextId =>
      match email_findUnique nextId (store s) with
      | None => (s, Return DORMSPAM_BUT_ROOT_NOT_IN_DB)
      | Some nextRoot => walk i l inReplyToEmail nextRoot s
      end
  | AwaitUpsert l rootMessageId =>
      let new := {| e_messageId := messageId l; e_scrapedBy := scrapedBy;
                    e_uid := t_uid t; e_sender := senderAddress l;
                    e_subject := subject l; e_body := html l;
                    e_receivedAt := receivedAt; e_modelName := PROCESSING;
                    e_inReplyToId := p_inReplyTo parsed |} in
      writing i EmailUpsert (email_upsert new (senderName l) PROCESSING (store s)) s
        (λ s1, (s1, Continue (AwaitFindExisting l rootMessageId)))
  | AwaitFindExisting l rootMessageId =>
      match event_findFirst rootMessageId (store s) with
      | Some existing =>
          let modelName :=
            m ← d_fromEmailId (ev_data existing);
            e ← email_findUnique m (store s);
            Some (e_modelName e) in
          if bool_decide (modelName = Some (CURRENT_MODEL_NAME X))
          then (s, Continue (AwaitMarkProcessed l DORMSPAM_PROCESSED_WITH_SAME_PROMPT))
          else (s, Continue (AwaitDeleteMany l rootMessageId))
      | None => (s, Continue (AwaitExtract l rootMessageId))
      end
  | AwaitMarkProcessed l result =>
      writing i EmailUpdate (markProcessedByCurrentModel (messageId l) (store s)) s
        (λ s1, (s1, Return result))
  | AwaitDeleteMany l rootMessageId =>
      (log (Write i EventDeleteMany)
           (setStore (event_deleteMany rootMessageId (store s)) s),
       Continue (AwaitExtract l rootMessageId))
  | AwaitExtract l rootMessageId =>
      match extracted reply with
      | ErrorMalformedJson => (s, Return DORMSPAM_BUT_MALFORMED_JSON)
      | ErrorOpenaiNetwork => (s, Return DORMSPAM_BUT_NETWORK_ERROR)
      | RejectedByGpt3 =>
          (s, Continue (AwaitMarkProcessed l DORMSPAM_BUT_NOT_EVENT_BY_GPT_3))
      | RejectedByGpt4 =>
          (s, Continue (AwaitMarkProcessed l DORMSPAM_BUT_NOT_EVENT_BY_GPT_4))
      | Extracted events => mergeLoop i l rootMessageId events s
      end
  | AwaitMergeEvents l rootMessageId events =>
      match events with
      | [] => mergeLoop i l rootMessageId [] s
      | event :: rest =>
          let '(db, index, merged) :=
            mergeOne X reply l rootMessageId event (store s) (vectordb s) in
          let s1 := setVectordb index (setStore db s) in
          match merged with
          | Throw => (s1, Raise)
          | Ret d =>
              let s2 := fold_right (λ w, log (Write i w)) s1 (decisionWrite d) in
              mergeLoop i l rootMessageId rest (log (Decide i d) s2)
          end
      end
  | _ => (s, Raise)
  end
  end.

(** Is task [i], suspended at [p], able to run? *)
Definition enabled (p : pc) (s : State X) : bool :=
  match p with
  | Exited _ => false
  | AwaitPrevDeferred _ _ d => resolved s d
  | _ => true
  end.

(** [try { body } finally { deferred.resolve() }]: however the body ends,
    the task resolves its deferred and its promise is settled. *)
Definition finally (i : nat) (r : State X * BodyStep) : State X :=
  match r with
  | (s, Continue next) => setPc i next s
  | (s, Return result) => setPc i (Exited (Some result)) (log (Resolve i) s)
  | (s, Raise) => setPc i (Exited None) (log (Resolve i) s)
  end.

Variable tasks : list Task.

(** One step of task [i]. *)
Definition processMailStep (i : nat) (reply : Reply X) (s : State X) : option (State X) :=
  t ← tasks !! i;
  p ← pcs s !! i;
  if enabled p s then Some (finally i (body i t reply p s)) else None.

(** An unawaited [markProcessedByCurrentModel()] settles.  Its update is
    applied; or the update fails ([ok] is false, or no row has the message
    id) and the promise of the call is rejected.  The promise has no
    handler: the call was not awaited and no [catch] is attached to it.  The
    rejection is an [unhandledRejection] of the process, recorded in the
    history; what the process does with it (Node's default is to end the
    process with an error) is the host's, and the runs of this model go
    on. *)
Definition settle (k : nat) (ok : bool) (s : State X) : option (State X) :=
  '(i, messageId) ← unawaited s !! k;
  let s1 := setUnawaited (delete k (unawaited s)) s in
  if ok then
    match markProcessedByCurrentModel messageId (store s) with
    | Ret db => Some (log (Write i EmailUpdate) (setStore db s1))
    | Throw => Some (log (UnhandledRejection i) s1)
    end
  else Some (log (UnhandledRejection i) s1).

(** The event loop: any enabled task may take the next step. *)
Inductive step : State X → State X → Prop :=
| step_task i reply s s' : processMailStep i reply s = Some s' → step s s'
| step_settle k ok s s' : settle k ok s = Some s' → step s s'.

Definition initial (db : Store) (index : Index (vector X)) : State X :=
  {| store := db; vectordb := index; processingTasks := ∅;
     unawaited := []; history := [];
     pcs := replicate (length tasks) NotStarted |}.

Definition reachable (db : Store) (index : Index (vector X)) (s : State X) : Prop :=
  rtc step (initial db index) s.

(** The call of task [i] run on its own: its steps under the replies
    [replies], in order, for as long as it can run. *)
Fixpoint processMail (i : nat) (replies : list (Reply X)) (s : State X) : State X :=
  match replies with
  | [] => s
  | reply :: replies' =>
      match processMailStep i reply s with
      | Some s' => processMail i replies' s'
      | None => s
      end
  end.

Definition outcome (i : nat) (s : State X) : option (option ProcessEmailResult) :=
  match pcs s !! i with
  | Some (Exited o) => Some o
  | _ => None
  end.
End ProcessMail.

(** ** The uids of a run ([fetchEmailsAndExtractEvents]) *)

(** [orderBy: { receivedAt: "asc" }] *)
Definition receivedNoLater (a b : Email) : Prop :=
  e_receivedAt a ≤ e_receivedAt b.

#[global] Instance receivedNoLater_dec : RelDecision receivedNoLater.
Proof. intros a b. unfold receivedNoLater. apply _. Defined.

Section Driver.
Variable X : Externals.
Variable user : jsstring.               (* auth.user *)
Variable allUids : list Z.              (* client.search({ since }) *)

(** [Math.min(...allUids)]; [None] stands for [Infinity]. *)
Definition minUid : option Z :=
  match allUids with
  | [] => None
  | u :: us => Some (fold_right Z.min u us)
  end.

(** [{ scrapedBy: auth.user, uid: { gte: minUid } }] *)
Definition byUserAndRecent (owner : jsstring) (uid : Z) : bool :=
  jsstring_eqb owner user &&
  match minUid with
  | Some m => m <=? uid
  | None => false
  end.

Definition ignoredUids (db : Store) : list Z :=
  List.map i_uid
    (List.filter (λ ig, byUserAndRecent (i_scrapedBy ig) (i_uid ig))
                 (ignoredEmails db)).

Definition processedUids (db : Store) : list Z :=
  List.map e_uid
    (List.filter (λ e, byUserAndRecent (e_scrapedBy e) (e_uid e) &&
                       jsstring_eqb (e_modelName e) (CURRENT_MODEL_NAME X))
                 (emails db)).

Definition seenUids (db : Store) : list Z :=
  ignoredUids db ++ processedUids db.

Definition uidIn (seen : list Z) (uid : Z) : bool :=
  existsb (Z.eqb uid) seen.

(** [uids]: the uids of the mailbox not seen before. *)
Definition uids (db : Store) : list Z :=
  List.filter (λ uid, negb (uidIn (seenUids db) uid)) allUids.

(** The stored emails that the run processes again; the source orders
    them by [receivedAt]. *)
Definition fetchedEmails (db : Store) : list Email :=
  merge_sort receivedNoLater
    (List.filter (λ e, byUserAndRecent (e_scrapedBy e) (e_uid e) &&
                       negb (jsstring_eqb (e_modelName e) (CURRENT_MODEL_NAME X)))
                 (emails db)).

Definition fetchedUids (db : Store) : list Z :=
  List.map e_uid (fetchedEmails db).

(** The uids handed to [client.fetch]. *)
Definition mailboxUids (db : Store) : list Z :=
  List.filter (λ uid, negb (uidIn (fetchedUids db) uid)) (uids db).

(** The uids that [processMail] is called with in the run. *)
Definition processedInRun (db : Store) : list Z :=
  match uids db with
  | [] => []                            (* if (uids.length === 0) return *)
  | _ :: _ => fetchedUids db ++ mailboxUids db
  end.
End Driver.

(** ** The specification's reading of the merge test *)

Section MergeSpec.
Variable localTZA : Z → Z.
Variable toLowerCase : jsstring → jsstring.

(** The all-day marker: the local clock reads 00:00. *)
Definition atMidnight (t : Z) : Prop :=
  ∃ day ms, localTime localTZA t = day * msPerDay + ms ∧ 0 ≤ ms < msPerMinute.

(** Both fall on the same day of the week: their local days are a whole
    number of weeks apart. *)
Definition sameDayOfWeek (t1 t2 : Z) : Prop :=
  ∃ weeks,
    localTime localTZA t1 / msPerDay - localTime localTZA t2 / msPerDay
    = 7 * weeks.

Definition dateCompatible (e1 e2 : MergeInput) : Prop :=
  me_date e1 = me_date e2 ∨
  ((atMidnight (me_date e1) ∨ atMidnight (me_date e2)) ∧
   sameDayOfWeek (me_date e1) (me_date e2)).

Definition isWildcard (location : jsstring) : Prop :=
  toLowerCase location = lit "unknown".

(** [a] occurs in [b], letter case ignored. *)
Definition substringIgnoringCase (a b : jsstring) : Prop :=
  ∃ before after, toLowerCase b = before ++ toLowerCase a ++ after.

Definition locationCompatible (e1 e2 : MergeInput) : Prop :=
  isWildcard (me_location e1) ∨ isWildcard (me_location e2) ∨
  substringIgnoringCase (me_location e2) (me_location e1) ∨
  substringIgnoringCase (me_location e1) (me_location e2).
End MergeSpec.

(** ** A concrete host

    An instance of the external collaborators, used to run the definitions
    on examples: UTC, ASCII case mappings, numbers for vectors, the nearest
    neighbours by absolute difference, and an upsert that adds the ids to
    the metadata object of a label that the index knows and makes a new
    object for a new label. *)

Definition asciiToLowerCase (s : jsstring) : jsstring :=
  List.map (λ c, if (65 <=? c) && (c <=? 90) then c + 32 else c)%N s.

Definition nearer (a b : jsstring * Z) : Prop := a.2 ≤ b.2.

#[global] Instance nearer_dec : RelDecision nearer.
Proof. intros a b. unfold nearer. apply _. Defined.

Definition nearestByDifference (index : Index Z) (v : Z) (k : nat)
    : list (jsstring * Z) :=
  take k (merge_sort nearer
            (List.map (λ te, (te.1, Z.abs (te.2.1 - v)))
                      (map_to_list (entries index)))).

Definition freshObject (index : Index Z) : nat :=
  map_fold (λ object _ next, Nat.max (S object) next) 0%nat (metadata index).

Definition upsertInPlace (title : jsstring) (embedding : Z) (ids : list Z)
    (index : Index Z) : Index Z :=
  match entries index !! title with
  | Some (_, object) =>
      let old := eventIdsOf index object in
      {| entries := <[title := (embedding, object)]> (entries index);
         metadata :=
           <[object := old ++ List.filter (λ id, negb (existsb (Z.eqb id) old)) ids]>
             (metadata index) |}
  | None =>
      let object := freshObject index in
      {| entries := <[title := (embedding, object)]> (entries index);
         metadata := <[object := ids]> (metadata index) |}
  end.

Definition host : Externals :=
  {| vector := Z;
     distance := Z;
     CURRENT_MODEL_NAME := lit "model-2";
     convert := λ s, s;
     removeArtifacts := λ s, s;
     upsertEmbedding := upsertInPlace;
     getKNearestNeighbors := nearestByDifference;
     localTZA := λ _, 0;
     toLowerCase := asciiToLowerCase;
     canonicalize := asciiFold |}.

(** A reply of the outside world in which every call succeeds. *)
Definition answers (result : ExtractResult) (e1 e2 : Z) : Reply host :=
  Build_Reply host false result e1 e2.

(** The example of the specification: an all-day "Lecture" at an unknown
    place on 1 March 2024, and a stored "Lecture Series" at 18:00 the same
    day in Building 10. *)
Definition lectureCandidate (receivedAt : Z) : MergeInput :=
  {| me_date := 1709251200000;
     me_location := lit "Unknown";
     me_fromEmail := Some receivedAt |}.

Definition lectureStored (receivedAt : Z) : MergeInput :=
  {| me_date := 1709316000000;
     me_location := lit "Building 10";
     me_fromEmail := Some receivedAt |}.

(** The stored series as [findUnique] gives it when the event has no owning
    email: [fromEmail] is [null]. *)
Definition orphanStored : MergeInput :=
  {| me_date := 1709316000000;
     me_location := lit "Building 10";
     me_fromEmail := None |}.

(** A store with one email, received at [storedAt], that anchors event 7,
    the stored "Lecture Series"; the index knows the event under its
    title. *)
Definition seriesEmail (storedAt : Z) (modelName : jsstring) : Email :=
  {| e_messageId := lit "series@mit"; e_scrapedBy := lit "daemon"; e_uid := 11;
     e_sender := lit "club@mit"; e_subject := lit "Lecture Series";
     e_body := lit "bcc'd to dorms"; e_receivedAt := storedAt;
     e_modelName := modelName; e_inReplyToId := None |}.

Definition seriesEvent : Event :=
  {| ev_id := 7;
     ev_data :=
       {| d_date := 1709316000000; d_source := DORMSPAM;
          d_title := lit "Lecture Series"; d_location := lit "Building 10";
          d_organizer := lit "club"; d_duration := 60;
          d_fromEmailId := Some (lit "series@mit");
          d_text := lit "bcc'd to dorms" |} |}.

Definition seriesStore (storedAt : Z) (modelName : jsstring) : Store :=
  {| emails := [seriesEmail storedAt modelName]; senders := [];
     events := [seriesEvent]; ignoredEmails := []; nextEventId := 8 |}.

Definition seriesIndex : Index Z :=
  {| entries := {[ lit "Lecture Series" := (10, 0%nat) ]};
     metadata := {[ 0%nat := [7] ]} |}.

(** A store that holds the series mail and no event yet. *)
Definition eventlessStore : Store :=
  {| emails := [seriesEmail 100 (lit "model-2")]; senders := [];
     events := []; ignoredEmails := []; nextEventId := 1 |}.

(** The candidate extracted from a mail received at [at_]: an all-day
    "Lecture" at an unknown place. *)
Definition lectureEvent : ExtractedEvent :=
  {| x_title := lit "Lecture"; x_dateTime := 1709251200000;
     x_location := lit "Unknown"; x_organizer := lit "club"; x_duration := 60 |}.

Definition lectureLocals (at_ : Z) : Locals :=
  {| messageId := lit "lecture@mit"; senderAddress := lit "club@mit";
     senderName := lit "club"; html := lit "for bc-talk";
     subject := lit "Lecture"; text := lit "for bc-talk"; receivedAt := at_ |}.

(** ** Vocabulary of the properties of a run *)

(** Where a task stands with respect to [await prevDeferred.promise]:
    0 before it has consulted [processingTasks], 1 suspended on the parent's
    promise, 2 past that point, 3 settled. *)
Definition phase (p : pc) : nat :=
  match p with
  | NotStarted | AwaitIgnore _ | AwaitFindSelf _ _ _ _ _
  | AwaitFindParent _ _ | AwaitFindNextRoot _ _ _ => 0
  | AwaitPrevDeferred _ _ _ => 1
  | Exited _ => 3
  | _ => 2
  end.

Definition isExited (p : pc) : bool :=
  match p with
  | Exited _ => true
  | _ => false
  end.

(** The parent id that a program counter carries is the mail's
    [inReplyTo]. *)
Definition pcOk (t : Task) (p : pc) : Prop :=
  match p with
  | AwaitFindParent _ parentId => p_inReplyTo (t_parsed t) = Some parentId
  | AwaitFindNextRoot _ inReplyToEmail _ =>
      p_inReplyTo (t_parsed t) = Some (e_messageId inReplyToEmail)
  | _ => True
  end.

(** How often [deferred.resolve()] of task [d] has been called. *)
Definition resolveCount (d : nat) (h : list Action) : nat :=
  length (List.filter (isResolve d) h).

(** A history in which every write of a task other than a tombstone comes
    after the [resolve()] of each deferred that the task has found in
    [processingTasks], and no such write comes before the task looks. *)
Fixpoint ordered (h : list Action) : Prop :=
  match h with
  | [] => True
  | a :: earlier =>
      ordered earlier ∧
      match a with
      | Write b w =>
          w ≠ IgnoredEmailUpsert →
          ∀ m d, In (Lookup b m (Some d)) earlier → In (Resolve d) earlier
      | Lookup b _ _ =>
          ∀ w, In (Write b w) earlier → w = IgnoredEmailUpsert
      | _ => True
      end
  end.

Section RunVocabulary.
Variable X : Externals.
Variable scrapedBy : jsstring.
Variable tasks : list Task.

(** What one action of a step of task [i] at [p] can be. *)
Definition actOk (i : nat) (t : Task) (p : pc) (br : BodyStep) (s : State X)
    (a : Action) : Prop :=
  match a with
  | Register j m =>
      j = i ∧ p = NotStarted ∧ p_messageId (t_parsed t) = Some m
  | Lookup j m found =>
      j = i ∧ phase p = 0%nat ∧ found = processingTasks s !! m ∧
      (pcOk t p → p_inReplyTo (t_parsed t) = Some m) ∧
      match found with
      | Some d => ∃ l r, br = Continue (AwaitPrevDeferred l r d)
      | None => True
      end
  | Write j w => j = i ∧ (w = IgnoredEmailUpsert ∨ phase p = 2%nat)
  | Decide j d => j = i ∧ phase p = 2%nat
  | Resolve _ | UnhandledRejection _ => False
  end.

(** One step of task [i], summarised: the task was enabled at [p], it
    is now at [p'], it has recorded [acts] and, when it has exited, the
    [resolve()] of its deferred on top of them. *)
Inductive taskStep (i : nat) (s s' : State X) : Prop :=
| TaskStep t p br acts p'
    (Htask : tasks !! i = Some t)
    (Hpc : pcs s !! i = Some p)
    (Henabled : enabled X p s = true)
    (Hacts : Forall (actOk i t p br s) acts)
    (Hpcs : pcs s' = <[i := p']> (pcs s))
    (Hnext : br = Continue p' ∧ (phase p ≤ phase p' ≤ 2)%nat ∧
             (pcOk t p → pcOk t p') ∧ history s' = acts ++ history s
             ∨
             isExited p' = true ∧ (∀ l r d, br ≠ Continue (AwaitPrevDeferred l r d)) ∧
             history s' = Resolve i :: acts ++ history s)
    (Hregistry : ∀ m a, processingTasks s' !! m = Some a →
                        processingTasks s !! m = Some a ∨ In (Register a m) (history s'))
    (Hunawaited : ∀ x, In x (unawaited s') →
                       In x (unawaited s) ∨ (x.1 = i ∧ isExited p' = true)).

(** What holds of every state that a run reaches. *)
Record runInv (s : State X) : Prop := {
  inv_length : length (pcs s) = length tasks;
  inv_count : ∀ i,
    resolveCount i (history s)
    = match pcs s !! i with Some (Exited _) => 1%nat | _ => 0%nat end;
  inv_quiet : ∀ b p w,
    pcs s !! b = Some p → (phase p ≤ 1)%nat →
    In (Write b w) (history s) → w = IgnoredEmailUpsert;
  inv_found : ∀ b m d,
    In (Lookup b m (Some d)) (history s) →
    (∃ l r, pcs s !! b = Some (AwaitPrevDeferred l r d)) ∨
    In (Resolve d) (history s);
  inv_unawaited : ∀ b m,
    In (b, m) (unawaited s) → ∃ o, pcs s !! b = Some (Exited o);
  inv_pcOk : ∀ b t p,
    tasks !! b = Some t → pcs s !! b = Some p → pcOk t p;
  inv_registry : ∀ m a,
    processingTasks s !! m = Some a → In (Register a m) (history s);
  inv_register : ∀ a m,
    In (Register a m) (history s) →
    ∃ t, tasks !! a = Some t ∧ p_messageId (t_parsed t) = Some m;
  inv_lookup : ∀ b m found,
    In (Lookup b m found) (history s) →
    ∃ t, tasks !! b = Some t ∧ p_inReplyTo (t_parsed t) = Some m;
  inv_ordered : ordered (history s);
  inv_handle : ∀ b m a,
    In (Lookup b m (Some a)) (history s) → In (Register a m) (history s)
}.
End RunVocabulary.

(** ** Example runs *)

Definition daemon : jsstring := lit "daemon".

Definition mail (id : string) (replyTo : option string) (body : string)
    : ParsedMail :=
  {| p_messageId := Some (lit id);
     p_from := Some [{| ea_address := Some (lit "club@mit");
                        ea_name := Some (lit "club") |}];
     p_html := Some (lit body);
     p_subject := Some (lit "party");
     p_date := Some 100;
     p_inReplyTo := option_map lit replyTo;
     p_text := None |}.

(** A dormspam, a reply to it that is no dormspam, a reply to it that is
    one, a reply to that reply, and a second copy of the dormspam under
    another uid. *)
Definition announcement : Task :=
  {| t_uid := 1; t_parsed := mail "a@mit"%string None "party, bcc'd to dorms"%string; t_now := 0 |}.

Definition chatter : Task :=
  {| t_uid := 2; t_parsed := mail "b@mit"%string (Some "a@mit"%string) "see you there"%string; t_now := 0 |}.

Definition followUp : Task :=
  {| t_uid := 3; t_parsed := mail "c@mit"%string (Some "a@mit"%string) "moved, bcc'd to dorms"%string;
     t_now := 0 |}.

Definition secondReply : Task :=
  {| t_uid := 5;
     t_parsed := mail "e@mit"%string (Some "c@mit"%string) "again, bcc'd to dorms"%string;
     t_now := 0 |}.

Definition secondCopy : Task :=
  {| t_uid := 9; t_parsed := mail "a@mit"%string None "party, bcc'd to dorms"%string; t_now := 0 |}.

Definition emptyStore : Store :=
  {| emails := []; senders := []; events := []; ignoredEmails := [];
     nextEventId := 1 |}.

(** The store after an earlier run has processed the announcement. *)
Definition announcedStore : Store :=
  {| emails := [{| e_messageId := lit "a@mit"; e_scrapedBy := daemon; e_uid := 1;
                   e_sender := lit "club@mit"; e_subject := lit "party";
                   e_body := lit "party, bcc'd to dorms"; e_receivedAt := 100;
                   e_modelName := lit "model-2"; e_inReplyToId := None |}];
     senders := [{| s_email := lit "club@mit"; s_name := Some (lit "club") |}];
     events := []; ignoredEmails := []; nextEventId := 1 |}.

Definition fine : Reply host := answers RejectedByGpt4 0 0.

(** The announcement is stored, the follow-up finds it and its handle and
    is suspended, the announcement is rejected by the oracle and exits, the
    follow-up resumes and is stored. *)
Definition orderedRun : State host :=
  processMail host daemon [announcement; followUp] 1 [fine; fine]
    (processMail host daemon [announcement; followUp] 0 [fine; fine; fine]
       (processMail host daemon [announcement; followUp] 1 [fine; fine; fine; fine]
          (processMail host daemon [announcement; followUp] 0 [fine; fine; fine]
             (initial host [announcement; followUp] emptyStore ∅)))).

(** The chatter is tombstoned while the announcement is still in flight. *)
Definition tombstoneRun : State host :=
  processMail host daemon [announcement; chatter] 1 [fine; fine; fine]
    (processMail host daemon [announcement; chatter] 0 [fine]
       (initial host [announcement; chatter] emptyStore ∅)).

(** The follow-up is stored before the second copy of its parent has been
    handed to [processMail]. *)
Definition earlyRun : State host :=
  processMail host daemon [followUp; secondCopy] 0 [fine; fine; fine; fine]
    (initial host [followUp; secondCopy] announcedStore ∅).

(** ** Vocabulary of the properties of one call *)

(** Following [inReplyToId] from [id] for at most [n] links leads to an id
    that is not stored. *)
Fixpoint missingAncestor (db : Store) (n : nat) (id : jsstring) : Prop :=
  match email_findUnique id db with
  | None => True
  | Some e =>
      match n, e_inReplyToId e with
      | S n', Some next => missingAncestor db n' next
      | _, _ => False
      end
  end.

(** The mail of [t] has its required fields, its message id [mid] is not
    stored under another uid, and its text is a dormspam: the call gets past
    validation, the identity check and the classifier. *)
Definition passesChecks (X : Externals) (db : Store) (t : Task) (mid : jsstring)
    : Prop :=
  ∃ sender others address html subject,
    p_messageId (t_parsed t) = Some mid ∧
    p_from (t_parsed t) = Some (sender :: others) ∧
    ea_address sender = Some address ∧
    p_html (t_parsed t) = Some html ∧ html ≠ [] ∧
    p_subject (t_parsed t) = Some subject ∧
    (∀ e, email_findUnique mid db = Some e → e_uid e = t_uid t) ∧
    isDormspam (canonicalize X)
      (removeArtifacts X (default (convert X html) (p_text (t_parsed t)))) = true.

Definition succeeds {X : Externals} (reply : Reply X) : Prop :=
  fails reply = false.

(** A mail whose [From] header holds no address at all: [from.value] is
    the empty array. *)
Definition senderless : Task :=
  {| t_uid := 4;
     t_parsed :=
       {| p_messageId := Some (lit "d@mit"); p_from := Some [];
          p_html := Some (lit "party, bcc'd to dorms");
          p_subject := Some (lit "party"); p_date := Some 100;
          p_inReplyTo := None; p_text := None |};
     t_now := 0 |}.

(** What a call knows of its own mail on the way to the success outcome:
    the message id it carries is the mail's and, from the upsert on, the
    mail is stored with the status "processing".  At the success outcome
    the call to mark it processed is in flight, unawaited. *)
Definition onTrack (X : Externals) (t : Task) (i : nat) (p : pc) (s : State X)
    : Prop :=
  match p with
  | NotStarted => True
  | AwaitIgnore r | AwaitMarkProcessed _ r => r ≠ DORMSPAM_WITH_EVENT
  | AwaitFindSelf mid _ _ _ _ => p_messageId (t_parsed t) = Some mid
  | AwaitFindParent l _ | AwaitFindNextRoot l _ _
  | AwaitPrevDeferred l _ _ | AwaitUpsert l _ =>
      p_messageId (t_parsed t) = Some (messageId l)
  | AwaitFindExisting l _ | AwaitDeleteMany l _
  | AwaitExtract l _ | AwaitMergeEvents l _ _ =>
      p_messageId (t_parsed t) = Some (messageId l) ∧
      ∃ e, email_findUnique (messageId l) (store s) = Some e ∧
           e_modelName e = PROCESSING X
  | Exited (Some DORMSPAM_WITH_EVENT) =>
      ∃ mid e, p_messageId (t_parsed t) = Some mid ∧
               email_findUnique mid (store s) = Some e ∧
               e_modelName e = PROCESSING X ∧
               In (i, mid) (unawaited s)
  | Exited _ => True
  end.

(** The announcement with an oracle that extracts the lecture. *)
Definition extracts : Reply host := answers (Extracted [lectureEvent]) 9 9.

Definition successRun : State host :=
  processMail host daemon [announcement] 0 [fine; fine; fine; fine; extracts; extracts]
    (initial host [announcement] emptyStore ∅).

(** The stored series mail, fetched again after the model has changed. *)
Definition seriesTask : Task :=
  {| t_uid := 11;
     t_parsed := mail "series@mit"%string None "bcc'd to dorms"%string;
     t_now := 0 |}.

Definition seriesLocals : Locals :=
  {| messageId := lit "series@mit"; senderAddress := lit "club@mit";
     senderName := lit "club"; html := lit "bcc'd to dorms";
     subject := lit "party"; text := lit "bcc'd to dorms"; receivedAt := 100 |}.

(** The series mail, stored under the older "model-1", up to its upsert. *)
Definition bumpedRun : State host :=
  processMail host daemon [seriesTask] 0 [fine; fine; fine]
    (initial host [seriesTask] (seriesStore 100 (lit "model-1")) seriesIndex).

(** The test of [processMail] on the required fields is true: no message
    id; or no [from]; or a first sender and no address for it, no body, or
    no subject.  The address of the first sender is read before the body
    and the subject are looked at. *)
Definition foundMalformed (t : Task) : Prop :=
  p_messageId (t_parsed t) = None ∨
  p_from (t_parsed t) = None ∨
  ∃ sender others,
    p_from (t_parsed t) = Some (sender :: others) ∧
    (ea_address sender = None ∨ p_html (t_parsed t) = None ∨
     p_html (t_parsed t) = Some [] ∨ p_subject (t_parsed t) = None).

(** The test throws: the mail has a message id and a [from], and
    [from.value] is empty, so that [from.value[0].address] reads a property
    of [undefined].  The body and the subject are not looked at. *)
Definition testThrows (t : Task) : Prop :=
  is_Some (p_messageId (t_parsed t)) ∧ p_from (t_parsed t) = Some [].

(** The test is false: every required field is there. *)
Definition wellFormed (t : Task) (messageId : jsstring) (sender : EmailAddress)
    (address html subject : jsstring) : Prop :=
  p_messageId (t_parsed t) = Some messageId ∧
  (∃ others, p_from (t_parsed t) = Some (sender :: others)) ∧
  ea_address sender = Some address ∧
  p_html (t_parsed t) = Some html ∧ html ≠ [] ∧
  p_subject (t_parsed t) = Some subject.

(** A mail with a message id and nothing else: [from.value] is empty, and
    it has no body and no subject. *)
Definition bare : Task :=
  {| t_uid := 8;
     t_parsed :=
       {| p_messageId := Some (lit "h@mit"); p_from := Some [];
          p_html := None; p_subject := None; p_date := Some 100;
          p_inReplyTo := None; p_text := None |};
     t_now := 0 |}.

(** The calls of [order] run one after the other, each to its end. *)
Definition runInTurn (X : Externals) (scrapedBy : jsstring) (tasks : list Task)
    (order : list nat) (replies : list (Reply X)) (s : State X) : State X :=
  fold_left (λ s i, processMail X scrapedBy tasks i replies s) order s.

(** ** Vocabulary of the merge *)

(** The scan passes over [eventId]: no event is stored under it, or the
    stored event does not merge with the candidate. *)
Definition passedOver (X : Externals) (db : Store) (candidate : MergeInput)
    (eventId : Z) : Prop :=
  ∀ other, event_findUnique eventId db = Some other →
    ¬ (dateCompatible (localTZA X) candidate (storedInput db other) ∧
       locationCompatible (toLowerCase X) candidate (storedInput db other)).

(** The scan of the neighbours [knn] reaches [eventId] under the label
    [title]: the labels before [title] have entries whose event ids are
    all passed over, and so are the ids before [eventId] in the entry of
    [title]. *)
Definition reaches (X : Externals) (db : Store) (index : Index (vector X))
    (candidate : MergeInput) (knn : list (jsstring * distance X))
    (title : jsstring) (eventId : Z) : Prop :=
  ∃ before d after object ids1 ids2,
    knn = before ++ (title, d) :: after ∧
    Forall (λ neighbor, ∃ o, metadataOf neighbor.1 index = Some o ∧
                             Forall (passedOver X db candidate) (eventIdsOf index o))
           before ∧
    metadataOf title index = Some object ∧
    eventIdsOf index object = ids1 ++ eventId :: ids2 ∧
    Forall (passedOver X db candidate) ids1.

(** ** Vocabulary of the further properties *)

(** The least number of characters of a string that [r] matches; 0 for
    the pattern that matches nothing. *)
Fixpoint minLength (r : regex) : nat :=
  match r with
  | RVoid | REps => 0
  | RChar _ | RSpace => 1
  | RSeq r1 r2 => minLength r1 + minLength r2
  | RAlt r1 r2 => Nat.min (minLength r1) (minLength r2)
  | RPlus r => minLength r
  end.

(** Two characters that the pattern cannot tell apart: the same canonical
    form and both white space or neither. *)
Definition sameForPattern (canonicalize : jschar → jschar) (c d : jschar) : Prop :=
  canonicalize c = canonicalize d ∧ isWhiteSpace c = isWhiteSpace d.

(** ** The tally of the results ([resultsByType])

    A [Map<ProcessEmailResult, number>] is the list of its entries, in
    insertion order; [set] on a key that is there keeps its place. *)

Definition ResultMap := list (ProcessEmailResult * Z).

Fixpoint map_get (key : ProcessEmailResult) (m : ResultMap) : option Z :=
  match m with
  | [] => None
  | (k, v) :: m' => if decide (k = key) then Some v else map_get key m'
  end.

Fixpoint map_set (key : ProcessEmailResult) (value : Z) (m : ResultMap) : ResultMap :=
  match m with
  | [] => [(key, value)]
  | (k, v) :: m' =>
      if decide (k = key) then (key, value) :: m'
      else (k, v) :: map_set key value m'
  end.

(** One turn of [for (const result of results)]; a settled promise is
    [Ret value] when fulfilled, [Throw] when rejected. *)
Definition countResult (resultsByType : ResultMap) (result : js ProcessEmailResult)
    : ResultMap :=
  match result with
  | Ret value =>
      match map_get value resultsByType with
      | Some x => map_set value (x + 1) resultsByType
      | None => map_set value 1 resultsByType
      end
  | Throw => resultsByType
  end.

Definition resultsByType (results : list (js ProcessEmailResult)) : ResultMap :=
  fold_left countResult results [].

(** How many of the calls were fulfilled with [value]. *)
Definition fulfilledWith (value : ProcessEmailResult)
    (results : list (js ProcessEmailResult)) : Z :=
  Z.of_nat (length (List.filter
                      (λ result, match result with
                                 | Ret v => bool_decide (v = value)
                                 | Throw => false
                                 end) results)).

(** The string values of [enum ProcessEmailResult]. *)
Definition resultString (value : ProcessEmailResult) : jsstring :=
  lit match value with
      | MALFORMED_EMAIL => "malformed-email-M"
      | NOT_DORMSPAM => "not-dormspam-D"
      | DORMSPAM_BUT_ROOT_NOT_IN_DB => "dormspam-but-root-not-in-db-R"
      | DORMSPAM_BUT_NOT_EVENT_BY_GPT_3 => "dormspam-but-not-event-by-gpt-3"
      | DORMSPAM_BUT_NOT_EVENT_BY_GPT_4 => "dormspam-but-not-event-by-gpt-4"
      | DORMSPAM_PROCESSED_WITH_SAME_PROMPT => "dormspam-processed-with-same-prompt-P"
      | DORMSPAM_BUT_NETWORK_ERROR => "dormspam-but-network-error-N"
      | DORMSPAM_BUT_MALFORMED_JSON => "dormspam-but-malformed-json-J"
      | DORMSPAM_WITH_EVENT => "dormspam-with-event-E"
      end%string.

(** [(value as string).at(-1)]: the last character, [None] for
    [undefined]. *)
Definition progressMark (value : ProcessEmailResult) : option jschar :=
  last (resultString value).

(** ** [emailToRelaxedParsedMail] *)

(** A stored email with its sender row ([include: { sender: true }]), as a
    mail for [processMail]. *)
Definition emailToRelaxedParsedMail (X : Externals) (email : Email)
    (sender : EmailSender) : ParsedMail :=
  {| p_messageId := Some (e_messageId email);
     p_from := Some [{| ea_address := Some (s_email sender);
                        ea_name := Some (default (s_email sender) (s_name sender)) |}];
     p_html := Some (e_body email);
     p_subject := Some (e_subject email);
     p_date := Some (e_receivedAt email);
     p_inReplyTo := e_inReplyToId email;
     p_text := Some (convert X (e_body email)) |}.

(** The call that [fetchEmailsAndExtractEvents] makes for a stored email:
    [processMail(prisma, auth.user, email.uid, emailToRelaxedParsedMail(email),
    processingTasks)]. *)
Definition storedTask (X : Externals) (email : Email) (sender : EmailSender)
    (now : Z) : Task :=
  {| t_uid := e_uid email;
     t_parsed := emailToRelaxedParsedMail X email sender;
     t_now := now |}.

(** The constants that such a call works with. *)
Definition storedLocals (X : Externals) (email : Email) (sender : EmailSender)
    : Locals :=
  {| messageId := e_messageId email;
     senderAddress := s_email sender;
     senderName := default (s_email sender) (s_name sender);
     html := e_body email;
     subject := e_subject email;
     text := removeArtifacts X (convert X (e_body email));
     receivedAt := e_receivedAt email |}.

(** ** What a call leaves in the store *)

(** The state of the store when the call for the mail of [t], started on
    the store [db0], has returned [r]. *)
Definition settledAs (X : Externals) (scrapedBy : jsstring) (t : Task)
    (db0 : Store) (r : ProcessEmailResult) (db : Store) : Prop :=
  match r with
  | MALFORMED_EMAIL | NOT_DORMSPAM =>
      db = ignoreThisEmailForever scrapedBy t db0
  | DORMSPAM_BUT_ROOT_NOT_IN_DB =>
      db = db0
  | DORMSPAM_BUT_NOT_EVENT_BY_GPT_3 | DORMSPAM_BUT_NOT_EVENT_BY_GPT_4
  | DORMSPAM_PROCESSED_WITH_SAME_PROMPT =>
      ∃ mid e, p_messageId (t_parsed t) = Some mid ∧
               email_findUnique mid db = Some e ∧
               e_modelName e = CURRENT_MODEL_NAME X
  | DORMSPAM_BUT_NETWORK_ERROR | DORMSPAM_BUT_MALFORMED_JSON
  | DORMSPAM_WITH_EVENT =>
      ∃ mid e, p_messageId (t_parsed t) = Some mid ∧
               email_findUnique mid db = Some e ∧
               e_modelName e = PROCESSING X
  end.

(** What a call suspended at [p] has done to the store so far. *)
Definition tracked (X : Externals) (scrapedBy : jsstring) (t : Task)
    (db0 : Store) (p : pc) (s : State X) : Prop :=
  match p with
  | NotStarted => store s = db0
  | AwaitIgnore r =>
      store s = db0 ∧ (r = MALFORMED_EMAIL ∨ r = NOT_DORMSPAM)
  | AwaitFindSelf mid _ _ _ _ =>
      store s = db0 ∧ p_messageId (t_parsed t) = Some mid
  | AwaitFindParent l _ | AwaitFindNextRoot l _ _
  | AwaitPrevDeferred l _ _ | AwaitUpsert l _ =>
      store s = db0 ∧ p_messageId (t_parsed t) = Some (messageId l)
  | AwaitFindExisting l _ | AwaitDeleteMany l _
  | AwaitExtract l _ | AwaitMergeEvents l _ _ =>
      p_messageId (t_parsed t) = Some (messageId l) ∧
      ∃ e, email_findUnique (messageId l) (store s) = Some e ∧
           e_modelName e = PROCESSING X
  | AwaitMarkProcessed l r =>
      p_messageId (t_parsed t) = Some (messageId l) ∧
      (r = DORMSPAM_BUT_NOT_EVENT_BY_GPT_3 ∨ r = DORMSPAM_BUT_NOT_EVENT_BY_GPT_4 ∨
       r = DORMSPAM_PROCESSED_WITH_SAME_PROMPT)
  | Exited (Some r) => settledAs X scrapedBy t db0 r (store s)
  | Exited None => True
  end.

(** ** The store calls of a run *)

(** The change of the store in one step of the event loop: none, or one of
    the writes of [processMail]. *)
Inductive storeChange (X : Externals) (db : Store) : Store → Prop :=
| sc_none : storeChange X db db
| sc_ignore scrapedBy uid receivedAt :
    storeChange X db (ignoredEmail_upsert scrapedBy uid receivedAt db)
| sc_upsert new senderName db' :
    e_modelName new = PROCESSING X →
    email_upsert new senderName (PROCESSING X) db = Ret db' →
    storeChange X db db'
| sc_mark messageId db' :
    email_updateModelName messageId (CURRENT_MODEL_NAME X) db = Ret db' →
    storeChange X db db'
| sc_deleteMany rootMessageId :
    storeChange X db (event_deleteMany rootMessageId db)
| sc_merge reply l rootMessageId event index index' merged db' :
    mergeOne X reply l rootMessageId event db index = (db', index', merged) →
    storeChange X db db'.

(** [e'] is [e] but for its model name. *)
Definition sameButModelName (e e' : Email) : Prop :=
  e' = setModelName (e_modelName e') e.

(** Every email of [l] that replies to another comes after it: its
    [inReplyToId] is in [seen] or is the message id of an earlier email. *)
Fixpoint parentsFirstFrom (seen : list jsstring) (l : list Email) : bool :=
  match l with
  | [] => true
  | e :: l' =>
      match e_inReplyToId e with
      | Some p => bool_decide (p ∈ seen)
      | None => true
      end && parentsFirstFrom (e_messageId e :: seen) l'
  end.

Definition parentsFirst (db : Store) : Prop :=
  parentsFirstFrom [] (emails db) = true.

(** The place of the first email with message id [id]. *)
Fixpoint rank (id : jsstring) (l : list Email) : nat :=
  match l with
  | [] => 0
  | e :: l' => if jsstring_eqb (e_messageId e) id then 0 else S (rank id l')
  end.

(** The root of the thread of [id]: [inReplyToId] followed for at most
    [fuel] links. *)
Fixpoint rootOf (db : Store) (fuel : nat) (id : jsstring) : option Email :=
  match email_findUnique id db with
  | None => None
  | Some e =>
      match e_inReplyToId e, fuel with
      | None, _ => Some e
      | Some next, S fuel' => rootOf db fuel' next
      | Some _, O => None
      end
  end.

(** The task that an action belongs to. *)
Definition taskOf (a : Action) : nat :=
  match a with
  | Register i _ | Lookup i _ _ | Write i _ | Decide i _ | Resolve i
  | UnhandledRejection i => i
  end.

(** The key of a row of the ledger: [scrapedBy_uid]. *)
Definition ledgerKey (ig : IgnoredEmail) : jsstring * Z :=
  (i_scrapedBy ig, i_uid ig).

(** ** More example mails *)

(** A mail without a subject. *)
Definition subjectless : Task :=
  {| t_uid := 6;
     t_parsed :=
       {| p_messageId := Some (lit "f@mit");
          p_from := Some [{| ea_address := Some (lit "club@mit");
                             ea_name := Some (lit "club") |}];
          p_html := Some (lit "party, bcc'd to dorms");
          p_subject := None; p_date := Some 100;
          p_inReplyTo := None; p_text := None |};
     t_now := 0 |}.

Definition seriesSender : EmailSender :=
  {| s_email := lit "club@mit"; s_name := Some (lit "club") |}.

(** A dormspam in reply to the stored series mail. *)
Definition seriesReply : Task :=
  {| t_uid := 12;
     t_parsed := mail "r@mit"%string (Some "series@mit"%string)
                   "one more, bcc'd to dorms"%string;
     t_now := 0 |}.

Definition seriesReplyLocals : Locals :=
  {| messageId := lit "r@mit"; senderAddress := lit "club@mit";
     senderName := lit "club"; html := lit "one more, bcc'd to dorms";
     subject := lit "party"; text := lit "one more, bcc'd to dorms";
     receivedAt := 100 |}.

(** The reply in a store that holds the series mail under the current
    model, up to its upsert. *)
Definition repliedRun : State host :=
  processMail host daemon [seriesReply] 0 [fine; fine; fine; fine]
    (initial host [seriesReply] (seriesStore 100 (lit "model-2")) seriesIndex).

(** The series mail, stored under the current model, handed to
    [processMail] once more, up to the classifier. *)
Definition classifiedRun : State host :=
  processMail host daemon [seriesTask] 0 [fine; fine]
    (initial host [seriesTask] (seriesStore 100 (lit "model-2")) seriesIndex).

(** The reply to the series mail, up to the lookup of its parent. *)
Definition askedRun : State host :=
  processMail host daemon [seriesReply] 0 [fine; fine]
    (initial host [seriesReply] (seriesStore 100 (lit "model-2")) seriesIndex).

(** * Properties *)

(** ** Strings *)

Lemma startsWith_spec p s :
  startsWith p s = true ↔ ∃ rest, s = p ++ rest.
Proof.
  revert s. induction p as [|c p IH]; intros s; simpl.
  - split; eauto.
  - destruct s as [|d s]; simpl.
    + split; [discriminate | intros [rest H]; discriminate].
    + rewrite andb_true_iff, N.eqb_eq, IH. split.
      * intros [-> [rest ->]]. eauto.
      * intros [rest H]. injection H as -> ->. eauto.
Qed.

Lemma includes_spec s p :
  includes s p = true ↔ ∃ before after, s = before ++ p ++ after.
Proof.
  induction s as [|d s IH].
  - simpl. rewrite orb_false_r, startsWith_spec. split.
    + intros [rest H]. exists [], rest. exact H.
    + intros [before [after H]]. symmetry in H.
      apply app_eq_nil in H as [-> H]. eauto.
  - cbn [includes]. rewrite orb_true_iff, startsWith_spec, IH. split.
    + intros [[rest H] | [before [after H]]].
      * exists [], rest. exact H.
      * exists (d :: before), after. simpl. now rewrite H.
    + intros [[|b before] [after H]].
      * left. eauto.
      * right. injection H as _ H. eauto.
Qed.

Lemma jsstring_eqb_eq a b : jsstring_eqb a b = true ↔ a = b.
Proof. unfold jsstring_eqb. apply bool_decide_eq_true. Qed.

(** ** Dates *)

Section DateFacts.
Variable localTZA : Z → Z.

Lemma isAllDay_spec t :
  isAllDay localTZA t = true ↔ atMidnight localTZA t.
Proof.
  unfold isAllDay, atMidnight, getHours, getMinutes.
  unfold msPerHour, msPerMinute, msPerDay.
  generalize (localTime localTZA t). intros L.
  rewrite andb_true_iff, !Z.eqb_eq. split.
  - intros [Hh Hm]. exists (L / 86400000), (L mod 86400000).
    Z.to_euclidean_division_equations. lia.
  - intros [day [ms [-> Hms]]].
    Z.to_euclidean_division_equations. lia.
Qed.

Lemma getDay_spec t1 t2 :
  getDay localTZA t1 = getDay localTZA t2 ↔ sameDayOfWeek localTZA t1 t2.
Proof.
  unfold getDay, sameDayOfWeek.
  generalize (localTime localTZA t1 / msPerDay).
  generalize (localTime localTZA t2 / msPerDay). intros d2 d1. split.
  - intros H. exists ((d1 + 4) / 7 - (d2 + 4) / 7).
    Z.to_euclidean_division_equations. lia.
  - intros [weeks H]. Z.to_euclidean_division_equations. lia.
Qed.
End DateFacts.

(** ** [mergeEvents] *)

Section MergeFacts.
Variable localTZA : Z → Z.
Variable toLowerCase : jsstring → jsstring.

Lemma sameDate_spec e1 e2 :
  sameDate localTZA e1 e2 = true ↔ dateCompatible localTZA e1 e2.
Proof.
  unfold sameDate, dateCompatible, getTime.
  rewrite orb_true_iff, andb_true_iff, orb_true_iff, !Z.eqb_eq.
  rewrite !isAllDay_spec, getDay_spec. tauto.
Qed.

Lemma sameLocation_spec e1 e2 :
  sameLocation toLowerCase e1 e2 = true ↔ locationCompatible toLowerCase e1 e2.
Proof.
  unfold sameLocation, locationCompatible, isWildcard, substringIgnoringCase.
  rewrite !orb_true_iff, !jsstring_eqb_eq, !includes_spec. tauto.
Qed.

Lemma mergeEvents_unmergable e1 e2 :
  mergeEvents localTZA toLowerCase e1 e2 = Ret Unmergable ↔
  sameDate localTZA e1 e2 && sameLocation toLowerCase e1 e2 = false.
Proof.
  unfold mergeEvents, receivedAtOf.
  destruct (sameDate localTZA e1 e2), (sameLocation toLowerCase e1 e2); simpl;
    try tauto.
  destruct (me_fromEmail e1) as [r1|], (me_fromEmail e2) as [r2|]; simpl;
    try (split; discriminate).
  destruct (r1 <=? r2); split; discriminate.
Qed.

(** The verdict on a pair that passes both tests. *)
Lemma mergeEvents_tie_break e1 e2 r1 r2 :
  me_fromEmail e1 = Some r1 → me_fromEmail e2 = Some r2 →
  sameDate localTZA e1 e2 && sameLocation toLowerCase e1 e2 = true →
  mergeEvents localTZA toLowerCase e1 e2
  = Ret (if r1 <=? r2 then Latter else Former).
Proof.
  intros H1 H2 H. apply andb_true_iff in H as [Hd Hl].
  unfold mergeEvents, receivedAtOf. now rewrite Hd, Hl, H1, H2.
Qed.

(** C5 (amended).  [mergeEvents] answers "unmergable" exactly when the date
    test or the location test fails, and it answers "former" or "latter"
    exactly when both tests pass and both events have an owning email; when
    both tests pass and an owning email is missing it throws.  The date
    test: equal time values, or one of the two at local midnight and both
    on the same day of the week.  The location test: one location is
    "unknown" once lower-cased, or the lower-cased locations contain one
    another. *)
Theorem mergeEvents_mergeable_iff e1 e2 :
  (mergeEvents localTZA toLowerCase e1 e2 = Ret Unmergable ↔
   ¬ (dateCompatible localTZA e1 e2 ∧ locationCompatible toLowerCase e1 e2)) ∧
  ((mergeEvents localTZA toLowerCase e1 e2 = Ret Former ∨
    mergeEvents localTZA toLowerCase e1 e2 = Ret Latter) ↔
   (dateCompatible localTZA e1 e2 ∧ locationCompatible toLowerCase e1 e2) ∧
   is_Some (me_fromEmail e1) ∧ is_Some (me_fromEmail e2)) ∧
  (mergeEvents localTZA toLowerCase e1 e2 = Throw ↔
   (dateCompatible localTZA e1 e2 ∧ locationCompatible toLowerCase e1 e2) ∧
   ¬ (is_Some (me_fromEmail e1) ∧ is_Some (me_fromEmail e2))).
Proof.
  assert (Hspec : sameDate localTZA e1 e2 && sameLocation toLowerCase e1 e2 = true ↔
                  dateCompatible localTZA e1 e2 ∧ locationCompatible toLowerCase e1 e2).
  { now rewrite andb_true_iff, sameDate_spec, sameLocation_spec. }
  rewrite <- Hspec. clear Hspec.
  unfold mergeEvents, receivedAtOf.
  destruct (sameDate localTZA e1 e2), (sameLocation toLowerCase e1 e2);
    destruct (me_fromEmail e1) as [r1|], (me_fromEmail e2) as [r2|]; simpl;
    try destruct (r1 <=? r2);
    (split; [|split]); split;
    try discriminate; try tauto;
    try (intros [H|H]; discriminate);
    try (intros (_ & [? H] & _); discriminate);
    try (intros (_ & _ & [? H]); discriminate);
    try (intros (H & _); discriminate);
    try (intros _; split; [reflexivity|]; intros ([? H] & _); discriminate);
    try (intros _; split; [reflexivity|]; intros (_ & [? H]); discriminate);
    try (intros (_ & H); exfalso; apply H; split; eauto);
    try (intros _; repeat split; eauto).
  all: try (intros H; exfalso; apply H; split; reflexivity).
Qed.
End MergeFacts.

(** The claim of C5 fails on an event without an owning email.  The
    lecture of the specification's example passes both tests against the
    stored series; the stored event's [fromEmail] is [null], and
    [mergeEvents] returns no decision: reading [receivedAt] of [null]
    throws. *)
Lemma mergeEvents_mergeable_iff_counterexample :
  dateCompatible (λ _, 0) (lectureCandidate 5) orphanStored ∧
  locationCompatible asciiToLowerCase (lectureCandidate 5) orphanStored ∧
  mergeEvents (λ _, 0) asciiToLowerCase (lectureCandidate 5) orphanStored = Throw ∧
  ¬ (mergeEvents (λ _, 0) asciiToLowerCase (lectureCandidate 5) orphanStored
     = Ret Former ∨
     mergeEvents (λ _, 0) asciiToLowerCase (lectureCandidate 5) orphanStored
     = Ret Latter).
Proof.
  split; [|split; [|split]].
  - apply sameDate_spec. vm_compute. reflexivity.
  - apply sameLocation_spec. vm_compute. reflexivity.
  - vm_compute. reflexivity.
  - intros [H|H]; vm_compute in H; discriminate.
Qed.

(** With its owning email the stored series is mergeable with the lecture,
    whatever the two receiving times. *)
Example mergeEvents_mergeable_example :
  mergeEvents (λ _, 0) asciiToLowerCase (lectureCandidate 5) (lectureStored 7)
  = Ret Latter ∧
  mergeEvents (λ _, 0) asciiToLowerCase (lectureCandidate 7) (lectureStored 5)
  = Ret Former.
Proof. split; vm_compute; reflexivity. Qed.

(** ** [isDormspam] *)

Section RegExpFacts.
Variable canonicalize : jschar → jschar.

Local Abbreviation matches := (matches canonicalize).
Local Abbreviation deriv := (deriv canonicalize).
Local Abbreviation spells := (spells canonicalize).

Lemma matches_nil_nullable r s :
  matches r s → s = [] → nullable r = true.
Proof.
  induction 1; intros E; simpl; try discriminate; auto.
  - apply app_eq_nil in E as [-> ->]. rewrite IHmatches1, IHmatches2; auto.
  - rewrite IHmatches; auto.
  - rewrite IHmatches. apply orb_true_r. assumption.
  - apply app_eq_nil in E as [-> ->]. auto.
Qed.

Lemma nullable_matches_nil r :
  nullable r = true → matches r [].
Proof.
  induction r; simpl; intros H; try discriminate.
  - constructor.
  - apply andb_true_iff in H as [H1 H2].
    change (@nil jschar) with (@nil jschar ++ []). constructor; auto.
  - apply orb_true_iff in H as [H|H]; [apply m_alt_l | apply m_alt_r]; auto.
  - apply m_plus_one; auto.
Qed.

Lemma deriv_sound ch r s :
  matches (deriv ch r) s → matches r (ch :: s).
Proof.
  revert s. induction r; simpl; intros s H.
  - inversion H.
  - inversion H.
  - destruct (canonicalize ch =? canonicalize c)%N eqn:E; inversion H; subst.
    apply N.eqb_eq in E. now constructor.
  - destruct (isWhiteSpace ch) eqn:E; inversion H; subst. now constructor.
  - inversion H as [| | | | ? ? ? H1 | ? ? ? H1 | |]; subst.
    + inversion H1; subst.
      change (ch :: s1 ++ s2) with ((ch :: s1) ++ s2). constructor; auto.
    + destruct (nullable r1) eqn:E; [|inversion H1].
      change (ch :: s) with ([] ++ ch :: s).
      constructor; [now apply nullable_matches_nil | auto].
  - inversion H; subst; [apply m_alt_l | apply m_alt_r]; auto.
  - inversion H as [| | |? ? ? ? H1 H2 | | | |]; subst.
    change (ch :: s1 ++ s2) with ((ch :: s1) ++ s2).
    inversion H2 as [| | | |? ? ? H3 | ? ? ? H3 | |]; subst.
    + inversion H3; subst. rewrite app_nil_r. apply m_plus_one; auto.
    + apply m_plus_more; auto.
Qed.

Lemma deriv_complete r s0 :
  matches r s0 → ∀ ch tl, s0 = ch :: tl → matches (deriv ch r) tl.
Proof.
  induction 1; intros ch' tl E; simpl.
  - discriminate.
  - injection E as -> <-. rewrite H, N.eqb_refl. constructor.
  - injection E as -> <-. rewrite H. constructor.
  - destruct s1 as [|d s1]; simpl in E.
    + apply m_alt_r. rewrite (matches_nil_nullable _ _ H eq_refl). eauto.
    + injection E as -> <-. apply m_alt_l. constructor; eauto.
  - apply m_alt_l; eauto.
  - apply m_alt_r; eauto.
  - rewrite <- (app_nil_r tl). constructor; eauto.
    apply m_alt_l. constructor.
  - destruct s1 as [|d s1]; simpl in E.
    + eauto.
    + injection E as -> <-. constructor; eauto. now apply m_alt_r.
Qed.

Lemma matchPrefix_spec r s :
  matchPrefix canonicalize r s = true ↔
  ∃ fragment after, s = fragment ++ after ∧ matches r fragment.
Proof.
  revert r. induction s as [|ch s IH]; intros r; simpl.
  - rewrite orb_false_r. split.
    + intros H. exists [], []. split; [reflexivity | now apply nullable_matches_nil].
    + intros [fragment [after [E H]]]. symmetry in E.
      apply app_eq_nil in E as [-> _]. eapply matches_nil_nullable; eauto.
  - rewrite orb_true_iff, IH. split.
    + intros [H | [fragment [after [-> H]]]].
      * exists [], (ch :: s). split; [reflexivity | now apply nullable_matches_nil].
      * exists (ch :: fragment), after. split; [reflexivity | now apply deriv_sound].
    + intros [[|d fragment] [after [E H]]].
      * left. eapply matches_nil_nullable; eauto.
      * right. injection E as <- ->. exists fragment, after.
        split; [reflexivity | eapply deriv_complete; eauto].
Qed.

Lemma test_spec r s :
  test canonicalize r s = true ↔
  ∃ before fragment after, s = before ++ fragment ++ after ∧ matches r fragment.
Proof.
  induction s as [|ch s IH]; cbn [test].
  - rewrite orb_false_r, matchPrefix_spec. split.
    + intros [fragment [after [E H]]]. exists [], fragment, after. auto.
    + intros [before [fragment [after [E H]]]]. symmetry in E.
      apply app_eq_nil in E as [-> E]. eauto.
  - rewrite orb_true_iff, matchPrefix_spec, IH. split.
    + intros [[fragment [after [E H]]] | [before [fragment [after [E H]]]]].
      * exists [], fragment, after. auto.
      * exists (ch :: before), fragment, after. simpl. now rewrite E.
    + intros [[|b before] [fragment [after [E H]]]].
      * left. exists fragment, after. auto.
      * right. injection E as _ E. eauto.
Qed.

Lemma matches_spaces s :
  matches (RPlus RSpace) s ↔
  s ≠ [] ∧ Forall (λ ch, isWhiteSpace ch = true) s.
Proof.
  split.
  - remember (RPlus RSpace) as r eqn:Er. induction 1; try discriminate.
    + injection Er as ->. inversion H; subst. split; [discriminate | auto].
    + injection Er as ->. inversion H; subst.
      split; [discriminate | constructor; [assumption | now apply IHmatches2]].
  - intros [Hne H]. induction H as [|ch s Hch Hs IH]; [congruence|].
    destruct s as [|d s].
    + apply m_plus_one. now constructor.
    + change (ch :: d :: s) with ([ch] ++ d :: s).
      apply m_plus_more; [now constructor | apply IH; discriminate].
Qed.

Lemma keywordPattern_afterSpace keyword :
  keywordPattern true keyword = keywordPattern false (dropSpaces keyword).
Proof.
  induction keyword as [|c rest IH]; simpl; [reflexivity|].
  destruct (c =? SPACE)%N eqn:E; [exact IH|]. simpl. now rewrite E.
Qed.

Lemma dropSpaces_length keyword :
  (length (dropSpaces keyword) ≤ length keyword)%nat.
Proof.
  induction keyword as [|c rest IH]; simpl; [lia|].
  destruct (c =? SPACE)%N; simpl; lia.
Qed.

Lemma keywordPattern_spells keyword fragment :
  spells keyword fragment → matches (keywordPattern false keyword) fragment.
Proof.
  induction 1; simpl.
  - constructor.
  - apply N.eqb_neq in H. rewrite H.
    change (d :: fragment) with ([d] ++ fragment).
    constructor; [now constructor | assumption].
  - constructor.
    + apply matches_spaces. auto.
    + now rewrite keywordPattern_afterSpace.
Qed.

Lemma spells_keywordPattern n keyword fragment :
  (length keyword < n)%nat →
  matches (keywordPattern false keyword) fragment → spells keyword fragment.
Proof.
  revert keyword fragment. induction n as [|n IH]; intros keyword fragment Hn; [lia|].
  destruct keyword as [|c rest]; simpl.
  - intros H. inversion H. constructor.
  - simpl in Hn. destruct (c =? SPACE)%N eqn:E.
    + apply N.eqb_eq in E as ->. intros H.
      inversion H as [| | |? ? ? ? H1 H2| | | |]; subst.
      apply matches_spaces in H1 as [Hne Hws].
      rewrite keywordPattern_afterSpace in H2.
      apply spells_separator; auto. apply IH; auto.
      pose proof (dropSpaces_length rest). lia.
    + apply N.eqb_neq in E. intros H.
      inversion H as [| | |? ? ? ? H1 H2| | | |]; subst.
      inversion H1; subst. simpl.
      apply spells_letter; auto. apply IH; auto. lia.
Qed.

Lemma keywordPattern_spec keyword fragment :
  matches (keywordPattern false keyword) fragment ↔ spells keyword fragment.
Proof.
  split; [apply (spells_keywordPattern (S (length keyword))); lia
         | apply keywordPattern_spells].
Qed.

Lemma joinAlt_spec rs s :
  rs ≠ [] → matches (joinAlt rs) s ↔ ∃ r, In r rs ∧ matches r s.
Proof.
  induction rs as [|r rs IH]; [congruence|]. intros _.
  destruct rs as [|r' rs].
  - simpl. split; [eauto | intros [r0 [[<-|[]] H]]; exact H].
  - change (joinAlt (r :: r' :: rs)) with (RAlt r (joinAlt (r' :: rs))). split.
    + intros H. inversion H; subst.
      * exists r. split; [now left | assumption].
      * apply IH in H3 as [r0 [Hin H0]]; [|discriminate].
        exists r0. split; [now right | assumption].
    + intros [r0 [[<-|Hin] H]].
      * now apply m_alt_l.
      * apply m_alt_r. apply IH; [discriminate | eauto].
Qed.

(** C9.  [isDormspam text] is true exactly when the text contains one of
    the dormspam phrases, letter case ignored and every run of spaces of
    the phrase standing for one or more white-space characters; it is
    false for a text that contains none.  It is a function of the text
    alone. *)
Theorem isDormspam_iff_contains_phrase text :
  (isDormspam canonicalize text = true ↔
   ∃ phrase, In phrase dormspamKeywords ∧ containsPhrase canonicalize phrase text) ∧
  ((∀ phrase, In phrase dormspamKeywords →
              ¬ containsPhrase canonicalize phrase text) →
   isDormspam canonicalize text = false).
Proof.
  assert (Hiff : isDormspam canonicalize text = true ↔
    ∃ phrase, In phrase dormspamKeywords ∧ containsPhrase canonicalize phrase text).
  { unfold isDormspam, isDormspamRegex, containsPhrase. rewrite test_spec. split.
    - intros [before [fragment [after [E H]]]].
      apply joinAlt_spec in H as [r [Hin H]]; [|discriminate].
      apply in_map_iff in Hin as [phrase [<- Hin]].
      exists phrase. split; [assumption|].
      exists before, fragment, after. split; [assumption|].
      now apply keywordPattern_spec.
    - intros [phrase [Hin [before [fragment [after [E H]]]]]].
      exists before, fragment, after. split; [assumption|].
      apply joinAlt_spec; [discriminate|].
      exists (keywordPattern false phrase). split.
      + now apply in_map.
      + now apply keywordPattern_spec. }
  split; [exact Hiff|].
  intros Hnone. apply not_true_iff_false. rewrite Hiff.
  intros [phrase [Hin H]]. exact (Hnone phrase Hin H).
Qed.
End RegExpFacts.

Example isDormspam_mixed_case :
  isDormspam asciiFold
    (lit "Hi all, BCC'd" ++ [10; 9]%N ++ lit "to  Dorms, blue for bc-talk") = true.
Proof. vm_compute. reflexivity. Qed.

Example isDormspam_unrelated :
  isDormspam asciiFold (lit "lunch at noon, bcc: nobody") = false.
Proof. vm_compute. reflexivity. Qed.

(** ** The merge of one event *)

Lemma find_update_in_place id (new : Event) (l : list Event) (old : Event) :
  ev_id new = id →
  List.find (λ ev, ev_id ev =? id) l = Some old →
  List.find (λ ev, ev_id ev =? id)
            (List.map (λ ev, if ev_id ev =? id then new else ev) l) = Some new.
Proof.
  intros Hid. induction l as [|ev l IH]; simpl; [discriminate|].
  destruct (ev_id ev =? id) eqn:E.
  - intros _. simpl. now rewrite Hid, Z.eqb_refl.
  - intros H. simpl. rewrite E. auto.
Qed.

Lemma ids_update_in_place id (new : Event) (l : list Event) :
  ev_id new = id →
  List.map ev_id (List.map (λ ev, if ev_id ev =? id then new else ev) l)
  = List.map ev_id l.
Proof.
  intros Hid. induction l as [|ev l IH]; simpl; [reflexivity|].
  rewrite IH. destruct (ev_id ev =? id) eqn:E; [|reflexivity].
  apply Z.eqb_eq in E. congruence.
Qed.

(** [event.update] overwrites a stored event in place: same id, new data,
    and the ids of the table are the same, in the same order. *)
Lemma event_update_in_place id data db old :
  event_findUnique id db = Some old →
  connects (d_fromEmailId data) db = true →
  ∃ db', event_update id data db = Ret db' ∧
         event_findUnique id db' = Some {| ev_id := id; ev_data := data |} ∧
         List.map ev_id (events db') = List.map ev_id (events db) ∧
         emails db' = emails db ∧ ignoredEmails db' = ignoredEmails db.
Proof.
  intros H Hc. unfold event_update. rewrite H, Hc. eexists. split; [reflexivity|].
  unfold event_findUnique in *. simpl.
  split; [|split; [|split; reflexivity]].
  - eapply find_update_in_place; [reflexivity | eassumption].
  - now apply ids_update_in_place.
Qed.

Section MergeOneFacts.
Variable X : Externals.

Lemma scanEventIds_hit db candidate ids eventId v :
  scanEventIds X db candidate ids = Ret (Some (eventId, v)) →
  ∃ other, event_findUnique eventId db = Some other ∧
           mergeEvents (localTZA X) (toLowerCase X) candidate (storedInput db other)
           = Ret (verdictResult v).
Proof.
  induction ids as [|id ids IH]; simpl; [discriminate|].
  destruct (event_findUnique id db) as [other|] eqn:Ef; [|exact IH].
  destruct (mergeEvents _ _ candidate (storedInput db other)) as [[| |]|] eqn:Em;
    simpl; try discriminate; try exact IH.
  - intros H. injection H as <- <-. eauto.
  - intros H. injection H as <- <-. eauto.
Qed.

(** The scan goes past the ids that it passes over. *)
Lemma scanEventIds_passedOver db candidate ids1 ids :
  Forall (passedOver X db candidate) ids1 →
  scanEventIds X db candidate (ids1 ++ ids) = scanEventIds X db candidate ids.
Proof.
  induction 1 as [|id ids1 Hid _ IH]; simpl; [reflexivity|].
  destruct (event_findUnique id db) as [other|] eqn:Ef; [|exact IH].
  assert (Hun : mergeEvents (localTZA X) (toLowerCase X) candidate
                  (storedInput db other) = Ret Unmergable).
  { apply mergeEvents_unmergable. apply not_true_iff_false.
    rewrite andb_true_iff, sameDate_spec, sameLocation_spec.
    exact (Hid other Ef). }
  rewrite Hun. exact IH.
Qed.

(** The scan stops at the first id whose event merges. *)
Lemma scanEventIds_reached db candidate ids1 eventId ids2 other v :
  Forall (passedOver X db candidate) ids1 →
  event_findUnique eventId db = Some other →
  mergeEvents (localTZA X) (toLowerCase X) candidate (storedInput db other)
  = Ret (verdictResult v) →
  scanEventIds X db candidate (ids1 ++ eventId :: ids2) = Ret (Some (eventId, v)).
Proof.
  intros Hpassed Hfind Hmerge. rewrite scanEventIds_passedOver by assumption.
  simpl. rewrite Hfind, Hmerge. now destruct v.
Qed.

Lemma scanNeighbors_reached db index candidate knn title eventId other v :
  reaches X db index candidate knn title eventId →
  event_findUnique eventId db = Some other →
  mergeEvents (localTZA X) (toLowerCase X) candidate (storedInput db other)
  = Ret (verdictResult v) →
  ∃ object, scanNeighbors X db index candidate knn
            = Ret (Some (title, object, eventId, v)).
Proof.
  intros (before & d & after & object & ids1 & ids2 & -> & Hbefore & Hobject
          & Hids & Hpassed) Hfind Hmerge.
  exists object. induction Hbefore as [|[t dt] before (o & Ho & Hp) _ IH]; simpl.
  - rewrite Hobject, Hids.
    now rewrite (scanEventIds_reached _ _ _ _ _ other v Hpassed Hfind Hmerge).
  - simpl in Ho. rewrite Ho.
    rewrite <- (app_nil_r (eventIdsOf index o)).
    rewrite (scanEventIds_passedOver _ _ _ [] Hp). simpl. exact IH.
Qed.

(** What [mergeEvents] has established when it answers with a verdict. *)
Lemma mergeEvents_verdict e1 e2 v :
  mergeEvents (localTZA X) (toLowerCase X) e1 e2 = Ret (verdictResult v) →
  ∃ r1 r2, me_fromEmail e1 = Some r1 ∧ me_fromEmail e2 = Some r2 ∧
           dateCompatible (localTZA X) e1 e2 ∧
           locationCompatible (toLowerCase X) e1 e2 ∧
           (v = IsLatter ∧ r1 ≤ r2 ∨ v = IsFormer ∧ r2 < r1).
Proof.
  intros H.
  destruct (sameDate (localTZA X) e1 e2 && sameLocation (toLowerCase X) e1 e2) eqn:E.
  - pose proof E as E'. apply andb_true_iff in E' as [Hd Hl].
    apply sameDate_spec in Hd. apply sameLocation_spec in Hl.
    unfold mergeEvents, receivedAtOf in H.
    apply andb_true_iff in E as [Ed El]. rewrite Ed, El in H. simpl in H.
    destruct (me_fromEmail e1) as [r1|]; [|discriminate].
    destruct (me_fromEmail e2) as [r2|]; [|discriminate]. simpl in H.
    exists r1, r2. repeat split; auto.
    destruct (r1 <=? r2) eqn:Er; destruct v; try discriminate.
    + left. split; [reflexivity | now apply Z.leb_le].
    + right. split; [reflexivity | now apply Z.leb_gt].
  - apply mergeEvents_unmergable in E. rewrite E in H. destruct v; discriminate.
Qed.

(** C2 (amended).  A stored event that the scan of the neighbours reaches
    (every event id before it is passed over: its event is not stored or
    does not merge with the candidate) and that merges with the candidate
    ends the scan, and the tie is broken by the receiving times of the
    owning emails: the later email wins.  If the stored event's email was
    received later than the candidate's, or at the same time, the decision
    is keep-existing and the candidate is dropped; if it was received
    earlier, the decision is supersede and the stored event is overwritten
    in place with the candidate's data, under the same id. *)
Theorem merge_tie_break reply l rootMessageId event db index own title eventId
    other storedAt :
  getEmbedding (x_title event)
    (upsertEmbedding X (x_title event) (embedding1 reply) [] index) = Some own →
  reaches X db (upsertEmbedding X (x_title event) (embedding1 reply) [] index)
    (candidateInput l event)
    (getKNearestNeighbors X
       (upsertEmbedding X (x_title event) (embedding1 reply) [] index)
       (embeddings own) 3)
    title eventId →
  event_findUnique eventId db = Some other →
  me_fromEmail (storedInput db other) = Some storedAt →
  dateCompatible (localTZA X) (candidateInput l event) (storedInput db other) →
  locationCompatible (toLowerCase X) (candidateInput l event) (storedInput db other) →
  (receivedAt l ≤ storedAt →
   mergeOne X reply l rootMessageId event db index
   = (db, upsertEmbedding X (x_title event) (embedding1 reply) [] index,
      Ret (KeepExisting eventId))) ∧
  (storedAt < receivedAt l → is_Some (email_findUnique rootMessageId db) →
   ∃ db' index',
     mergeOne X reply l rootMessageId event db index
     = (db', index', Ret (Supersede eventId)) ∧
     event_findUnique eventId db'
     = Some {| ev_id := eventId;
               ev_data := newEventData l rootMessageId event |} ∧
     List.map ev_id (events db') = List.map ev_id (events db)).
Proof.
  intros Hown Hreach Hfind Hstored Hdate Hloc.
  assert (Hmerge : mergeEvents (localTZA X) (toLowerCase X) (candidateInput l event)
                     (storedInput db other)
                   = Ret (if receivedAt l <=? storedAt then Latter else Former)).
  { apply mergeEvents_tie_break; [reflexivity | exact Hstored|].
    apply andb_true_iff. now rewrite sameDate_spec, sameLocation_spec. }
  split.
  - intros Hle. apply Z.leb_le in Hle. rewrite Hle in Hmerge.
    destruct (scanNeighbors_reached _ _ _ _ _ _ other IsLatter Hreach Hfind Hmerge)
      as [object Hscan].
    unfold mergeOne. cbv zeta. now rewrite Hown, Hscan.
  - intros Hlt Hroot. apply Z.leb_gt in Hlt. rewrite Hlt in Hmerge.
    destruct (scanNeighbors_reached _ _ _ _ _ _ other IsFormer Hreach Hfind Hmerge)
      as [object Hscan].
    destruct (event_update_in_place eventId
                (newEventData l rootMessageId event) db other Hfind)
      as [db' [Hupd [Hfound [Hsame _]]]].
    { simpl. now apply bool_decide_eq_true_2. }
    unfold mergeOne. cbv zeta. rewrite Hown, Hscan, Hupd. eauto.
Qed.

(** C3.  A keep-existing decision leaves the store as it was, but not the
    index: [upsertEmbedding] has been called for the candidate's title
    before the neighbours were looked at, and nothing undoes it.  For a
    title that the index did not know, the index holds an entry for it
    afterwards, whatever [upsertEmbedding] does: without that entry
    [getEmbedding(event.title)!] throws and there is no decision. *)
Theorem keep_existing_leaves_label reply l rootMessageId event db index db' index'
    eventId :
  mergeOne X reply l rootMessageId event db index
  = (db', index', Ret (KeepExisting eventId)) →
  getEmbedding (x_title event) index = None →
  db' = db ∧
  index' = upsertEmbedding X (x_title event) (embedding1 reply) [] index ∧
  is_Some (getEmbedding (x_title event) index') ∧
  index' ≠ index.
Proof.
  unfold mergeOne. cbv zeta.
  destruct (getEmbedding (x_title event)
              (upsertEmbedding X (x_title event) (embedding1 reply) [] index))
    as [own|] eqn:Hown; [|intros H; discriminate].
  destruct (scanNeighbors X db _ _ _) as [[[[[title object] id] [|]]|]|].
  - intros H Hnone. injection H as <- <- <-.
    repeat split; [eauto|]. intros Heq. rewrite Heq in Hown. congruence.
  - destruct (event_update _ _ _) as [db1|]; intros H; discriminate.
  - destruct (event_create _ _) as [[db1 newEvent]|]; intros H; discriminate.
  - intros H; discriminate.
Qed.
End MergeOneFacts.

(** The stored series mail was received at 100.  A lecture mail received at
    50 is dropped, a lecture mail received at 200 replaces the stored
    event. *)
Lemma merge_tie_break_witness :
  mergeOne host (answers (Extracted []) 9 9) (lectureLocals 50) (lit "series@mit")
    lectureEvent (seriesStore 100 (lit "model-2")) seriesIndex
  = (seriesStore 100 (lit "model-2"),
     upsertEmbedding host (x_title lectureEvent) 9 [] seriesIndex,
     Ret (KeepExisting 7)) ∧
  ∃ db' index',
    mergeOne host (answers (Extracted []) 9 9) (lectureLocals 200) (lit "series@mit")
      lectureEvent (seriesStore 100 (lit "model-2")) seriesIndex
    = (db', index', Ret (Supersede 7)) ∧
    event_findUnique 7 db'
    = Some {| ev_id := 7;
              ev_data := newEventData (lectureLocals 200) (lit "series@mit")
                           lectureEvent |} ∧
    List.map ev_id (events db')
    = List.map ev_id (events (seriesStore 100 (lit "model-2"))).
Proof.
  assert (Hreach : ∀ at_,
    reaches host (seriesStore 100 (lit "model-2"))
      (upsertEmbedding host (x_title lectureEvent) 9 [] seriesIndex)
      (candidateInput (lectureLocals at_) lectureEvent)
      (getKNearestNeighbors host
         (upsertEmbedding host (x_title lectureEvent) 9 [] seriesIndex) 9 3)
      (lit "Lecture Series") 7).
  { intros at_. exists [(lit "Lecture", 0)], 1, [], 0%nat, [], [].
    split; [vm_compute; reflexivity|]. split.
    - constructor; [|constructor]. exists 1%nat.
      split; [vm_compute; reflexivity | constructor].
    - split; [vm_compute; reflexivity|].
      split; [vm_compute; reflexivity | constructor]. }
  assert (Hdate : ∀ at_,
    dateCompatible (localTZA host) (candidateInput (lectureLocals at_) lectureEvent)
      (storedInput (seriesStore 100 (lit "model-2")) seriesEvent)).
  { intros at_. apply sameDate_spec. vm_compute. reflexivity. }
  assert (Hloc : ∀ at_,
    locationCompatible (toLowerCase host)
      (candidateInput (lectureLocals at_) lectureEvent)
      (storedInput (seriesStore 100 (lit "model-2")) seriesEvent)).
  { intros at_. apply sameLocation_spec. vm_compute. reflexivity. }
  split.
  - apply (merge_tie_break host (answers (Extracted []) 9 9) (lectureLocals 50)
             (lit "series@mit") lectureEvent (seriesStore 100 (lit "model-2"))
             seriesIndex {| embeddings := 9; eventIds := [] |} (lit "Lecture Series")
             7 seriesEvent 100 eq_refl (Hreach 50) eq_refl eq_refl (Hdate 50) (Hloc 50)).
    vm_compute. discriminate.
  - apply (merge_tie_break host (answers (Extracted []) 9 9) (lectureLocals 200)
             (lit "series@mit") lectureEvent (seriesStore 100 (lit "model-2"))
             seriesIndex {| embeddings := 9; eventIds := [] |} (lit "Lecture Series")
             7 seriesEvent 100 eq_refl (Hreach 200) eq_refl eq_refl (Hdate 200)
             (Hloc 200)).
    + vm_compute. reflexivity.
    + eexists. vm_compute. reflexivity.
Defined.

(** The claim of C2 fails both ways.  The stored event's email was received
    at 100, before the candidate's at 200: the claim keeps the stored event,
    the code supersedes it.  The stored event's email was received at 100,
    after the candidate's at 50: the claim supersedes it, the code keeps
    it. *)
Lemma merge_tie_break_counterexample :
  (e_receivedAt (seriesEmail 100 (lit "model-2")) ≤ receivedAt (lectureLocals 200) ∧
   ∃ db' index',
     mergeOne host (answers (Extracted []) 9 9) (lectureLocals 200) (lit "series@mit")
       lectureEvent (seriesStore 100 (lit "model-2")) seriesIndex
     = (db', index', Ret (Supersede 7)) ∧
     event_findUnique 7 db'
     = Some {| ev_id := 7;
               ev_data := newEventData (lectureLocals 200) (lit "series@mit")
                            lectureEvent |}) ∧
  (receivedAt (lectureLocals 50) < e_receivedAt (seriesEmail 100 (lit "model-2")) ∧
   ∃ index',
     mergeOne host (answers (Extracted []) 9 9) (lectureLocals 50) (lit "series@mit")
       lectureEvent (seriesStore 100 (lit "model-2")) seriesIndex
     = (seriesStore 100 (lit "model-2"), index', Ret (KeepExisting 7))).
Proof.
  split; (split; [vm_compute; congruence || reflexivity|]).
  - do 2 eexists. split; vm_compute; reflexivity.
  - eexists. vm_compute. reflexivity.
Qed.

(** On this host the merge of the same candidate twice, from an empty
    index, inserts it once: the second turn finds the event of the first
    under the candidate's own title and keeps it. *)
Example merge_twice_inserts_once :
  ∃ db1 index1 index2,
    mergeOne host (answers (Extracted []) 9 9) (lectureLocals 100) (lit "series@mit")
      lectureEvent eventlessStore ∅
    = (db1, index1, Ret (Insert 1)) ∧
    mergeOne host (answers (Extracted []) 9 9) (lectureLocals 100) (lit "series@mit")
      lectureEvent db1 index1
    = (db1, index2, Ret (KeepExisting 1)) ∧
    getEmbedding (lit "Lecture") index2
    = Some {| embeddings := 9; eventIds := [1] |}.
Proof.
  do 3 eexists. split; [vm_compute; reflexivity|].
  split; vm_compute; reflexivity.
Qed.

(** C3, the failing input.  The index knows "Lecture Series" only.  The
    lecture mail is the earlier one: the decision is keep-existing, the
    store is as it was, and the index has gained the label "Lecture" of
    the dropped candidate, with no event id. *)
Lemma keep_existing_leaves_label_witness :
  seriesStore 100 (lit "model-2") = seriesStore 100 (lit "model-2") ∧
  upsertEmbedding host (x_title lectureEvent) 9 [] seriesIndex
  = upsertEmbedding host (x_title lectureEvent) 9 [] seriesIndex ∧
  is_Some (getEmbedding (x_title lectureEvent)
             (upsertEmbedding host (x_title lectureEvent) 9 [] seriesIndex)) ∧
  upsertEmbedding host (x_title lectureEvent) 9 [] seriesIndex ≠ seriesIndex.
Proof.
  apply (keep_existing_leaves_label host (answers (Extracted []) 9 9)
           (lectureLocals 50) (lit "series@mit") lectureEvent
           (seriesStore 100 (lit "model-2")) seriesIndex
           (seriesStore 100 (lit "model-2"))
           (upsertEmbedding host (x_title lectureEvent) 9 [] seriesIndex) 7).
  - vm_compute. reflexivity.
  - vm_compute. reflexivity.
Defined.

Example keep_existing_leaves_label_run :
  ∃ index',
    mergeOne host (answers (Extracted []) 9 9) (lectureLocals 50) (lit "series@mit")
      lectureEvent (seriesStore 100 (lit "model-2")) seriesIndex
    = (seriesStore 100 (lit "model-2"), index', Ret (KeepExisting 7)) ∧
    getEmbedding (lit "Lecture") seriesIndex = None ∧
    getEmbedding (lit "Lecture") index'
    = Some {| embeddings := 9; eventIds := [] |}.
Proof.
  eexists. split; [vm_compute; reflexivity|].
  split; vm_compute; reflexivity.
Qed.

(** ** The steps of a task *)

(** Case analysis on one step of the body: [H] is
    [body i t reply p s = (s', br)]. *)
Ltac body_cases H :=
  unfold body, start, walk, rootFound, mergeLoop, writing in H;
  repeat case_match; simplify_eq/=;
  repeat match goal with d : Decision |- _ => destruct d end;
  simpl in *.

Section StepFacts.
Variable X : Externals.
Variable scrapedBy : jsstring.


Lemma body_pcs i t reply p s s' br :
  body X scrapedBy i t reply p s = (s', br) → pcs s' = pcs s.
Proof. intros H. body_cases H; reflexivity. Qed.

Lemma email_findUnique_messageId m db e :
  email_findUnique m db = Some e → e_messageId e = m.
Proof.
  unfold email_findUnique. intros H. apply List.find_some in H as [_ H].
  now apply jsstring_eqb_eq.
Qed.

Lemma body_history i t reply p s s' br :
  body X scrapedBy i t reply p s = (s', br) →
  ∃ acts, history s' = acts ++ history s ∧ Forall (actOk X i t p br s) acts.
Proof.
  intros H. body_cases H.
  all: solve
    [ exists []; split; [reflexivity | constructor]
    | eexists [_]; split; [reflexivity|];
      repeat constructor; simpl; eauto;
      intros Hok; erewrite email_findUnique_messageId by eassumption; exact Hok
    | eexists [_; _]; split; [reflexivity|];
      repeat constructor; simpl; eauto ].
Qed.

Lemma body_next i t reply p s s' next :
  body X scrapedBy i t reply p s = (s', Continue next) →
  (phase p ≤ phase next ≤ 2)%nat ∧
  (pcOk t p → pcOk t next) ∧
  (∀ l r d, next = AwaitPrevDeferred l r d →
            ∃ m, history s' = Lookup i m (Some d) :: history s).
Proof.
  intros H. body_cases H.
  all: repeat split; try lia; try done; eauto.
  all: try (intros; erewrite email_findUnique_messageId by eassumption; done).
  all: intros ? ? ? ?; simplify_eq; eauto.
Qed.

Lemma body_registry i t reply p s s' br m a :
  body X scrapedBy i t reply p s = (s', br) →
  processingTasks s' !! m = Some a →
  processingTasks s !! m = Some a ∨ (a = i ∧ In (Register i m) (history s')).
Proof.
  intros H. body_cases H; auto.
  all: match goal with
       | |- <[?k := _]> _ !! _ = _ → _ =>
           destruct (decide (k = m)) as [->|Hne];
           [rewrite lookup_insert_eq; intros ?; simplify_eq; right; simpl; auto
           |rewrite lookup_insert_ne by done; auto]
       end.
Qed.

Lemma body_unawaited i t reply p s s' br x :
  body X scrapedBy i t reply p s = (s', br) →
  In x (unawaited s') →
  In x (unawaited s) ∨ (x.1 = i ∧ ∃ r, br = Return r).
Proof.
  intros H. body_cases H; auto.
  all: rewrite in_app_iff; simpl; intros [?|[<-|[]]]; eauto.
Qed.
End StepFacts.

(** ** The runs of the event loop *)

Section RunFacts.
Variable X : Externals.
Variable scrapedBy : jsstring.
Variable tasks : list Task.


Lemma resolved_In (s : State X) d :
  resolved X s d = true ↔ In (Resolve d) (history s).
Proof.
  unfold resolved. rewrite existsb_exists. split.
  - intros [[] [Hin H]]; simpl in H; try discriminate.
    apply Nat.eqb_eq in H as ->. exact Hin.
  - intros H. exists (Resolve d). split; [exact H | apply Nat.eqb_refl].
Qed.

Lemma processMailStep_taskStep i reply s s' :
  processMailStep X scrapedBy tasks i reply s = Some s' → taskStep X tasks i s s'.
Proof.
  unfold processMailStep. intros H.
  destruct (tasks !! i) as [t|] eqn:Ht; [|discriminate].
  destruct (pcs s !! i) as [p|] eqn:Hp; [|discriminate]. simpl in H.
  destruct (enabled X p s) eqn:He; [|discriminate]. injection H as <-.
  destruct (body X scrapedBy i t reply p s) as [s1 br] eqn:Hb.
  destruct (body_history _ _ _ _ _ _ _ _ _ Hb) as [acts [Hh Hacts]].
  pose proof (body_pcs _ _ _ _ _ _ _ _ _ Hb) as Hpcs.
  assert (Hreg : ∀ h', (∀ a, In a (history s1) → In a h') →
            ∀ m a, processingTasks s1 !! m = Some a →
                   processingTasks s !! m = Some a ∨ In (Register a m) h').
  { intros h' Hsub m a Hm.
    destruct (body_registry _ _ _ _ _ _ _ _ _ _ _ Hb Hm) as [?|[-> ?]]; auto. }
  assert (Hsame : ∀ a, In a (history s1) → In a (Resolve i :: history s1)).
  { intros a Ha. now right. }
  destruct br as [next| r |]; simpl.
  - destruct (body_next _ _ _ _ _ _ _ _ _ Hb) as [Hph [Hok _]].
    apply (TaskStep X tasks i s _ t p (Continue next) acts next);
      [exact Ht | exact Hp | exact He | exact Hacts | simpl .. ].
    + now rewrite Hpcs.
    + left. rewrite Hh. auto.
    + apply Hreg. auto.
    + intros x Hx.
      destruct (body_unawaited _ _ _ _ _ _ _ _ _ _ Hb Hx) as [?|[_ [r Hr]]];
        [auto | discriminate].
  - apply (TaskStep X tasks i s _ t p (Return r) acts (Exited (Some r)));
      [exact Ht | exact Hp | exact He | exact Hacts | simpl .. ].
    + now rewrite Hpcs.
    + right. rewrite Hh. repeat split; auto; discriminate.
    + apply (Hreg (Resolve i :: history s1)). exact Hsame.
    + intros x Hx.
      destruct (body_unawaited _ _ _ _ _ _ _ _ _ _ Hb Hx) as [?|[? _]]; auto.
  - apply (TaskStep X tasks i s _ t p Raise acts (Exited None));
      [exact Ht | exact Hp | exact He | exact Hacts | simpl .. ].
    + now rewrite Hpcs.
    + right. rewrite Hh. repeat split; auto; discriminate.
    + apply (Hreg (Resolve i :: history s1)). exact Hsame.
    + intros x Hx.
      destruct (body_unawaited _ _ _ _ _ _ _ _ _ _ Hb Hx) as [?|[_ [r Hr]]];
        [auto | discriminate].
Qed.

Lemma actOk_resolve i t p br s acts d :
  Forall (actOk X i t p br s) acts → ¬ In (Resolve d) acts.
Proof.
  intros H Hin. rewrite List.Forall_forall in H. exact (H _ Hin).
Qed.

Lemma actOk_resolveCount i t p br s acts d :
  Forall (actOk X i t p br s) acts → resolveCount d acts = 0%nat.
Proof.
  unfold resolveCount. induction 1 as [|a acts Ha _ IH]; [reflexivity|].
  simpl. destruct a; simpl in *; try exact IH. contradiction.
Qed.

Lemma resolveCount_app d h1 h2 :
  resolveCount d (h1 ++ h2) = (resolveCount d h1 + resolveCount d h2)%nat.
Proof. unfold resolveCount. now rewrite List.filter_app, length_app. Qed.

Lemma enabled_not_exited p s : enabled X p s = true → isExited p = false.
Proof. destruct p; simpl; congruence. Qed.

Lemma exited_phase p : isExited p = true ↔ phase p = 3%nat.
Proof. destruct p; simpl; split; congruence. Qed.

Lemma ordered_app i t p br s acts :
  runInv X tasks s → pcs s !! i = Some p →
  Forall (actOk X i t p br s) acts →
  ordered (acts ++ history s).
Proof.
  intros Hinv Hp. induction 1 as [|a acts Ha Hacts IH]; simpl.
  - apply Hinv.
  - split; [exact IH|].
    destruct a as [| j m f | j w | | |]; simpl in Ha; try exact I.
    + destruct Ha as (-> & Hph & _). intros w Hin.
      apply in_app_or in Hin as [Hin|Hin].
      * rewrite List.Forall_forall in Hacts. specialize (Hacts _ Hin).
        simpl in Hacts. destruct Hacts as [_ [?|?]]; [assumption | lia].
      * apply (inv_quiet _ _ _ Hinv i p w Hp); [lia | assumption].
    + destruct Ha as (-> & Hw). intros Hne m d Hin.
      destruct Hw as [?|Hph]; [contradiction|].
      apply in_app_or in Hin as [Hin|Hin].
      * rewrite List.Forall_forall in Hacts. specialize (Hacts _ Hin).
        simpl in Hacts. destruct Hacts as (_ & ? & _). lia.
      * destruct (inv_found _ _ _ Hinv i m d Hin) as [(l & r & Hq)|Hres].
        -- rewrite Hp in Hq. injection Hq as ->. simpl in Hph. lia.
        -- apply in_or_app. now right.
Qed.

Lemma taskStep_inv i s s' :
  runInv X tasks s → taskStep X tasks i s s' → runInv X tasks s'.
Proof.
  intros Hinv [t p br acts p' Ht Hp He Hacts Hpcs Hnext Hreg Hun].
  pose proof (lookup_lt_Some _ _ _ Hp) as Hlt.
  pose proof (enabled_not_exited _ _ He) as Hne.
  assert (Hp' : pcs s' !! i = Some p').
  { rewrite Hpcs. now apply list_lookup_insert_eq. }
  assert (Hother : ∀ b, b ≠ i → pcs s' !! b = pcs s !! b).
  { intros b Hb. rewrite Hpcs. now apply list_lookup_insert_ne. }
  assert (Hphase : (phase p ≤ phase p')%nat).
  { destruct Hnext as [(_ & ? & _) | (Hex & _)]; [lia|].
    apply exited_phase in Hex. destruct p; simpl in *; try lia; discriminate. }
  assert (Hmono : ∀ a, In a (history s) → In a (history s')).
  { intros a Ha. destruct Hnext as [(_ & _ & _ & ->) | (_ & _ & ->)].
    - apply in_or_app. now right.
    - right. apply in_or_app. now right. }
  assert (Hnew : ∀ a, In a (history s') →
                      a = Resolve i ∨ In a acts ∨ In a (history s)).
  { intros a Ha. destruct Hnext as [(_ & _ & _ & Hh) | (_ & _ & Hh)];
      rewrite Hh in Ha.
    - apply in_app_or in Ha. tauto.
    - destruct Ha as [<-|Ha]; [auto|]. apply in_app_or in Ha. tauto. }
  assert (HactOk : ∀ a, In a acts → actOk X i t p br s a).
  { now apply List.Forall_forall. }
  constructor.
  - rewrite Hpcs, length_insert. apply Hinv.
  - intros j. pose proof (inv_count _ _ _ Hinv j) as Hc.
    destruct Hnext as [(_ & Hph & _ & Hh) | (Hex & _ & Hh)]; rewrite Hh.
    + rewrite resolveCount_app, (actOk_resolveCount _ _ _ _ _ _ _ Hacts), Hc.
      destruct (decide (j = i)) as [->|Hji].
      * rewrite Hp', Hp. destruct p, p'; simpl in *; try lia; discriminate.
      * now rewrite Hother.
    + change (Resolve i :: acts ++ history s)
        with ([Resolve i] ++ acts ++ history s).
      rewrite !resolveCount_app, (actOk_resolveCount _ _ _ _ _ _ _ Hacts), Hc.
      unfold resolveCount. simpl.
      destruct (decide (j = i)) as [->|Hji].
      * rewrite Nat.eqb_refl, Hp', Hp.
        destruct p, p'; simpl in *; try discriminate; reflexivity.
      * rewrite Hother by done.
        destruct (Nat.eqb_spec i j); [congruence | reflexivity].
  - intros b q w Hq Hph Hin.
    destruct (Hnew _ Hin) as [? | [Ha | Hold]]; [discriminate| |].
    + destruct (HactOk _ Ha) as [-> [?|Hph2]]; [assumption|].
      rewrite Hp' in Hq. injection Hq as <-. lia.
    + destruct (decide (b = i)) as [->|Hb].
      * rewrite Hp' in Hq. injection Hq as <-.
        apply (inv_quiet _ _ _ Hinv i p w Hp); [lia | assumption].
      * rewrite Hother in Hq by done.
        apply (inv_quiet _ _ _ Hinv b q w Hq); assumption.
  - intros b m d Hin.
    destruct (Hnew _ Hin) as [? | [Ha | Hold]]; [discriminate| |].
    + destruct (HactOk _ Ha) as (-> & _ & _ & _ & l & r & Hbr).
      destruct Hnext as [(Hc & _) | (_ & Hnb & _)].
      * left. exists l, r. rewrite Hp'. congruence.
      * exfalso. exact (Hnb _ _ _ Hbr).
    + destruct (inv_found _ _ _ Hinv b m d Hold) as [(l & r & Hq)|Hres]; [|auto].
      destruct (decide (b = i)) as [->|Hb].
      * rewrite Hp in Hq. injection Hq as ->. simpl in He.
        right. apply Hmono. now apply resolved_In.
      * left. exists l, r. now rewrite Hother.
  - intros b m Hin. destruct (Hun _ Hin) as [Hold | [Hb Hex]].
    + destruct (inv_unawaited _ _ _ Hinv b m Hold) as [o Ho].
      exists o. rewrite Hother; [assumption|].
      intros ->. rewrite Hp in Ho. injection Ho as ->. discriminate.
    + simpl in Hb. subst b. destruct p'; try discriminate. eauto.
  - intros b t0 q Ht0 Hq. destruct (decide (b = i)) as [->|Hb].
    + rewrite Hp' in Hq. injection Hq as <-.
      rewrite Ht in Ht0. injection Ht0 as <-.
      destruct Hnext as [(_ & _ & Hok & _) | (Hex & _)].
      * apply Hok. exact (inv_pcOk _ _ _ Hinv i t p Ht Hp).
      * destruct p'; try discriminate. exact I.
    + rewrite Hother in Hq by done. exact (inv_pcOk _ _ _ Hinv b t0 q Ht0 Hq).
  - intros m a Hm. destruct (Hreg _ _ Hm) as [Hold|?]; [|assumption].
    apply Hmono. exact (inv_registry _ _ _ Hinv m a Hold).
  - intros a m Hin.
    destruct (Hnew _ Hin) as [? | [Ha | Hold]]; [discriminate| |].
    + destruct (HactOk _ Ha) as (-> & _ & Hm). eauto.
    + exact (inv_register _ _ _ Hinv a m Hold).
  - intros b m found Hin.
    destruct (Hnew _ Hin) as [? | [Ha | Hold]]; [discriminate| |].
    + destruct (HactOk _ Ha) as (-> & _ & _ & Hm & _).
      exists t. split; [assumption|]. apply Hm.
      exact (inv_pcOk _ _ _ Hinv i t p Ht Hp).
    + exact (inv_lookup _ _ _ Hinv b m found Hold).
  - pose proof (ordered_app i t p br s acts Hinv Hp Hacts) as Ho.
    destruct Hnext as [(_ & _ & _ & ->) | (_ & _ & ->)]; [exact Ho|].
    simpl. auto.
  - intros b m a Hin. apply Hmono.
    destruct (Hnew _ Hin) as [? | [Ha | Hold]]; [discriminate| |].
    + destruct (HactOk _ Ha) as (_ & _ & Hf & _).
      exact (inv_registry _ _ _ Hinv m a (eq_sym Hf)).
    + exact (inv_handle _ _ _ Hinv b m a Hold).
Qed.

Lemma settle_inv k ok s s' :
  runInv X tasks s → settle X k ok s = Some s' → runInv X tasks s'.
Proof.
  intros Hinv H. unfold settle in H.
  destruct (unawaited s !! k) as [[i m]|] eqn:Hk; [|discriminate]. simpl in H.
  assert (Hin : In (i, m) (unawaited s)).
  { apply list_elem_of_In. eapply list_elem_of_lookup_2. eassumption. }
  destruct (inv_unawaited _ _ _ Hinv i m Hin) as [o Ho].
  assert (Hsub : ∀ x, In x (delete k (unawaited s)) → In x (unawaited s)).
  { intros x Hx. apply list_elem_of_In. apply list_elem_of_In in Hx.
    eapply list_elem_of_delete_inv. exact Hx. }
  assert (Hquiet : runInv X tasks
            (setUnawaited X (delete k (unawaited s)) s)).
  { destruct Hinv. constructor; simpl; eauto. }
  assert (Hrejected : runInv X tasks
            (log X (UnhandledRejection i)
               (setUnawaited X (delete k (unawaited s)) s))).
  { destruct Hquiet. constructor; simpl in *; auto.
    - intros b p w Hp Hph [?|Hw]; [discriminate | eauto].
    - intros b m0 d [?|Hl]; [discriminate|].
      destruct (inv_found0 _ _ _ Hl); auto.
    - intros a m0 [?|Hr]; [discriminate | eauto].
    - intros b m0 found [?|Hl]; [discriminate | eauto].
    - intros b m0 a [?|Hl]; [discriminate | eauto]. }
  destruct ok; [|now injection H as <-].
  destruct (markProcessedByCurrentModel X m (store s)) as [db|];
    [|now injection H as <-].
  injection H as <-. destruct Hquiet. constructor; simpl in *; auto.
  - intros b p w Hp Hph [E|Hw]; [|eauto].
    injection E as <- <-. rewrite Ho in Hp. injection Hp as <-. simpl in Hph. lia.
  - intros b m0 d [?|Hl]; [discriminate|].
    destruct (inv_found0 _ _ _ Hl); auto.
  - intros a m0 [?|Hr]; [discriminate | eauto].
  - intros b m0 found [?|Hl]; [discriminate | eauto].
  - split; [assumption|]. intros _ m0 d Hl.
    destruct (inv_found0 _ _ _ Hl) as [(l & r & Hq)|?]; [|assumption].
    rewrite Ho in Hq. discriminate.
  - intros b m0 a [?|Hl]; [discriminate | eauto].
Qed.

Lemma initial_inv db index :
  runInv X tasks (initial X tasks db index).
Proof.
  constructor; simpl; try (intros; contradiction); auto.
  - apply length_replicate.
  - intros i. destruct (replicate (length tasks) NotStarted !! i) as [p|] eqn:E;
      [|reflexivity].
    apply lookup_replicate in E as [-> _]. reflexivity.
  - intros b t p _ Hp. apply lookup_replicate in Hp as [-> _]. exact I.
  - intros m a H. rewrite lookup_empty in H. discriminate.
Qed.

Lemma step_inv s s' : runInv X tasks s → step X scrapedBy tasks s s' → runInv X tasks s'.
Proof.
  intros Hinv Hstep. inversion Hstep as [i reply ? ? H | k ok ? ? H]; subst.
  - eapply taskStep_inv; [eassumption|].
    eapply processMailStep_taskStep. eassumption.
  - eapply settle_inv; eassumption.
Qed.

Lemma reachable_inv db index s :
  reachable X scrapedBy tasks db index s → runInv X tasks s.
Proof.
  unfold reachable. revert s. apply rtc_ind_r.
  - apply initial_inv.
  - intros s s' _ Hstep Hinv. eapply step_inv; eassumption.
Qed.

Lemma ordered_split h :
  ordered h →
  ∀ after before b w m d,
    h = after ++ Write b w :: before → w ≠ IgnoredEmailUpsert →
    In (Lookup b m (Some d)) h →
    In (Lookup b m (Some d)) before ∧ In (Resolve d) before.
Proof.
  intros Ho after. revert h Ho.
  induction after as [|a after IH]; intros h Ho before b w m d -> Hw Hin.
  - simpl in *. destruct Ho as [_ Ho]. destruct Hin as [?|Hin]; [discriminate|].
    split; [assumption | eauto].
  - simpl in Ho. destruct Ho as [Ho Ha]. destruct Hin as [->|Hin].
    + exfalso. apply Hw. apply Ha. apply in_or_app. right. now left.
    + eapply IH; eauto.
Qed.

Lemma processMail_reachable db index i replies s :
  reachable X scrapedBy tasks db index s → reachable X scrapedBy tasks db index (processMail X scrapedBy tasks i replies s).
Proof.
  revert s. induction replies as [|reply replies IH]; intros s Hs; simpl; [assumption|].
  destruct (processMailStep X scrapedBy tasks i reply s) as [s'|] eqn:E; [|assumption].
  apply IH. eapply rtc_r; [exact Hs|]. eapply step_task. exact E.
Qed.

(** C1 (amended).  In every run, a write of task [b] to the store other
    than a tombstone ([ignoredEmail.upsert]) comes after the [resolve()]
    of the deferred that [b] has found in [processingTasks] under its
    parent's id: the message upsert of a reply, and the writes that follow
    it, wait for the handle that was registered when the reply looked.
    That handle was registered under the id [m] by a task whose mail has
    the message id [m], and [m] is what [b]'s mail replies to. *)
Theorem reply_awaits_parent db index s after before b w m a :
  reachable X scrapedBy tasks db index s →
  history s = after ++ Write b w :: before →
  w ≠ IgnoredEmailUpsert →
  In (Lookup b m (Some a)) (history s) →
  In (Resolve a) before ∧
  In (Lookup b m (Some a)) before ∧
  ∃ tb ta, tasks !! b = Some tb ∧ tasks !! a = Some ta ∧
           p_inReplyTo (t_parsed tb) = Some m ∧
           p_messageId (t_parsed ta) = Some m.
Proof.
  intros Hs Hh Hw Hin. apply reachable_inv in Hs.
  destruct (ordered_split _ (inv_ordered _ _ _ Hs) _ _ _ _ _ _ Hh Hw Hin)
    as [Hl Hr].
  repeat split; try assumption.
  destruct (inv_lookup _ _ _ Hs _ _ _ Hin) as (tb & Htb & Hb).
  destruct (inv_register _ _ _ Hs _ _ (inv_handle _ _ _ Hs _ _ _ Hin))
    as (ta & Hta & Ha).
  exists tb, ta. auto.
Qed.

End RunFacts.

Example orderedRun_history :
  history orderedRun
  = [ Write 1 EmailUpsert; Resolve 0; Write 0 EmailUpdate;
      Lookup 1 (lit "a@mit") (Some 0%nat); Register 1 (lit "c@mit");
      Write 0 EmailUpsert; Register 0 (lit "a@mit") ].
Proof. vm_compute. reflexivity. Qed.

(** In the ordered run the follow-up is stored after the announcement has
    resolved its deferred. *)
Lemma reply_awaits_parent_witness :
  In (Resolve 0) (List.tl (history orderedRun)) ∧
  In (Lookup 1 (lit "a@mit") (Some 0%nat)) (List.tl (history orderedRun)) ∧
  ∃ tb ta, [announcement; followUp] !! 1%nat = Some tb ∧
           [announcement; followUp] !! 0%nat = Some ta ∧
           p_inReplyTo (t_parsed tb) = Some (lit "a@mit") ∧
           p_messageId (t_parsed ta) = Some (lit "a@mit").
Proof.
  apply (reply_awaits_parent host daemon [announcement; followUp] emptyStore ∅
           orderedRun [] (List.tl (history orderedRun)) 1 EmailUpsert
           (lit "a@mit") 0).
  - unfold orderedRun. repeat apply processMail_reachable. apply rtc_refl.
  - vm_compute. reflexivity.
  - discriminate.
  - vm_compute. do 3 right. left. reflexivity.
Defined.

(** The claim of C1 fails twice.  In [tombstoneRun] the reply writes its
    tombstone to the store while its parent, registered, has not resolved
    its deferred.  In [earlyRun] the reply is upserted before the task of
    the message it replies to has been constructed: it finds no handle and
    does not wait. *)
Lemma reply_awaits_parent_counterexample :
  (reachable host daemon [announcement; chatter] emptyStore ∅ tombstoneRun ∧
   p_inReplyTo (t_parsed chatter) = p_messageId (t_parsed announcement) ∧
   In (Register 0 (lit "a@mit")) (history tombstoneRun) ∧
   In (Write 1 IgnoredEmailUpsert) (history tombstoneRun) ∧
   ¬ In (Resolve 0) (history tombstoneRun)) ∧
  (reachable host daemon [followUp; secondCopy] announcedStore ∅ earlyRun ∧
   p_inReplyTo (t_parsed followUp) = p_messageId (t_parsed secondCopy) ∧
   pcs earlyRun !! 1%nat = Some NotStarted ∧
   In (Write 0 EmailUpsert) (history earlyRun) ∧
   ¬ In (Resolve 1) (history earlyRun)).
Proof.
  split.
  - split; [unfold tombstoneRun; repeat apply processMail_reachable; apply rtc_refl|].
    split; [reflexivity|].
    vm_compute. intuition congruence.
  - split; [unfold earlyRun; repeat apply processMail_reachable; apply rtc_refl|].
    split; [reflexivity|].
    vm_compute. intuition congruence.
Qed.


(** ** One call run on its own *)

Section CallFacts.
Variable X : Externals.
Variable scrapedBy : jsstring.
Variable tasks : list Task.


Lemma processMailStep_body i t p reply s :
  tasks !! i = Some t → pcs s !! i = Some p → enabled X p s = true →
  processMailStep X scrapedBy tasks i reply s = Some (finally X i (body X scrapedBy i t reply p s)).
Proof. intros Ht Hp He. unfold processMailStep. now rewrite Ht, Hp; simpl; rewrite He. Qed.

Lemma processMail_exited i o replies s :
  pcs s !! i = Some (Exited o) → processMail X scrapedBy tasks i replies s = s.
Proof.
  intros Hp. destruct replies as [|reply replies]; [reflexivity|].
  simpl. unfold processMailStep. rewrite Hp.
  destruct (tasks !! i); reflexivity.
Qed.

Lemma setPc_lookup i p (s : State X) q :
  pcs s !! i = Some q → pcs (setPc X i p s) !! i = Some p.
Proof.
  intros H. simpl. apply list_lookup_insert_eq. eapply lookup_lt_Some. eassumption.
Qed.

(** The walk up the reply chain ends at the missing ancestor. *)
Lemma walk_to_missing n : ∀ s i t l inReplyToEmail nextId replies,
  tasks !! i = Some t →
  pcs s !! i = Some (AwaitFindNextRoot l inReplyToEmail nextId) →
  missingAncestor (store s) n nextId →
  Forall succeeds replies → (n < length replies)%nat →
  outcome X i (processMail X scrapedBy tasks i replies s) = Some (Some DORMSPAM_BUT_ROOT_NOT_IN_DB) ∧
  store (processMail X scrapedBy tasks i replies s) = store s ∧
  vectordb (processMail X scrapedBy tasks i replies s) = vectordb s ∧
  unawaited (processMail X scrapedBy tasks i replies s) = unawaited s.
Proof.
  induction n as [|n IH]; intros s i t l e0 nextId replies Ht Hp Hmiss Hok Hlen.
  all: destruct replies as [|reply replies]; [simpl in Hlen; lia|].
  all: apply Forall_cons in Hok as [Hr Hok]; unfold succeeds in Hr.
  all: simpl; rewrite (processMailStep_body i t _ reply s Ht Hp eq_refl).
  all: simpl in Hmiss; cbn [body]; rewrite Hr.
  all: destruct (email_findUnique nextId (store s)) as [e|] eqn:Ef.
  all: try (destruct (e_inReplyToId e) as [next|] eqn:En; [|contradiction]).
  all: try contradiction.
  - simpl. erewrite processMail_exited by (eapply setPc_lookup; simpl; eassumption).
    unfold outcome. erewrite setPc_lookup by (simpl; eassumption). auto.
  - unfold walk. rewrite En. simpl finally.
    destruct (IH (setPc X i (AwaitFindNextRoot l e0 next) s) i t l e0 next replies)
      as (Ho & Hs & Hv & Hu); auto.
    + eapply setPc_lookup; eassumption.
    + simpl in Hlen. lia.
  - simpl. erewrite processMail_exited by (eapply setPc_lookup; simpl; eassumption).
    unfold outcome. erewrite setPc_lookup by (simpl; eassumption). auto.
Qed.

(** A reply that passes validation, the identity check and the classifier,
    and whose reply chain leads to an id that is not stored, run with store
    calls that succeed: the call returns DORMSPAM_BUT_ROOT_NOT_IN_DB and
    leaves the store, the index and the unawaited calls as they were, so a
    later run that has not seen its uid fetches it again. *)
Lemma reply_to_missing_root i t s mid parentId n replies user allUids :
  tasks !! i = Some t →
  pcs s !! i = Some NotStarted →
  passesChecks X (store s) t mid →
  p_inReplyTo (t_parsed t) = Some parentId →
  missingAncestor (store s) n parentId →
  Forall succeeds replies → (n + 3 ≤ length replies)%nat →
  outcome X i (processMail X scrapedBy tasks i replies s) = Some (Some DORMSPAM_BUT_ROOT_NOT_IN_DB) ∧
  store (processMail X scrapedBy tasks i replies s) = store s ∧
  vectordb (processMail X scrapedBy tasks i replies s) = vectordb s ∧
  unawaited (processMail X scrapedBy tasks i replies s) = unawaited s ∧
  (In (t_uid t) (mailboxUids X user allUids (store s)) →
   In (t_uid t) (mailboxUids X user allUids (store (processMail X scrapedBy tasks i replies s)))).
Proof.
  intros Ht Hp (sender & others & address & html & subject & Hmid & Hfrom
                & Haddr & Hhtml & Hne & Hsubj & Huid & Hspam) Hreply Hmiss Hok Hlen.
  assert (Hgoal :
    outcome X i (processMail X scrapedBy tasks i replies s) = Some (Some DORMSPAM_BUT_ROOT_NOT_IN_DB) ∧
    store (processMail X scrapedBy tasks i replies s) = store s ∧
    vectordb (processMail X scrapedBy tasks i replies s) = vectordb s ∧
    unawaited (processMail X scrapedBy tasks i replies s) = unawaited s);
    [|destruct Hgoal as (? & Hs & ? & ?); rewrite Hs; auto].
  destruct replies as [|r1 [|r2 [|r3 replies]]]; simpl in Hlen; try lia.
  apply Forall_cons in Hok as [_ Hok].
  apply Forall_cons in Hok as [Hr2 Hok].
  pose proof Hok as Hok3. apply Forall_cons in Hok3 as [Hr3 _].
  unfold succeeds in Hr2, Hr3.
  (* the synchronous start *)
  cbn [processMail]. rewrite (processMailStep_body i t _ r1 s Ht Hp eq_refl).
  cbn [body]. unfold start. rewrite Hmid, Hfrom, Haddr, Hhtml, Hsubj.
  destruct html as [|c html']; [congruence|]. cbn [finally].
  set (s1 := setPc X i _ _).
  assert (Hp1 : pcs s1 !! i =
                Some (AwaitFindSelf mid address (ea_name sender) (c :: html') subject)).
  { eapply setPc_lookup. simpl. eassumption. }
  assert (Hs1 : store s1 = store s) by reflexivity.
  (* the identity check and the classifier *)
  rewrite (processMailStep_body i t _ r2 s1 Ht Hp1 eq_refl).
  cbn [body]. rewrite Hr2, Hs1.
  replace (match email_findUnique mid (store s) with
           | Some e => negb (e_uid e =? t_uid t)
           | None => false
           end) with false
    by (destruct (email_findUnique mid (store s)) as [e|] eqn:E;
        [rewrite (Huid e eq_refl), Z.eqb_refl|]; reflexivity).
  rewrite Hspam, Hreply. cbn [negb finally].
  set (l := {| messageId := mid |}).
  set (s2 := setPc X i _ _).
  assert (Hp2 : pcs s2 !! i = Some (AwaitFindParent l parentId)).
  { eapply setPc_lookup. eassumption. }
  assert (Hs2 : store s2 = store s) by reflexivity.
  (* the lookup of the parent *)
  change (processMail X scrapedBy tasks i (r3 :: replies) s2)
    with (processMail X scrapedBy tasks i (r3 :: replies) s2).
  cut (outcome X i (processMail X scrapedBy tasks i (r3 :: replies) s2)
         = Some (Some DORMSPAM_BUT_ROOT_NOT_IN_DB) ∧
       store (processMail X scrapedBy tasks i (r3 :: replies) s2) = store s2 ∧
       vectordb (processMail X scrapedBy tasks i (r3 :: replies) s2) = vectordb s2 ∧
       unawaited (processMail X scrapedBy tasks i (r3 :: replies) s2) = unawaited s2); [tauto|].
  cbn [processMail]. rewrite (processMailStep_body i t _ r3 s2 Ht Hp2 eq_refl).
  cbn [body]. rewrite Hr3, Hs2.
  destruct n as [|n]; simpl in Hmiss;
    destruct (email_findUnique parentId (store s)) as [e|] eqn:Ef;
    try contradiction;
    try (destruct (e_inReplyToId e) as [next|] eqn:En; [|contradiction]).
  - cbn [finally]. erewrite processMail_exited by (eapply setPc_lookup; simpl; eassumption).
    unfold outcome. erewrite setPc_lookup by (simpl; eassumption). auto.
  - unfold walk. rewrite En. cbn [finally].
    destruct (walk_to_missing n (setPc X i (AwaitFindNextRoot l e next) s2)
                i t l e next replies) as (Ho & Hs & Hv & Hu); auto.
    + eapply setPc_lookup; eassumption.
    + apply Forall_cons in Hok as [_ Hok]. exact Hok.
    + simpl in Hlen. lia.
  - cbn [finally]. erewrite processMail_exited by (eapply setPc_lookup; simpl; eassumption).
    unfold outcome. erewrite setPc_lookup by (simpl; eassumption). auto.
Qed.

Lemma find_filter_none {A} (f : A → bool) (l : list A) :
  List.find f (List.filter (λ x, negb (f x)) l) = None.
Proof.
  induction l as [|x l IH]; simpl; [reflexivity|].
  destruct (f x) eqn:E; simpl; [exact IH|]. now rewrite E.
Qed.

(** C4 (amended).  A call that finds an event anchored at its root whose
    email is not at the current model: its next two steps delete every
    event anchored at the root, and only those, and bring it to the call
    of the extraction oracle.  The emails are as they were, and so is the
    embedding index: the deletion does not touch it, the ids of the
    deleted events stay in its metadata. *)
Theorem stale_events_deleted i t s l rootMessageId r1 r2 existing :
  tasks !! i = Some t →
  pcs s !! i = Some (AwaitFindExisting l rootMessageId) →
  succeeds r1 → succeeds r2 →
  event_findFirst rootMessageId (store s) = Some existing →
  (∀ e, email_findUnique rootMessageId (store s) = Some e →
        e_modelName e ≠ CURRENT_MODEL_NAME X) →
  pcs (processMail X scrapedBy tasks i [r1; r2] s) !! i = Some (AwaitExtract l rootMessageId) ∧
  events (store (processMail X scrapedBy tasks i [r1; r2] s))
  = List.filter (λ ev, negb (anchoredAt rootMessageId ev)) (events (store s)) ∧
  event_findFirst rootMessageId (store (processMail X scrapedBy tasks i [r1; r2] s)) = None ∧
  emails (store (processMail X scrapedBy tasks i [r1; r2] s)) = emails (store s) ∧
  vectordb (processMail X scrapedBy tasks i [r1; r2] s) = vectordb s.
Proof.
  intros Ht Hp Hr1 Hr2 Hex Hold. unfold succeeds in *.
  cbn [processMail]. rewrite (processMailStep_body i t _ r1 s Ht Hp eq_refl).
  cbn [body]. rewrite Hr1, Hex.
  assert (Hanchor : d_fromEmailId (ev_data existing) = Some rootMessageId).
  { unfold event_findFirst in Hex. apply List.find_some in Hex as [_ Hex].
    unfold anchoredAt in Hex.
    destruct (d_fromEmailId (ev_data existing)) as [m|]; [|discriminate].
    apply jsstring_eqb_eq in Hex. now subst. }
  rewrite Hanchor. simpl mbind.
  rewrite bool_decide_eq_false_2; cycle 1.
  { destruct (email_findUnique rootMessageId (store s)) as [e|] eqn:Ef; simpl;
      [|discriminate].
    intros H. injection H as H. exact (Hold e eq_refl H). }
  cbn [finally]. set (s1 := setPc X i _ _).
  assert (Hp1 : pcs s1 !! i = Some (AwaitDeleteMany l rootMessageId)).
  { eapply setPc_lookup. eassumption. }
  rewrite (processMailStep_body i t _ r2 s1 Ht Hp1 eq_refl).
  cbn [body]. rewrite Hr2. cbn [finally].
  split; [eapply setPc_lookup; simpl; eassumption|].
  simpl. repeat split; try reflexivity.
  unfold event_findFirst. simpl. apply find_filter_none.
Qed.

Lemma PROCESSING_not_current : PROCESSING X ≠ CURRENT_MODEL_NAME X.
Proof.
  unfold PROCESSING. intros H. apply (f_equal length) in H.
  rewrite length_app in H. vm_compute (length (lit "_PROCESSING")) in H. lia.
Qed.

Lemma email_updateModelName_found m name db db' :
  email_updateModelName m name db = Ret db' →
  ∃ e, email_findUnique m db' = Some e ∧ e_modelName e = name ∧
       events db' = events db.
Proof.
  unfold email_updateModelName, email_findUnique.
  destruct (List.find _ (emails db)) as [old|] eqn:Ef; [|discriminate].
  intros H. injection H as <-. simpl.
  exists (setModelName name old). repeat split.
  revert Ef. induction (emails db) as [|x l IH]; simpl; [discriminate|].
  destruct (jsstring_eqb (e_messageId x) m) eqn:E; simpl.
  - intros H. injection H as ->. now rewrite E.
  - rewrite E. exact IH.
Qed.

Lemma email_upsert_found new name processing db db' :
  e_modelName new = processing →
  email_upsert new name processing db = Ret db' →
  ∃ e, email_findUnique (e_messageId new) db' = Some e ∧
       e_modelName e = processing.
Proof.
  intros Hm. unfold email_upsert.
  destruct (email_findUnique (e_messageId new) db) as [old|] eqn:Ef.
  - intros H. apply email_updateModelName_found in H as (e & ? & ? & _). eauto.
  - destruct (connects (e_inReplyToId new) db); [|discriminate].
    intros H. injection H as <-. exists new. split; [|assumption].
    unfold email_findUnique in *. simpl. clear -Ef.
    induction (emails db) as [|x l IH]; simpl in *.
    + unfold jsstring_eqb. now rewrite bool_decide_eq_true_2.
    + destruct (jsstring_eqb (e_messageId x) (e_messageId new));
        [discriminate | auto].
Qed.

Lemma mergeOne_emails reply l rootMessageId event db index db' index' merged :
  mergeOne X reply l rootMessageId event db index = (db', index', merged) →
  emails db' = emails db.
Proof.
  unfold mergeOne. cbv zeta.
  destruct (getEmbedding _ _) as [own|]; [|intros H; now injection H as <- _ _].
  destruct (scanNeighbors X db _ _ _) as [[[[[title object] eventId] [|]]|]|].
  - intros H. now injection H as <- _ _.
  - unfold event_update.
    destruct (event_findUnique eventId db); [destruct (connects _ db)|];
      intros H; now injection H as <- _ _.
  - unfold event_create.
    destruct (connects _ db); intros H; now injection H as <- _ _.
  - intros H. now injection H as <- _ _.
Qed.

Lemma body_onTrack i t reply p s s' br :
  body X scrapedBy i t reply p s = (s', br) →
  onTrack X t i p s →
  match br with
  | Continue next => onTrack X t i next s'
  | Return DORMSPAM_WITH_EVENT => onTrack X t i (Exited (Some DORMSPAM_WITH_EVENT)) s'
  | _ => True
  end.
Proof.
  intros H. body_cases H; intros Htr; try done; try tauto.
  all: repeat match goal with
       | H : _ ∧ _ |- _ => destruct H
       | H : ∃ _, _ |- _ => destruct H
       end.
  all: try match goal with
       | H : email_upsert _ _ _ _ = Ret _ |- _ =>
           apply email_upsert_found in H as (? & ? & ?); [|reflexivity]
       end.
  all: try match goal with
       | H : mergeOne _ _ _ _ _ _ _ = _ |- _ =>
           apply mergeOne_emails in H
       end.
  all: unfold email_findUnique in *; simpl in *.
  all: repeat match goal with
       | H : emails _ = emails _ |- _ => rewrite H
       end.
  all: eauto 10 using in_or_app, in_eq.
Qed.

Lemma processMailStep_onTrack i t p reply s s' :
  tasks !! i = Some t → pcs s !! i = Some p →
  processMailStep X scrapedBy tasks i reply s = Some s' →
  onTrack X t i p s →
  ∃ p', pcs s' !! i = Some p' ∧ onTrack X t i p' s'.
Proof.
  intros Ht Hp He Htr. unfold processMailStep in He.
  rewrite Ht, Hp in He. simpl in He.
  destruct (enabled X p s); [|discriminate]. injection He as <-.
  destruct (body X scrapedBy i t reply p s) as [s1 br] eqn:Hb.
  pose proof (body_onTrack _ _ _ _ _ _ _ Hb Htr) as Hnext.
  pose proof (body_pcs _ _ _ _ _ _ _ _ _ Hb) as Hpcs.
  assert (Hp1 : pcs s1 !! i = Some p) by now rewrite Hpcs.
  destruct br as [next|r|]; cbn [finally].
  - exists next. split; [eapply setPc_lookup; eassumption | exact Hnext].
  - exists (Exited (Some r)).
    split; [eapply setPc_lookup; simpl; eassumption|].
    destruct r; try exact I. exact Hnext.
  - exists (Exited None).
    split; [eapply setPc_lookup; simpl; eassumption | exact I].
Qed.

Lemma processMail_onTrack i t replies : ∀ s p,
  tasks !! i = Some t → pcs s !! i = Some p →
  onTrack X t i p s →
  ∃ p', pcs (processMail X scrapedBy tasks i replies s) !! i = Some p' ∧
        onTrack X t i p' (processMail X scrapedBy tasks i replies s).
Proof.
  induction replies as [|reply replies IH]; intros s p Ht Hp Htr; simpl; [eauto|].
  destruct (processMailStep X scrapedBy tasks i reply s) as [s'|] eqn:He; [|eauto].
  destruct (processMailStep_onTrack _ _ _ _ _ _ Ht Hp He Htr) as (p' & Hp' & Htr').
  eauto.
Qed.

(** The unawaited update fails: the call leaves the list of the calls in
    flight and its rejection is recorded; nothing else changes. *)
Lemma settle_rejected k i mid s :
  unawaited s !! k = Some (i, mid) →
  ∃ s'', settle X k false s = Some s'' ∧
         store s'' = store s ∧ vectordb s'' = vectordb s ∧ pcs s'' = pcs s ∧
         unawaited s'' = delete k (unawaited s) ∧
         history s'' = UnhandledRejection i :: history s.
Proof.
  intros Hk. unfold settle. rewrite Hk. simpl. eexists. split; [reflexivity|].
  repeat split.
Qed.

(** A call in flight settles, one way or the other. *)
Lemma settle_is_Some k ok i mid s :
  unawaited s !! k = Some (i, mid) → is_Some (settle X k ok s).
Proof.
  intros Hk. unfold settle. rewrite Hk. simpl.
  destruct ok; [destruct (markProcessedByCurrentModel X mid (store s))|]; eauto.
Qed.

(** C10.  A call that returns DORMSPAM_WITH_EVENT returns while its call
    of [markProcessedByCurrentModel()] is still in flight, unawaited: when
    the outcome is known the mail is stored with the status "processing",
    which is not the current model name.  If that last update then fails,
    the store stays as it is and the outcome stays DORMSPAM_WITH_EVENT, but
    the failure is not dropped in silence: the promise of the call is
    rejected with no handler, an unhandled rejection of the process. *)
Theorem success_before_marked i t s replies :
  tasks !! i = Some t →
  pcs s !! i = Some NotStarted →
  outcome X i (processMail X scrapedBy tasks i replies s) = Some (Some DORMSPAM_WITH_EVENT) →
  ∃ mid e k,
    p_messageId (t_parsed t) = Some mid ∧
    email_findUnique mid (store (processMail X scrapedBy tasks i replies s)) = Some e ∧
    e_modelName e = PROCESSING X ∧
    e_modelName e ≠ CURRENT_MODEL_NAME X ∧
    unawaited (processMail X scrapedBy tasks i replies s) !! k = Some (i, mid) ∧
    ∀ k', unawaited (processMail X scrapedBy tasks i replies s) !! k' = Some (i, mid) →
      ∃ s'', settle X k' false (processMail X scrapedBy tasks i replies s) = Some s'' ∧
             store s'' = store (processMail X scrapedBy tasks i replies s) ∧
             outcome X i s'' = Some (Some DORMSPAM_WITH_EVENT) ∧
             history s''
             = UnhandledRejection i
               :: history (processMail X scrapedBy tasks i replies s).
Proof.
  intros Ht Hp Hout.
  destruct (processMail_onTrack i t replies s NotStarted Ht Hp I) as (p' & Hp' & Htr).
  unfold outcome in Hout. rewrite Hp' in Hout.
  destruct p' as [| | | | | | | | | | | |o]; try discriminate.
  injection Hout as ->. simpl in Htr.
  destruct Htr as (mid & e & Hmid & He & Hm & Hin).
  apply list_elem_of_In, list_elem_of_lookup_1 in Hin as [k Hk].
  exists mid, e, k. repeat split; auto.
  - rewrite Hm. apply PROCESSING_not_current.
  - intros k' Hk'.
    destruct (settle_rejected k' i mid _ Hk') as (s'' & Hs & Hstore & _ & Hpcs & _ & Hh).
    exists s''. repeat split; auto.
    unfold outcome. now rewrite Hpcs, Hp'.
Qed.

(** X16.  The test of the required fields, on every mail.  A mail that
    the test finds malformed (no message id; no [from]; or a first sender
    in [from.value] and no address for it, no or empty body, or no subject)
    is tombstoned and the call returns MALFORMED_EMAIL: the ledger gets its
    uid and nothing else of the store changes.  A mail with a message id
    whose [from.value] is empty is not tombstoned, whatever else it lacks:
    the test throws, the call is rejected and the store is as it was.  Any
    other mail has all the fields and the call goes on to look up its
    message id, with the store as it was. *)
Lemma malformed_tombstoned i t s r1 r2 :
  tasks !! i = Some t →
  pcs s !! i = Some NotStarted →
  (foundMalformed t ∨ testThrows t ∨
   ∃ messageId sender address html subject,
     wellFormed t messageId sender address html subject) ∧
  (foundMalformed t → succeeds r2 →
   outcome X i (processMail X scrapedBy tasks i [r1; r2] s)
   = Some (Some MALFORMED_EMAIL) ∧
   store (processMail X scrapedBy tasks i [r1; r2] s)
   = ignoreThisEmailForever scrapedBy t (store s)) ∧
  (testThrows t →
   outcome X i (processMail X scrapedBy tasks i [r1; r2] s) = Some None ∧
   store (processMail X scrapedBy tasks i [r1; r2] s) = store s) ∧
  (∀ messageId sender address html subject,
     wellFormed t messageId sender address html subject →
     pcs (processMail X scrapedBy tasks i [r1] s) !! i
     = Some (AwaitFindSelf messageId address (ea_name sender) html subject) ∧
     store (processMail X scrapedBy tasks i [r1] s) = store s).
Proof.
  intros Ht Hp. split; [|split; [|split]].
  - unfold foundMalformed, testThrows, wellFormed.
    destruct (p_messageId (t_parsed t)) as [messageId|]; [|auto].
    destruct (p_from (t_parsed t)) as [[|sender others]|]; [eauto | |auto].
    destruct (ea_address sender) as [address|] eqn:Ea; [|left; eauto 10].
    destruct (p_html (t_parsed t)) as [[|c html]|]; [left; eauto 10 | |left; eauto 10].
    destruct (p_subject (t_parsed t)) as [subject|]; [|left; eauto 10].
    right. right. exists messageId, sender, address, (c :: html), subject.
    repeat split; eauto; discriminate.
  - intros Hlack Hr2. unfold succeeds in Hr2.
    cbn [processMail]. rewrite (processMailStep_body i t _ r1 s Ht Hp eq_refl).
    cbn [body].
    assert (Hstart : ∃ s1, start X i t s = (s1, Continue (AwaitIgnore MALFORMED_EMAIL))
                           ∧ store s1 = store s ∧ pcs s1 = pcs s).
    { unfold start.
      destruct Hlack as [H | [H | (sender & others & H & Hmore)]].
      - rewrite H. eauto.
      - destruct (p_messageId (t_parsed t)); rewrite ?H; eauto.
      - destruct (p_messageId (t_parsed t)); [|eauto]. rewrite H.
        destruct (ea_address sender); [|eauto].
        destruct Hmore as [? | [Hh | [Hh | Hs]]]; [discriminate | | |].
        + rewrite Hh. eauto.
        + rewrite Hh. eauto.
        + destruct (p_html (t_parsed t)) as [[|c h]|]; rewrite ?Hs; eauto. }
    destruct Hstart as (s1 & -> & Hs1 & Hpcs1). cbn [finally].
    set (s2 := setPc X i _ s1).
    assert (Hp2 : pcs s2 !! i = Some (AwaitIgnore MALFORMED_EMAIL)).
    { eapply setPc_lookup. rewrite Hpcs1. eassumption. }
    rewrite (processMailStep_body i t _ r2 s2 Ht Hp2 eq_refl).
    cbn [body]. rewrite Hr2. cbn [finally]. split.
    + unfold outcome. erewrite setPc_lookup by (simpl; exact Hp2).
      reflexivity.
    + simpl. now rewrite Hs1.
  - intros [[messageId Hid] Hfrom].
    cbn [processMail]. rewrite (processMailStep_body i t _ r1 s Ht Hp eq_refl).
    cbn [body]. unfold start. rewrite Hid, Hfrom. cbn [finally].
    set (s1 := log X (Register i messageId) _).
    assert (Hp1 : pcs (log X (Resolve i) s1) !! i = Some NotStarted) by exact Hp.
    set (s2 := setPc X i (Exited None) (log X (Resolve i) s1)).
    assert (Hp2 : pcs s2 !! i = Some (Exited None)).
    { eapply setPc_lookup. exact Hp1. }
    assert (Hstop : processMailStep X scrapedBy tasks i r2 s2 = None).
    { unfold processMailStep. rewrite Ht, Hp2. reflexivity. }
    rewrite Hstop. split; [|reflexivity].
    unfold outcome. now rewrite Hp2.
  - intros messageId sender address html subject
           (Hid & [others Hfrom] & Ha & Hh & Hne & Hs).
    cbn [processMail]. rewrite (processMailStep_body i t _ r1 s Ht Hp eq_refl).
    cbn [body]. unfold start. rewrite Hid, Hfrom, Ha, Hh, Hs.
    destruct html as [|c html]; [congruence|]. cbn [finally].
    split; [|reflexivity].
    eapply setPc_lookup. exact Hp.
Qed.

(** X17.  A mail whose message id is stored under another uid is tombstoned
    and the call returns MALFORMED_EMAIL: the ledger gets the uid of the
    mail, the stored email is left alone. *)
Lemma conflicting_tombstoned i t s mid sender others address html subject e r1 r2 r3 :
  tasks !! i = Some t →
  pcs s !! i = Some NotStarted →
  p_messageId (t_parsed t) = Some mid →
  p_from (t_parsed t) = Some (sender :: others) →
  ea_address sender = Some address →
  p_html (t_parsed t) = Some html → html ≠ [] →
  p_subject (t_parsed t) = Some subject →
  email_findUnique mid (store s) = Some e → e_uid e ≠ t_uid t →
  succeeds r2 → succeeds r3 →
  outcome X i (processMail X scrapedBy tasks i [r1; r2; r3] s) = Some (Some MALFORMED_EMAIL) ∧
  store (processMail X scrapedBy tasks i [r1; r2; r3] s)
  = ignoreThisEmailForever scrapedBy t (store s).
Proof.
  intros Ht Hp Hmid Hfrom Haddr Hhtml Hne Hsubj Hfind Huid Hr2 Hr3.
  unfold succeeds in *.
  cbn [processMail]. rewrite (processMailStep_body i t _ r1 s Ht Hp eq_refl).
  cbn [body]. unfold start. rewrite Hmid, Hfrom, Haddr, Hhtml, Hsubj.
  destruct html as [|c html']; [congruence|]. cbn [finally].
  set (s1 := setPc X i _ _).
  assert (Hp1 : pcs s1 !! i =
                Some (AwaitFindSelf mid address (ea_name sender) (c :: html') subject)).
  { eapply setPc_lookup. simpl. eassumption. }
  rewrite (processMailStep_body i t _ r2 s1 Ht Hp1 eq_refl).
  cbn [body]. rewrite Hr2.
  change (store s1) with (store s). rewrite Hfind.
  apply Z.eqb_neq in Huid. rewrite Huid. cbn [negb finally].
  set (s2 := setPc X i _ s1).
  assert (Hp2 : pcs s2 !! i = Some (AwaitIgnore MALFORMED_EMAIL)).
  { eapply setPc_lookup. eassumption. }
  rewrite (processMailStep_body i t _ r3 s2 Ht Hp2 eq_refl).
  cbn [body]. rewrite Hr3. cbn [finally]. split; [|reflexivity].
  unfold outcome. erewrite setPc_lookup by (simpl; exact Hp2). reflexivity.
Qed.

Lemma processMail_pcs_other i j replies : ∀ s,
  j ≠ i → pcs (processMail X scrapedBy tasks i replies s) !! j = pcs s !! j.
Proof.
  induction replies as [|reply replies IH]; intros s Hj; simpl; [reflexivity|].
  destruct (processMailStep X scrapedBy tasks i reply s) as [s'|] eqn:He; [|reflexivity].
  rewrite IH by assumption.
  apply processMailStep_taskStep in He as [? ? ? ? ? _ _ _ _ Hpcs _ _ _].
  rewrite Hpcs. now apply list_lookup_insert_ne.
Qed.

Lemma runInTurn_pcs_other order j replies : ∀ s,
  ¬ In j order →
  pcs (runInTurn X scrapedBy tasks order replies s) !! j = pcs s !! j.
Proof.
  induction order as [|i order IH]; intros s Hj; simpl; [reflexivity|].
  unfold runInTurn in *. simpl.
  rewrite IH by (intros H; apply Hj; now right).
  apply processMail_pcs_other. intros ->. apply Hj. now left.
Qed.

(** C7 (amended).  Replies that each pass validation, the identity check
    and the classifier, and each have in their reply chain an id that is not
    stored, run one after the other with store calls that succeed: every
    one of them returns DORMSPAM_BUT_ROOT_NOT_IN_DB, and the store is left
    as it was.  No tombstone is written and no reply is stored or marked,
    so each is fetched again by a later run, and the next reply of a chain
    still misses its parent.  (One reply is the case of one task.) *)
Theorem root_not_in_db order : ∀ s replies,
  List.NoDup order → Forall succeeds replies →
  (∀ i, In i order →
     ∃ t mid parentId n,
       tasks !! i = Some t ∧ pcs s !! i = Some NotStarted ∧
       passesChecks X (store s) t mid ∧
       p_inReplyTo (t_parsed t) = Some parentId ∧
       missingAncestor (store s) n parentId ∧ (n + 3 ≤ length replies)%nat) →
  store (runInTurn X scrapedBy tasks order replies s) = store s ∧
  ∀ i, In i order →
       outcome X i (runInTurn X scrapedBy tasks order replies s)
       = Some (Some DORMSPAM_BUT_ROOT_NOT_IN_DB).
Proof.
  induction order as [|i order IH]; intros s replies Hnd Hok Hall.
  - split; [reflexivity | intros i []].
  - apply List.NoDup_cons_iff in Hnd as [Hi Hnd].
    destruct (Hall i (or_introl eq_refl))
      as (t & mid & parentId & n & Ht & Hp & Hc & Hr & Hm & Hn).
    destruct (reply_to_missing_root i t s mid parentId n replies [] []
                Ht Hp Hc Hr Hm Hok Hn) as (Hout & Hstore & _).
    change (runInTurn X scrapedBy tasks (i :: order) replies s)
      with (runInTurn X scrapedBy tasks order replies
              (processMail X scrapedBy tasks i replies s)).
    destruct (IH (processMail X scrapedBy tasks i replies s) replies Hnd Hok) as [Hs Ho].
    { intros j Hj.
      destruct (Hall j (or_intror Hj))
        as (tj & midj & pj & nj & Htj & Hpj & Hcj & Hrj & Hmj & Hnj).
      exists tj, midj, pj, nj. rewrite Hstore.
      rewrite processMail_pcs_other by (intros ->; contradiction). auto 10. }
    split; [now rewrite Hs|].
    intros j [<-|Hj]; [|auto].
    unfold outcome in *. now rewrite runInTurn_pcs_other.
Qed.
End CallFacts.

(** ** The ledger of ignored mails and the uids of a later run *)

Lemma ignoredEmail_upsert_has scrapedBy uid receivedAt db :
  ignoredHas scrapedBy uid (ignoredEmail_upsert scrapedBy uid receivedAt db) = true.
Proof.
  unfold ignoredEmail_upsert.
  destruct (ignoredHas scrapedBy uid db) eqn:E; [exact E|].
  unfold ignoredHas. simpl. rewrite existsb_app. simpl.
  unfold jsstring_eqb. rewrite bool_decide_eq_true_2 by reflexivity.
  rewrite Z.eqb_refl. apply orb_true_r.
Qed.

(** X29.  The upsert of the ledger is idempotent: a second tombstone for
    the same user and uid changes nothing, whatever its time of receipt
    ([update: {}]); the row keeps the time of the first. *)
Lemma ignoredEmail_upsert_idempotent scrapedBy uid r1 r2 db :
  ignoredEmail_upsert scrapedBy uid r2 (ignoredEmail_upsert scrapedBy uid r1 db)
  = ignoredEmail_upsert scrapedBy uid r1 db.
Proof.
  unfold ignoredEmail_upsert at 1. now rewrite ignoredEmail_upsert_has.
Qed.

Lemma fold_min_le x u us :
  In x (u :: us) → fold_right Z.min u us ≤ x.
Proof.
  induction us as [|v us IH]; simpl.
  - intros [->|[]]. lia.
  - intros [->|[->|H]].
    + specialize (IH (or_introl eq_refl)). lia.
    + lia.
    + specialize (IH (or_intror H)). lia.
Qed.

(** X28.  A uid that is in the ledger of the user is not among the unseen
    uids of a run, so it is not fetched from the mailbox. *)
Lemma tombstoned_not_fetched X user allUids db uid :
  ignoredHas user uid db = true → In uid allUids →
  ¬ In uid (uids X user allUids db) ∧
  ¬ In uid (mailboxUids X user allUids db).
Proof.
  intros Hhas Hin.
  assert (Hunseen : ¬ In uid (uids X user allUids db)).
  { unfold uids. rewrite List.filter_In. intros [_ Hneg].
    apply negb_true_iff in Hneg.
    assert (Hseen : uidIn (seenUids X user allUids db) uid = true); [|congruence].
    unfold uidIn, seenUids, ignoredUids.
    rewrite existsb_app. apply orb_true_iff. left.
    unfold ignoredHas in Hhas. apply existsb_exists in Hhas as (ig & Hig & Hok).
    apply andb_true_iff in Hok as [Hu Hi]. apply Z.eqb_eq in Hi.
    apply existsb_exists. exists uid. split; [|apply Z.eqb_refl].
    rewrite <- Hi. apply in_map. apply List.filter_In. split; [assumption|].
    unfold byUserAndRecent. rewrite Hu. simpl. unfold minUid.
    destruct allUids as [|u us]; [contradiction|].
    apply Z.leb_le. rewrite Hi. now apply fold_min_le. }
  split; [exact Hunseen|].
  unfold mailboxUids. rewrite List.filter_In. tauto.
Qed.

(** ** The calls of the example mails *)

(** The follow-up and a reply to it arrive in a store that has never seen
    the announcement. *)
Lemma root_not_in_db_witness :
  store (runInTurn host daemon [followUp; secondReply] [0; 1]%nat [fine; fine; fine]
           (initial host [followUp; secondReply] emptyStore ∅)) = emptyStore ∧
  ∀ i, In i [0; 1]%nat →
       outcome host i
         (runInTurn host daemon [followUp; secondReply] [0; 1]%nat [fine; fine; fine]
            (initial host [followUp; secondReply] emptyStore ∅))
       = Some (Some DORMSPAM_BUT_ROOT_NOT_IN_DB).
Proof.
  apply (root_not_in_db host daemon [followUp; secondReply] [0; 1]%nat
           (initial host [followUp; secondReply] emptyStore ∅) [fine; fine; fine]).
  - repeat constructor; simpl; intuition discriminate.
  - repeat constructor.
  - intros i [<-|[<-|[]]].
    + exists followUp, (lit "c@mit"), (lit "a@mit"), 0%nat.
      repeat split; try reflexivity; try (simpl; lia).
      do 5 eexists. repeat split; try reflexivity; discriminate.
    + exists secondReply, (lit "e@mit"), (lit "c@mit"), 0%nat.
      repeat split; try reflexivity; try (simpl; lia).
      do 5 eexists. repeat split; try reflexivity; discriminate.
Defined.

(** The claim of C7 fails for a reply that is no dormspam: its parent is not
    stored, yet the call returns NOT_DORMSPAM and writes a tombstone, and
    the next run does not fetch its uid. *)
Lemma root_not_in_db_counterexample :
  p_inReplyTo (t_parsed chatter) = Some (lit "a@mit") ∧
  missingAncestor emptyStore 0 (lit "a@mit") ∧
  outcome host 0
    (processMail host daemon [chatter] 0 [fine; fine; fine]
       (initial host [chatter] emptyStore ∅))
  = Some (Some NOT_DORMSPAM) ∧
  ignoredEmails
    (store (processMail host daemon [chatter] 0 [fine; fine; fine]
              (initial host [chatter] emptyStore ∅)))
  = [{| i_scrapedBy := daemon; i_uid := 2; i_receivedAt := 100 |}] ∧
  mailboxUids host daemon [2]
    (store (processMail host daemon [chatter] 0 [fine; fine; fine]
              (initial host [chatter] emptyStore ∅))) = [].
Proof. vm_compute. repeat split; reflexivity. Qed.

(** C8, the failing input.  A mail with a message id whose [from.value] is
    empty: [from.value[0].address] throws, the call is rejected, nothing is
    written to the ledger, and the next run fetches the uid again. *)
Lemma missing_sender_throws :
  outcome host 0
    (processMail host daemon [senderless] 0 [fine; fine]
       (initial host [senderless] emptyStore ∅))
  = Some None ∧
  store (processMail host daemon [senderless] 0 [fine; fine]
           (initial host [senderless] emptyStore ∅)) = emptyStore ∧
  mailboxUids host daemon [4]
    (store (processMail host daemon [senderless] 0 [fine; fine]
              (initial host [senderless] emptyStore ∅))) = [4].
Proof. vm_compute. repeat split; reflexivity. Qed.

Example successRun_outcome :
  outcome host 0 successRun = Some (Some DORMSPAM_WITH_EVENT) ∧
  List.map e_modelName (emails (store successRun)) = [lit "model-2_PROCESSING"] ∧
  unawaited successRun = [(0%nat, lit "a@mit")] ∧
  List.map ev_id (events (store successRun)) = [1].
Proof. vm_compute. repeat split; reflexivity. Qed.

(** C10, the failing input.  The announcement yields an event: the call
    has returned DORMSPAM_WITH_EVENT and the mail is still "processing".
    When the update of the last line fails, nothing handles the rejected
    promise. *)
Lemma success_before_marked_witness :
  ∃ mid e k,
    p_messageId (t_parsed announcement) = Some mid ∧
    email_findUnique mid (store successRun) = Some e ∧
    e_modelName e = PROCESSING host ∧
    e_modelName e ≠ CURRENT_MODEL_NAME host ∧
    unawaited successRun !! k = Some (0%nat, mid) ∧
    ∀ k', unawaited successRun !! k' = Some (0%nat, mid) →
      ∃ s'', settle host k' false successRun = Some s'' ∧
             store s'' = store successRun ∧
             outcome host 0 s'' = Some (Some DORMSPAM_WITH_EVENT) ∧
             history s'' = UnhandledRejection 0 :: history successRun.
Proof.
  apply (success_before_marked host daemon [announcement] 0 announcement
           (initial host [announcement] emptyStore ∅)
           [fine; fine; fine; fine; extracts; extracts]).
  - reflexivity.
  - reflexivity.
  - vm_compute. reflexivity.
Defined.

Example unhandled_rejection_run :
  ∃ s'', step host daemon [announcement] successRun s'' ∧
         store s'' = store successRun ∧
         outcome host 0 s'' = Some (Some DORMSPAM_WITH_EVENT) ∧
         unawaited s'' = [] ∧
         history s'' = UnhandledRejection 0 :: history successRun.
Proof.
  assert (Hk : unawaited successRun !! 0%nat = Some (0%nat, lit "a@mit"))
    by (vm_compute; reflexivity).
  destruct (settle_rejected host 0 0 (lit "a@mit") successRun Hk)
    as (s'' & Hs & Hstore & _ & Hpcs & Hun & Hh).
  exists s''. split; [exact (step_settle host daemon [announcement] 0 false _ _ Hs)|].
  split; [exact Hstore|]. split; [|split; [|exact Hh]].
  - unfold outcome. rewrite Hpcs. vm_compute. reflexivity.
  - rewrite Hun. vm_compute. reflexivity.
Qed.

Example bumpedRun_pc :
  pcs bumpedRun !! 0%nat
  = Some (AwaitFindExisting seriesLocals (lit "series@mit")).
Proof. vm_compute. reflexivity. Qed.

(** After the change from "model-1" to "model-2" the series mail is
    processed again: its event is deleted before the oracle is called. *)
Lemma stale_events_deleted_witness :
  pcs (processMail host daemon [seriesTask] 0 [fine; fine] bumpedRun) !! 0%nat
  = Some (AwaitExtract seriesLocals (lit "series@mit")) ∧
  events (store (processMail host daemon [seriesTask] 0 [fine; fine] bumpedRun))
  = List.filter (λ ev, negb (anchoredAt (lit "series@mit") ev))
                (events (store bumpedRun)) ∧
  event_findFirst (lit "series@mit")
    (store (processMail host daemon [seriesTask] 0 [fine; fine] bumpedRun)) = None ∧
  emails (store (processMail host daemon [seriesTask] 0 [fine; fine] bumpedRun))
  = emails (store bumpedRun) ∧
  vectordb (processMail host daemon [seriesTask] 0 [fine; fine] bumpedRun)
  = vectordb bumpedRun.
Proof.
  apply (stale_events_deleted host daemon [seriesTask] 0 seriesTask bumpedRun
           seriesLocals (lit "series@mit") fine fine seriesEvent).
  - reflexivity.
  - vm_compute. reflexivity.
  - reflexivity.
  - reflexivity.
  - vm_compute. reflexivity.
  - intros e He. vm_compute in He. injection He as <-. vm_compute. discriminate.
Defined.

(** The claim of C4 fails on the index: event 7 is deleted from the store
    before the oracle is called, and the index still holds the id 7 under
    the event's title. *)
Lemma stale_events_deleted_counterexample :
  event_findUnique 7 (store bumpedRun) = Some seriesEvent ∧
  pcs (processMail host daemon [seriesTask] 0 [fine; fine] bumpedRun) !! 0%nat
  = Some (AwaitExtract seriesLocals (lit "series@mit")) ∧
  event_findUnique 7 (store (processMail host daemon [seriesTask] 0 [fine; fine] bumpedRun))
  = None ∧
  getEmbedding (lit "Lecture Series")
    (vectordb (processMail host daemon [seriesTask] 0 [fine; fine] bumpedRun))
  = Some {| embeddings := 10; eventIds := [7] |}.
Proof. vm_compute. repeat split; reflexivity. Qed.

(** * Further properties of the code *)

(** ** [mergeEvents]: errors, symmetry, the empty location *)

Section MergeEventsMore.
Variable localTZA : Z → Z.
Variable toLowerCase : jsstring → jsstring.

Lemma sameDate_comm e1 e2 :
  sameDate localTZA e1 e2 = sameDate localTZA e2 e1.
Proof.
  unfold sameDate, getTime.
  rewrite (orb_comm (isAllDay localTZA (me_date e1))).
  rewrite (Z.eqb_sym (getDay localTZA (me_date e1))).
  now rewrite (Z.eqb_sym (me_date e1)).
Qed.

Lemma sameLocation_comm e1 e2 :
  sameLocation toLowerCase e1 e2 = sameLocation toLowerCase e2 e1.
Proof.
  unfold sameLocation.
  destruct (jsstring_eqb (toLowerCase (me_location e1)) (lit "unknown")),
    (jsstring_eqb (toLowerCase (me_location e2)) (lit "unknown")); simpl;
    try reflexivity.
  apply orb_comm.
Qed.

(** X1.  [mergeEvents] throws exactly when the two events pass the date
    test and the location test and one of them has no owning email
    ([fromEmail] is [null]): the tests are made first, so a pair that fails
    one of them is answered "unmergable" whatever its [fromEmail]. *)
Theorem mergeEvents_throws_iff e1 e2 :
  mergeEvents localTZA toLowerCase e1 e2 = Throw ↔
  dateCompatible localTZA e1 e2 ∧ locationCompatible toLowerCase e1 e2 ∧
  (me_fromEmail e1 = None ∨ me_fromEmail e2 = None).
Proof.
  rewrite <- sameDate_spec, <- sameLocation_spec.
  unfold mergeEvents, receivedAtOf.
  destruct (sameDate localTZA e1 e2), (sameLocation toLowerCase e1 e2); simpl;
    try (split; [discriminate | intros (? & ? & _); discriminate]).
  destruct (me_fromEmail e1) as [r1|], (me_fromEmail e2) as [r2|]; simpl;
    try (split; auto; fail).
  split; [discriminate | intros (_ & _ & [H|H]); discriminate].
Qed.

(** X2.  The order of the arguments of [mergeEvents] matters for the
    verdict only: "unmergable" is answered for a pair in one order exactly
    when it is in the other, and "former" in one order is "latter" in the
    other, the owning emails being received at different times.  (At equal
    times the answer is "latter" in both orders.) *)
Theorem mergeEvents_swap e1 e2 :
  (mergeEvents localTZA toLowerCase e1 e2 = Ret Unmergable ↔
   mergeEvents localTZA toLowerCase e2 e1 = Ret Unmergable) ∧
  (mergeEvents localTZA toLowerCase e1 e2 = Ret Former ↔
   mergeEvents localTZA toLowerCase e2 e1 = Ret Latter ∧
   me_fromEmail e1 ≠ me_fromEmail e2).
Proof.
  split.
  - now rewrite !mergeEvents_unmergable, sameDate_comm, sameLocation_comm.
  - unfold mergeEvents, receivedAtOf.
    rewrite (sameDate_comm e2 e1), (sameLocation_comm e2 e1).
    destruct (sameDate localTZA e1 e2), (sameLocation toLowerCase e1 e2); simpl;
      try (split; [discriminate | intros [? _]; discriminate]).
    destruct (me_fromEmail e1) as [r1|], (me_fromEmail e2) as [r2|]; simpl;
      try (split; [discriminate | intros [? _]; discriminate]).
    destruct (r1 <=? r2) eqn:E1, (r2 <=? r1) eqn:E2;
      rewrite ?Z.leb_le, ?Z.leb_gt in E1, E2; try lia.
    + split; [discriminate | intros [_ H]; exfalso; apply H; f_equal; lia].
    + split; [discriminate | intros [? _]; discriminate].
    + split; [intros _; split; [reflexivity | intros H; injection H; lia] | reflexivity].
Qed.

(** X3.  An event whose lower-cased location is the empty string passes
    the location test with every event: every string includes the empty
    string.  Such a pair is unmergable only when the date test fails. *)
Theorem mergeEvents_empty_location e1 e2 :
  toLowerCase (me_location e1) = [] →
  sameLocation toLowerCase e1 e2 = true ∧
  sameLocation toLowerCase e2 e1 = true ∧
  (mergeEvents localTZA toLowerCase e1 e2 = Ret Unmergable ↔
   ¬ dateCompatible localTZA e1 e2).
Proof.
  intros Hempty.
  assert (Hloc : sameLocation toLowerCase e1 e2 = true).
  { unfold sameLocation. rewrite Hempty.
    assert (Hincl : includes (toLowerCase (me_location e2)) [] = true).
    { apply includes_spec. exists [], (toLowerCase (me_location e2)). reflexivity. }
    rewrite Hincl. now rewrite !orb_true_r. }
  split; [exact Hloc|]. split; [now rewrite sameLocation_comm|].
  rewrite mergeEvents_unmergable, Hloc, andb_true_r, <- sameDate_spec.
  now rewrite not_true_iff_false.
Qed.
End MergeEventsMore.

(** An event without a location and a stored event in Building 10, at the
    same time. *)
Lemma mergeEvents_empty_location_witness :
  sameLocation asciiToLowerCase
    {| me_date := 1709316000000; me_location := []; me_fromEmail := Some 5 |}
    (lectureStored 7) = true.
Proof.
  apply (mergeEvents_empty_location (λ _, 0) asciiToLowerCase
           {| me_date := 1709316000000; me_location := []; me_fromEmail := Some 5 |}
           (lectureStored 7) eq_refl).
Defined.

(** ** [isDormspam]: context, letter case, short texts *)

Section IsDormspamMore.
Variable canonicalize : jschar → jschar.

(** X4.  A text that contains a dormspam stays one whatever is written
    before and after it (a quoted or forwarded dormspam is a dormspam). *)
Theorem isDormspam_context text before after :
  isDormspam canonicalize text = true →
  isDormspam canonicalize (before ++ text ++ after) = true.
Proof.
  unfold isDormspam. rewrite !test_spec.
  intros (b & fragment & a & -> & Hm).
  exists (before ++ b), fragment, (a ++ after). split; [|exact Hm].
  now rewrite <- !app_assoc.
Qed.

Lemma deriv_sameForPattern c d r :
  sameForPattern canonicalize c d →
  deriv canonicalize c r = deriv canonicalize d r.
Proof.
  intros [Hc Hw]. induction r; simpl; try reflexivity.
  - now rewrite Hc.
  - now rewrite Hw.
  - now rewrite IHr1, IHr2.
  - now rewrite IHr1, IHr2.
  - now rewrite IHr.
Qed.

Lemma matchPrefix_sameForPattern s1 s2 :
  Forall2 (sameForPattern canonicalize) s1 s2 →
  ∀ r, matchPrefix canonicalize r s1 = matchPrefix canonicalize r s2.
Proof.
  induction 1 as [|c d s1 s2 Hcd _ IH]; intros r; simpl; [reflexivity|].
  now rewrite (deriv_sameForPattern c d r Hcd), IH.
Qed.

(** X5.  The classifier does not see letter case: two texts of the same
    length whose characters, place by place, have the same canonical form
    (and are both white space or neither) are classified alike. *)
Theorem isDormspam_case_insensitive text1 text2 :
  Forall2 (sameForPattern canonicalize) text1 text2 →
  isDormspam canonicalize text1 = isDormspam canonicalize text2.
Proof.
  unfold isDormspam. intros Hsame. generalize isDormspamRegex.
  induction Hsame as [|c d s1 s2 Hcd Hrest IH]; intros r; [reflexivity|].
  cbn [test].
  rewrite (matchPrefix_sameForPattern (c :: s1) (d :: s2)) by now constructor.
  now rewrite IH.
Qed.

Lemma matches_minLength r s :
  matches canonicalize r s → (minLength r ≤ length s)%nat.
Proof.
  induction 1; simpl in *; rewrite ?length_app; lia.
Qed.

(** X6.  No text of fewer than eleven characters is a dormspam: the
    shortest keyword, "for bc-talk", needs eleven.  In particular the
    empty text is not one. *)
Theorem isDormspam_short text :
  (length text < 11)%nat → isDormspam canonicalize text = false.
Proof.
  intros Hshort. apply not_true_iff_false. unfold isDormspam.
  rewrite test_spec. intros (b & fragment & a & -> & Hm).
  apply matches_minLength in Hm.
  change (minLength isDormspamRegex) with 11%nat in Hm.
  rewrite !length_app in Hshort. lia.
Qed.
End IsDormspamMore.

(** A dormspam quoted in a reply. *)
Lemma isDormspam_context_witness :
  isDormspam asciiFold
    (lit "> " ++ lit "party, bcc'd to dorms" ++ lit " <see you there>") = true.
Proof.
  apply (isDormspam_context asciiFold (lit "party, bcc'd to dorms")
           (lit "> ") (lit " <see you there>")).
  vm_compute. reflexivity.
Defined.

(** The keyword in capitals. *)
Lemma isDormspam_case_insensitive_witness :
  isDormspam asciiFold (lit "BCC'D TO ALL DORMS")
  = isDormspam asciiFold (lit "bcc'd to all dorms").
Proof.
  symmetry.
  apply (isDormspam_case_insensitive asciiFold (lit "bcc'd to all dorms")
           (lit "BCC'D TO ALL DORMS")).
  cbv -[sameForPattern].
  repeat (constructor; [split; reflexivity|]). constructor.
Defined.

Lemma isDormspam_short_witness :
  isDormspam asciiFold (lit "bcc dorms") = false.
Proof.
  apply (isDormspam_short asciiFold (lit "bcc dorms")). vm_compute. lia.
Defined.

(** ** The tally of the results and the progress marks *)

Lemma map_get_set_eq key value m :
  map_get key (map_set key value m) = Some value.
Proof.
  induction m as [|[k v] m IH]; simpl.
  - now rewrite decide_True.
  - destruct (decide (k = key)) as [->|Hne]; simpl.
    + now rewrite decide_True.
    + now rewrite decide_False.
Qed.

Lemma map_get_set_ne key key' value m :
  key' ≠ key → map_get key' (map_set key value m) = map_get key' m.
Proof.
  intros Hne. induction m as [|[k v] m IH]; simpl.
  - now rewrite decide_False.
  - destruct (decide (k = key)) as [->|Hk]; simpl.
    + now rewrite !decide_False by congruence.
    + destruct (decide (k = key')); [reflexivity | exact IH].
Qed.

Lemma map_set_keys key value m :
  List.map fst (map_set key value m)
  = match map_get key m with
    | Some _ => List.map fst m
    | None => List.map fst m ++ [key]
    end.
Proof.
  induction m as [|[k v] m IH]; simpl; [reflexivity|].
  destruct (decide (k = key)) as [->|Hk]; simpl; [reflexivity|].
  rewrite IH. now destruct (map_get key m).
Qed.

Lemma map_get_None key m :
  map_get key m = None → ¬ In key (List.map fst m).
Proof.
  induction m as [|[k v] m IH]; simpl; [tauto|].
  destruct (decide (k = key)); [discriminate|]. intros H [?|?]; [done|].
  now apply IH.
Qed.

Lemma countResult_get m result value :
  map_get value (countResult m result)
  = match map_get value m with
    | Some x => Some (x + fulfilledWith value [result])
    | None => if fulfilledWith value [result] =? 0 then None else Some 1
    end.
Proof.
  unfold fulfilledWith. destruct result as [v|]; simpl.
  - destruct (decide (v = value)) as [->|Hne].
    + rewrite bool_decide_eq_true_2 by reflexivity. simpl.
      destruct (map_get value m); now rewrite map_get_set_eq.
    + rewrite bool_decide_eq_false_2 by assumption. simpl.
      assert (Hget : ∀ x, map_get value (map_set v x m) = map_get value m).
      { intros x. apply map_get_set_ne. congruence. }
      destruct (map_get v m); rewrite Hget;
        destruct (map_get value m); f_equal; lia.
  - destruct (map_get value m); f_equal; lia.
Qed.

Lemma countResult_keys m result :
  List.NoDup (List.map fst m) → List.NoDup (List.map fst (countResult m result)).
Proof.
  intros Hnd. destruct result as [v|]; simpl; [|exact Hnd].
  destruct (map_get v m) as [x|] eqn:E; rewrite map_set_keys, E; [exact Hnd|].
  apply NoDup_ListNoDup, NoDup_app. apply NoDup_ListNoDup in Hnd.
  split; [exact Hnd|]. split.
  - intros k Hk ->%list_elem_of_singleton.
    apply (map_get_None _ _ E). now apply list_elem_of_In.
  - apply NoDup_singleton.
Qed.

Lemma fulfilledWith_cons value result results :
  fulfilledWith value (result :: results)
  = fulfilledWith value [result] + fulfilledWith value results.
Proof.
  unfold fulfilledWith. simpl.
  destruct result as [v|]; simpl; [destruct (bool_decide (v = value)); simpl|]; lia.
Qed.

Lemma fulfilledWith_nonneg value results : 0 ≤ fulfilledWith value results.
Proof. unfold fulfilledWith. lia. Qed.

Lemma fold_countResult_get results : ∀ m value,
  (∀ k v, map_get k m = Some v → 0 < v) →
  map_get value (fold_left countResult results m)
  = match map_get value m with
    | Some x => Some (x + fulfilledWith value results)
    | None => if fulfilledWith value results =? 0 then None
              else Some (fulfilledWith value results)
    end.
Proof.
  induction results as [|result results IH]; intros m value Hpos; simpl.
  - destruct (map_get value m); f_equal. unfold fulfilledWith. simpl. lia.
  - rewrite IH; cycle 1.
    { intros k v. rewrite countResult_get.
      pose proof (fulfilledWith_nonneg k [result]).
      destruct (map_get k m) as [x|] eqn:E.
      - intros H'. injection H' as <-. specialize (Hpos k x E). lia.
      - destruct (fulfilledWith k [result] =? 0); [discriminate|].
        intros H'. injection H' as <-. lia. }
    rewrite countResult_get, (fulfilledWith_cons value result results).
    pose proof (fulfilledWith_nonneg value results).
    assert (Hone : fulfilledWith value [result] = 0 ∨ fulfilledWith value [result] = 1).
    { unfold fulfilledWith. simpl.
      destruct result as [v|]; simpl; [destruct (bool_decide (v = value))|]; simpl; lia. }
    destruct (map_get value m) as [x|]; [f_equal; lia|].
    destruct Hone as [-> | ->]; simpl; [reflexivity|].
    destruct (Z.eqb_spec (1 + fulfilledWith value results) 0); [lia|].
    reflexivity.
Qed.

(** X7.  The tally lists each result that some call was fulfilled with
    once, with the number of calls fulfilled with it; a result that no call
    returned is not listed, and a call that was rejected is counted
    nowhere. *)
Theorem resultsByType_counts results value :
  map_get value (resultsByType results)
  = (if fulfilledWith value results =? 0 then None
     else Some (fulfilledWith value results)) ∧
  List.NoDup (List.map fst (resultsByType results)).
Proof.
  unfold resultsByType. split.
  - rewrite fold_countResult_get; [reflexivity | discriminate].
  - assert (H : ∀ m, List.NoDup (List.map fst m) →
                     List.NoDup (List.map fst (fold_left countResult results m))).
    { induction results as [|r rs IH]; intros m Hm; simpl; [exact Hm|].
      apply IH. now apply countResult_keys. }
    apply H. constructor.
Qed.

(** X8.  The mark that a finished call prints, the last character of its
    result, tells the results apart: every result has a mark, and two
    results with the same mark are the same result. *)
Theorem progressMark_injective value1 value2 :
  is_Some (progressMark value1) ∧
  (progressMark value1 = progressMark value2 ↔ value1 = value2).
Proof.
  split; [destruct value1; vm_compute; eauto|].
  split; [|now intros ->].
  destruct value1, value2; vm_compute; intros H; try reflexivity; discriminate.
Qed.

(** ** The uids of the next run *)

Section DriverFacts.
Variable X : Externals.
Variable user : jsstring.
Variable allUids : list Z.

Lemma byUserAndRecent_intro uid :
  In uid allUids → byUserAndRecent user allUids user uid = true.
Proof.
  intros Hin. unfold byUserAndRecent, jsstring_eqb, minUid.
  rewrite bool_decide_eq_true_2 by reflexivity. simpl.
  destruct allUids as [|u us]; [contradiction|].
  apply Z.leb_le. now apply fold_min_le.
Qed.

Lemma uidIn_spec seen uid : uidIn seen uid = true ↔ In uid seen.
Proof.
  unfold uidIn. rewrite existsb_exists. split.
  - intros [x [Hin ->%Z.eqb_eq]]. exact Hin.
  - intros Hin. exists uid. split; [exact Hin | apply Z.eqb_refl].
Qed.

Lemma fetchedEmails_In db e :
  In e (fetchedEmails X user allUids db) ↔
  In e (emails db) ∧
  byUserAndRecent user allUids (e_scrapedBy e) (e_uid e) = true ∧
  e_modelName e ≠ CURRENT_MODEL_NAME X.
Proof.
  unfold fetchedEmails.
  rewrite <- list_elem_of_In, merge_sort_Permutation, list_elem_of_In.
  rewrite List.filter_In, andb_true_iff, negb_true_iff.
  rewrite <- not_true_iff_false, jsstring_eqb_eq. tauto.
Qed.

(** X9.  An email that the user's store holds under the current model name
    is done with: its uid is not among the unseen uids of the run, it is
    not fetched from the mailbox, and the email is not among the stored
    emails that the run processes again. *)
Theorem processed_not_refetched db e :
  In e (emails db) → e_scrapedBy e = user →
  e_modelName e = CURRENT_MODEL_NAME X → In (e_uid e) allUids →
  ¬ In (e_uid e) (uids X user allUids db) ∧
  ¬ In (e_uid e) (mailboxUids X user allUids db) ∧
  ¬ In e (fetchedEmails X user allUids db).
Proof.
  intros Hin Huser Hmodel Huid.
  assert (Hunseen : ¬ In (e_uid e) (uids X user allUids db)).
  { unfold uids. rewrite List.filter_In, negb_true_iff.
    intros [_ Hneg]. apply not_true_iff_false in Hneg. apply Hneg.
    apply uidIn_spec. unfold seenUids. apply in_or_app. right.
    unfold processedUids. apply in_map. apply List.filter_In.
    split; [exact Hin|]. rewrite Huser, byUserAndRecent_intro by assumption.
    now apply jsstring_eqb_eq. }
  split; [exact Hunseen|]. split.
  - unfold mailboxUids. rewrite List.filter_In. tauto.
  - rewrite fetchedEmails_In. tauto.
Qed.

(** X10.  An email that the user's store holds under another model name
    than the current one (left at "processing" by an error, or processed by
    an older model), whose uid the mailbox still lists and no row has
    marked as seen, is processed again in the run, from its stored copy:
    its uid is not fetched from the mailbox. *)
Theorem unfinished_processed_again db e :
  In e (emails db) → e_scrapedBy e = user →
  e_modelName e ≠ CURRENT_MODEL_NAME X → In (e_uid e) allUids →
  uidIn (seenUids X user allUids db) (e_uid e) = false →
  In e (fetchedEmails X user allUids db) ∧
  In (e_uid e) (processedInRun X user allUids db) ∧
  ¬ In (e_uid e) (mailboxUids X user allUids db).
Proof.
  intros Hin Huser Hmodel Huid Hseen.
  assert (Hfetched : In e (fetchedEmails X user allUids db)).
  { apply fetchedEmails_In. rewrite Huser, byUserAndRecent_intro by assumption.
    auto. }
  assert (Hfu : In (e_uid e) (fetchedUids X user allUids db)).
  { unfold fetchedUids. now apply in_map. }
  split; [exact Hfetched|]. split.
  - unfold processedInRun.
    assert (Hunseen : In (e_uid e) (uids X user allUids db)).
    { unfold uids. apply List.filter_In. now rewrite Hseen. }
    destruct (uids X user allUids db); [contradiction|].
    apply in_or_app. now left.
  - unfold mailboxUids. rewrite List.filter_In, negb_true_iff.
    intros [_ Hneg]. apply uidIn_spec in Hfu. congruence.
Qed.
End DriverFacts.

(** The store of the series mail at the current model: the mail is done
    with. *)
Lemma processed_not_refetched_witness :
  ¬ In 11 (uids host daemon [3; 11; 12] (seriesStore 100 (lit "model-2"))) ∧
  ¬ In 11 (mailboxUids host daemon [3; 11; 12] (seriesStore 100 (lit "model-2"))) ∧
  ¬ In (seriesEmail 100 (lit "model-2"))
       (fetchedEmails host daemon [3; 11; 12] (seriesStore 100 (lit "model-2"))).
Proof.
  apply (processed_not_refetched host daemon [3; 11; 12]
           (seriesStore 100 (lit "model-2")) (seriesEmail 100 (lit "model-2"))).
  - left. reflexivity.
  - reflexivity.
  - reflexivity.
  - simpl. auto.
Defined.

(** The store of the series mail at the older "model-1": the mail is
    processed again, from the store. *)
Lemma unfinished_processed_again_witness :
  In (seriesEmail 100 (lit "model-1"))
     (fetchedEmails host daemon [3; 11; 12] (seriesStore 100 (lit "model-1"))) ∧
  In 11 (processedInRun host daemon [3; 11; 12] (seriesStore 100 (lit "model-1"))) ∧
  ¬ In 11 (mailboxUids host daemon [3; 11; 12] (seriesStore 100 (lit "model-1"))).
Proof.
  apply (unfinished_processed_again host daemon [3; 11; 12]
           (seriesStore 100 (lit "model-1")) (seriesEmail 100 (lit "model-1"))).
  - left. reflexivity.
  - reflexivity.
  - vm_compute. discriminate.
  - simpl. auto.
  - vm_compute. reflexivity.
Defined.

(** ** More of one call run on its own *)

Section CallMore.
Variable X : Externals.
Variable scrapedBy : jsstring.
Variable tasks : list Task.

(** X11.  A mail that has its required fields and whose message id is not
    stored under another uid, but whose text is no dormspam, is tombstoned
    and the call returns NOT_DORMSPAM: the ledger gets its uid, and nothing
    else of the store changes (the mail is not stored). *)
Theorem not_dormspam_tombstoned i t s mid sender others address html subject r1 r2 r3 :
  tasks !! i = Some t →
  pcs s !! i = Some NotStarted →
  p_messageId (t_parsed t) = Some mid →
  p_from (t_parsed t) = Some (sender :: others) →
  ea_address sender = Some address →
  p_html (t_parsed t) = Some html → html ≠ [] →
  p_subject (t_parsed t) = Some subject →
  (∀ e, email_findUnique mid (store s) = Some e → e_uid e = t_uid t) →
  isDormspam (canonicalize X)
    (removeArtifacts X (default (convert X html) (p_text (t_parsed t)))) = false →
  succeeds r2 → succeeds r3 →
  outcome X i (processMail X scrapedBy tasks i [r1; r2; r3] s) = Some (Some NOT_DORMSPAM) ∧
  store (processMail X scrapedBy tasks i [r1; r2; r3] s)
  = ignoreThisEmailForever scrapedBy t (store s).
Proof.
  intros Ht Hp Hmid Hfrom Haddr Hhtml Hne Hsubj Huid Hspam Hr2 Hr3.
  unfold succeeds in *.
  cbn [processMail]. rewrite (processMailStep_body X scrapedBy tasks i t _ r1 s Ht Hp eq_refl).
  cbn [body]. unfold start. rewrite Hmid, Hfrom, Haddr, Hhtml, Hsubj.
  destruct html as [|c html']; [congruence|]. cbn [finally].
  set (s1 := setPc X i _ _).
  assert (Hp1 : pcs s1 !! i =
                Some (AwaitFindSelf mid address (ea_name sender) (c :: html') subject)).
  { eapply setPc_lookup. simpl. eassumption. }
  rewrite (processMailStep_body X scrapedBy tasks i t _ r2 s1 Ht Hp1 eq_refl).
  cbn [body]. rewrite Hr2.
  change (store s1) with (store s).
  replace (match email_findUnique mid (store s) with
           | Some e => negb (e_uid e =? t_uid t)
           | None => false
           end) with false
    by (destruct (email_findUnique mid (store s)) as [e|] eqn:E;
        [rewrite (Huid e eq_refl), Z.eqb_refl|]; reflexivity).
  rewrite Hspam. cbn [negb finally].
  set (s2 := setPc X i _ s1).
  assert (Hp2 : pcs s2 !! i = Some (AwaitIgnore NOT_DORMSPAM)).
  { eapply setPc_lookup. eassumption. }
  rewrite (processMailStep_body X scrapedBy tasks i t _ r3 s2 Ht Hp2 eq_refl).
  cbn [body]. rewrite Hr3. cbn [finally]. split; [|reflexivity].
  unfold outcome. erewrite setPc_lookup by (simpl; exact Hp2). reflexivity.
Qed.

(** X12.  A stored email handed back to [processMail] through
    [emailToRelaxedParsedMail] is never found malformed, its body not being
    empty, and never found in conflict, the row under its message id being
    the email itself: the call goes on to the classifier with the fields of
    the row, the stored time of receipt among them, and has not written to
    the store. *)
Theorem stored_email_rechecked i email sender now s r1 r2 :
  tasks !! i = Some (storedTask X email sender now) →
  pcs s !! i = Some NotStarted →
  email_findUnique (e_messageId email) (store s) = Some email →
  e_body email ≠ [] → succeeds r2 →
  store (processMail X scrapedBy tasks i [r1; r2] s) = store s ∧
  pcs (processMail X scrapedBy tasks i [r1; r2] s) !! i
  = Some (if isDormspam (canonicalize X) (text (storedLocals X email sender))
          then match e_inReplyToId email with
               | Some parentId => AwaitFindParent (storedLocals X email sender) parentId
               | None => AwaitUpsert (storedLocals X email sender) (e_messageId email)
               end
          else AwaitIgnore NOT_DORMSPAM).
Proof.
  intros Ht Hp Hfind Hne Hr2. unfold succeeds in Hr2.
  cbn [processMail]. rewrite (processMailStep_body X scrapedBy tasks i _ _ r1 s Ht Hp eq_refl).
  cbn [body]. unfold start, storedLocals. simpl.
  destruct (e_body email) as [|c body'] eqn:Ebody; [congruence|]. cbn [finally].
  set (s1 := setPc X i _ _).
  assert (Hp1 : pcs s1 !! i =
    Some (AwaitFindSelf (e_messageId email) (s_email sender)
            (Some (default (s_email sender) (s_name sender))) (c :: body')
            (e_subject email))).
  { eapply setPc_lookup. simpl. eassumption. }
  rewrite (processMailStep_body X scrapedBy tasks i _ _ r2 s1 Ht Hp1 eq_refl).
  cbn [body]. rewrite Hr2.
  change (store s1) with (store s). rewrite Hfind. simpl.
  rewrite Z.eqb_refl, Ebody. simpl.
  destruct (isDormspam (canonicalize X) (removeArtifacts X (convert X (c :: body'))));
    simpl; [destruct (e_inReplyToId email)|]; simpl;
    (split; [reflexivity | apply list_lookup_insert_eq; eapply lookup_lt_Some; exact Hp1]).
Qed.

Lemma email_upsert_events new name processing db db' :
  email_upsert new name processing db = Ret db' → events db' = events db.
Proof.
  unfold email_upsert, email_updateModelName.
  destruct (email_findUnique (e_messageId new) db).
  - intros H. now injection H as <-.
  - destruct (connects (e_inReplyToId new) db); [|discriminate].
    intros H. now injection H as <-.
Qed.

Lemma anchoredAt_fromEmailId rootMessageId db existing :
  event_findFirst rootMessageId db = Some existing →
  d_fromEmailId (ev_data existing) = Some rootMessageId.
Proof.
  unfold event_findFirst. intros Hex. apply List.find_some in Hex as [_ Hex].
  unfold anchoredAt in Hex.
  destruct (d_fromEmailId (ev_data existing)) as [m|]; [|discriminate].
  apply jsstring_eqb_eq in Hex. now subst.
Qed.

(** X13.  A call that finds an event anchored at its root whose email is at
    the current model marks its own mail as processed by the current model
    and returns DORMSPAM_PROCESSED_WITH_SAME_PROMPT: the extraction oracle
    is not called, and the events and the embedding index are as they
    were. *)
Theorem same_prompt_writes_no_event i t s l rootMessageId r1 r2 existing root :
  tasks !! i = Some t →
  pcs s !! i = Some (AwaitFindExisting l rootMessageId) →
  succeeds r1 → succeeds r2 →
  event_findFirst rootMessageId (store s) = Some existing →
  email_findUnique rootMessageId (store s) = Some root →
  e_modelName root = CURRENT_MODEL_NAME X →
  is_Some (email_findUnique (messageId l) (store s)) →
  outcome X i (processMail X scrapedBy tasks i [r1; r2] s)
  = Some (Some DORMSPAM_PROCESSED_WITH_SAME_PROMPT) ∧
  events (store (processMail X scrapedBy tasks i [r1; r2] s)) = events (store s) ∧
  vectordb (processMail X scrapedBy tasks i [r1; r2] s) = vectordb s ∧
  ∃ e, email_findUnique (messageId l) (store (processMail X scrapedBy tasks i [r1; r2] s))
       = Some e ∧
       e_modelName e = CURRENT_MODEL_NAME X.
Proof.
  intros Ht Hp Hr1 Hr2 Hex Hroot Hmodel [own Hown]. unfold succeeds in *.
  cbn [processMail]. rewrite (processMailStep_body X scrapedBy tasks i t _ r1 s Ht Hp eq_refl).
  cbn [body]. rewrite Hr1, Hex.
  rewrite (anchoredAt_fromEmailId _ _ _ Hex). simpl mbind. rewrite Hroot. simpl.
  rewrite Hmodel, bool_decide_eq_true_2 by reflexivity.
  cbn [finally]. set (s1 := setPc X i _ _).
  assert (Hp1 : pcs s1 !! i
                = Some (AwaitMarkProcessed l DORMSPAM_PROCESSED_WITH_SAME_PROMPT)).
  { eapply setPc_lookup. eassumption. }
  rewrite (processMailStep_body X scrapedBy tasks i t _ r2 s1 Ht Hp1 eq_refl).
  cbn [body]. rewrite Hr2. change (store s1) with (store s).
  destruct (markProcessedByCurrentModel X (messageId l) (store s)) as [db'|] eqn:Em;
    cycle 1.
  { unfold markProcessedByCurrentModel, email_updateModelName in Em.
    now rewrite Hown in Em. }
  unfold writing. cbn [finally].
  apply email_updateModelName_found in Em as (e & He & Hn & Hev).
  split.
  { unfold outcome. erewrite setPc_lookup by (simpl; exact Hp1). reflexivity. }
  simpl. repeat split; eauto.
Qed.

(** X14.  A mail that is its own root and has events is never taken for
    processed: its upsert sets the model name of its row to "processing"
    before the model name of the events' email is looked at, so the call
    goes on to delete the events that are anchored at the mail and to
    extract again, whatever model name the row had. *)
Theorem own_root_extracted_again i t s l r1 r2 existing :
  tasks !! i = Some t →
  pcs s !! i = Some (AwaitUpsert l (messageId l)) →
  p_inReplyTo (t_parsed t) = None →
  succeeds r1 → succeeds r2 →
  event_findFirst (messageId l) (store s) = Some existing →
  pcs (processMail X scrapedBy tasks i [r1; r2] s) !! i
  = Some (AwaitDeleteMany l (messageId l)) ∧
  events (store (processMail X scrapedBy tasks i [r1; r2] s)) = events (store s) ∧
  ∃ e, email_findUnique (messageId l) (store (processMail X scrapedBy tasks i [r1; r2] s))
       = Some e ∧
       e_modelName e = PROCESSING X.
Proof.
  intros Ht Hp Hroot Hr1 Hr2 Hex. unfold succeeds in *.
  cbn [processMail]. rewrite (processMailStep_body X scrapedBy tasks i t _ r1 s Ht Hp eq_refl).
  cbn [body]. rewrite Hr1, Hroot.
  match goal with
  | |- context [email_upsert ?new ?name ?p ?db] =>
      destruct (email_upsert new name p db) as [db1|] eqn:Eu
  end; cycle 1.
  { unfold email_upsert, email_updateModelName in Eu. simpl in Eu.
    destruct (email_findUnique (messageId l) (store s)); discriminate. }
  unfold writing. cbn [finally].
  pose proof (email_upsert_events _ _ _ _ _ Eu) as Hev.
  apply email_upsert_found in Eu as (e & He & Hn); [|reflexivity]. simpl in He.
  set (s1 := setPc X i _ _).
  assert (Hp1 : pcs s1 !! i = Some (AwaitFindExisting l (messageId l))).
  { eapply setPc_lookup. simpl. eassumption. }
  rewrite (processMailStep_body X scrapedBy tasks i t _ r2 s1 Ht Hp1 eq_refl).
  cbn [body]. rewrite Hr2. change (store s1) with db1.
  assert (Hex1 : event_findFirst (messageId l) db1 = Some existing).
  { unfold event_findFirst in *. now rewrite Hev. }
  rewrite Hex1, (anchoredAt_fromEmailId _ _ _ Hex1). simpl mbind. rewrite He. simpl.
  rewrite bool_decide_eq_false_2; cycle 1.
  { rewrite Hn. intros H. injection H as H. exact (PROCESSING_not_current X H). }
  cbn [finally]. split; [eapply setPc_lookup; exact Hp1|].
  simpl. split; [exact Hev | eauto].
Qed.

Lemma ignoredEmail_upsert_emails u uid r db m :
  email_findUnique m (ignoredEmail_upsert u uid r db) = email_findUnique m db.
Proof.
  unfold ignoredEmail_upsert. now destruct (ignoredHas u uid db).
Qed.

Lemma body_tracked db0 i t reply p s s' br :
  body X scrapedBy i t reply p s = (s', br) →
  tracked X scrapedBy t db0 p s →
  match br with
  | Continue next => tracked X scrapedBy t db0 next s'
  | Return r => settledAs X scrapedBy t db0 r (store s')
  | Raise => True
  end.
Proof.
  intros H. body_cases H; intros Htr; try done; try tauto.
  all: repeat match goal with
       | H : _ ∧ _ |- _ => destruct H
       | H : ∃ _, _ |- _ => destruct H
       | H : _ ∨ _ |- _ => destruct H
       end; simplify_eq/=; try done; try tauto.
  all: try match goal with
       | H : email_upsert _ _ _ _ = Ret _ |- _ =>
           apply email_upsert_found in H as (? & ? & ?); [|reflexivity]
       end.
  all: try match goal with
       | H : markProcessedByCurrentModel _ _ _ = Ret _ |- _ =>
           apply email_updateModelName_found in H as (? & ? & ? & ?)
       end.
  all: try match goal with
       | H : mergeOne _ _ _ _ _ _ _ = _ |- _ =>
           apply mergeOne_emails in H
       end.
  all: unfold email_findUnique in *; simpl in *.
  all: repeat match goal with
       | H : emails _ = emails _ |- _ => rewrite H
       end.
  all: eauto 10.
Qed.

Lemma processMail_tracked db0 i t replies : ∀ s p,
  tasks !! i = Some t → pcs s !! i = Some p →
  tracked X scrapedBy t db0 p s →
  ∃ p', pcs (processMail X scrapedBy tasks i replies s) !! i = Some p' ∧
        tracked X scrapedBy t db0 p' (processMail X scrapedBy tasks i replies s).
Proof.
  induction replies as [|reply replies IH]; intros s p Ht Hp Htr; simpl; [eauto|].
  destruct (processMailStep X scrapedBy tasks i reply s) as [s'|] eqn:He; [|eauto].
  unfold processMailStep in He. rewrite Ht, Hp in He. simpl in He.
  destruct (enabled X p s); [|discriminate]. injection He as <-.
  destruct (body X scrapedBy i t reply p s) as [s1 br] eqn:Hb.
  pose proof (body_tracked db0 _ _ _ _ _ _ _ Hb Htr) as Hnext.
  pose proof (body_pcs _ _ _ _ _ _ _ _ _ Hb) as Hpcs.
  assert (Hp1 : pcs s1 !! i = Some p) by now rewrite Hpcs.
  destruct br as [next|r|]; cbn [finally].
  - apply (IH _ next); [exact Ht | eapply setPc_lookup; eassumption | exact Hnext].
  - apply (IH _ (Exited (Some r)));
      [exact Ht | eapply setPc_lookup; simpl; eassumption | exact Hnext].
  - apply (IH _ (Exited None));
      [exact Ht | eapply setPc_lookup; simpl; eassumption | exact I].
Qed.

(** X15.  What a call that has returned leaves in the store, by its
    result.  MALFORMED_EMAIL and NOT_DORMSPAM: the tombstone of the uid and
    nothing else.  DORMSPAM_BUT_ROOT_NOT_IN_DB: nothing.  The two rejections
    by the oracle and DORMSPAM_PROCESSED_WITH_SAME_PROMPT: the mail is
    stored under the current model name.  The two errors of the oracle (and
    DORMSPAM_WITH_EVENT, at the time of return): the mail is stored under
    the name "processing", which is not the current one, so the next run
    processes it again. *)
Theorem outcome_settles i t s replies r :
  tasks !! i = Some t →
  pcs s !! i = Some NotStarted →
  outcome X i (processMail X scrapedBy tasks i replies s) = Some (Some r) →
  settledAs X scrapedBy t (store s) r
    (store (processMail X scrapedBy tasks i replies s)).
Proof.
  intros Ht Hp Hout.
  destruct (processMail_tracked (store s) i t replies s NotStarted Ht Hp eq_refl)
    as (p' & Hp' & Htr).
  unfold outcome in Hout. rewrite Hp' in Hout.
  destruct p'; try discriminate. injection Hout as ->. exact Htr.
Qed.
End CallMore.

(** ** The calls of more example mails *)

(** The mail without a subject is tombstoned; the mail with nothing but a
    message id and an empty [from.value] is rejected and leaves no trace. *)
Lemma malformed_tombstoned_witness :
  (outcome host 0
     (processMail host daemon [subjectless] 0 [fine; fine]
        (initial host [subjectless] emptyStore ∅))
   = Some (Some MALFORMED_EMAIL) ∧
   store (processMail host daemon [subjectless] 0 [fine; fine]
            (initial host [subjectless] emptyStore ∅))
   = ignoreThisEmailForever daemon subjectless emptyStore) ∧
  (outcome host 0
     (processMail host daemon [bare] 0 [fine; fine]
        (initial host [bare] emptyStore ∅))
   = Some None ∧
   store (processMail host daemon [bare] 0 [fine; fine]
            (initial host [bare] emptyStore ∅))
   = emptyStore).
Proof.
  split.
  - apply (malformed_tombstoned host daemon [subjectless] 0 subjectless
             (initial host [subjectless] emptyStore ∅) fine fine eq_refl eq_refl).
    + right. right. do 2 eexists. split; [reflexivity|]. auto.
    + reflexivity.
  - apply (malformed_tombstoned host daemon [bare] 0 bare
             (initial host [bare] emptyStore ∅) fine fine eq_refl eq_refl).
    split; [eexists|]; reflexivity.
Defined.

(** The second copy of the announcement, under uid 9, in a store that holds
    the announcement under uid 1. *)
Lemma conflicting_tombstoned_witness :
  outcome host 0
    (processMail host daemon [secondCopy] 0 [fine; fine; fine]
       (initial host [secondCopy] announcedStore ∅))
  = Some (Some MALFORMED_EMAIL) ∧
  store (processMail host daemon [secondCopy] 0 [fine; fine; fine]
           (initial host [secondCopy] announcedStore ∅))
  = ignoreThisEmailForever daemon secondCopy announcedStore.
Proof.
  eapply (conflicting_tombstoned host daemon [secondCopy] 0 secondCopy
            (initial host [secondCopy] announcedStore ∅)
            (lit "a@mit") _ _ (lit "club@mit") (lit "party, bcc'd to dorms")
            (lit "party") _ fine fine fine).
  - reflexivity.
  - reflexivity.
  - reflexivity.
  - reflexivity.
  - reflexivity.
  - reflexivity.
  - discriminate.
  - reflexivity.
  - vm_compute. reflexivity.
  - vm_compute. discriminate.
  - reflexivity.
  - reflexivity.
Defined.

(** The chatter is no dormspam. *)
Lemma not_dormspam_tombstoned_witness :
  outcome host 0
    (processMail host daemon [chatter] 0 [fine; fine; fine]
       (initial host [chatter] emptyStore ∅))
  = Some (Some NOT_DORMSPAM) ∧
  store (processMail host daemon [chatter] 0 [fine; fine; fine]
           (initial host [chatter] emptyStore ∅))
  = ignoreThisEmailForever daemon chatter emptyStore.
Proof.
  eapply (not_dormspam_tombstoned host daemon [chatter] 0 chatter
            (initial host [chatter] emptyStore ∅)
            (lit "b@mit") _ _ (lit "club@mit") (lit "see you there")
            (lit "party") fine fine fine).
  - reflexivity.
  - reflexivity.
  - reflexivity.
  - reflexivity.
  - reflexivity.
  - reflexivity.
  - discriminate.
  - reflexivity.
  - intros e He. vm_compute in He. discriminate.
  - vm_compute. reflexivity.
  - reflexivity.
  - reflexivity.
Defined.

(** The tombstone of the chatter keeps its uid out of the next run. *)
Lemma tombstoned_not_fetched_witness :
  ¬ In 2 (uids host daemon [1; 2; 3] (ignoreThisEmailForever daemon chatter emptyStore)) ∧
  ¬ In 2 (mailboxUids host daemon [1; 2; 3]
            (ignoreThisEmailForever daemon chatter emptyStore)).
Proof.
  apply (tombstoned_not_fetched host daemon [1; 2; 3]
           (ignoreThisEmailForever daemon chatter emptyStore) 2).
  - vm_compute. reflexivity.
  - simpl. auto.
Defined.

(** The stored series mail, handed to [processMail] again. *)
Lemma stored_email_rechecked_witness :
  store (processMail host daemon
           [storedTask host (seriesEmail 100 (lit "model-1")) seriesSender 0] 0
           [fine; fine]
           (initial host [storedTask host (seriesEmail 100 (lit "model-1")) seriesSender 0]
              (seriesStore 100 (lit "model-1")) seriesIndex))
  = seriesStore 100 (lit "model-1") ∧
  pcs (processMail host daemon
         [storedTask host (seriesEmail 100 (lit "model-1")) seriesSender 0] 0
         [fine; fine]
         (initial host [storedTask host (seriesEmail 100 (lit "model-1")) seriesSender 0]
            (seriesStore 100 (lit "model-1")) seriesIndex)) !! 0%nat
  = Some (AwaitUpsert (storedLocals host (seriesEmail 100 (lit "model-1")) seriesSender)
            (lit "series@mit")).
Proof.
  apply (stored_email_rechecked host daemon
           [storedTask host (seriesEmail 100 (lit "model-1")) seriesSender 0] 0
           (seriesEmail 100 (lit "model-1")) seriesSender 0
           (initial host [storedTask host (seriesEmail 100 (lit "model-1")) seriesSender 0]
              (seriesStore 100 (lit "model-1")) seriesIndex) fine fine).
  - reflexivity.
  - reflexivity.
  - vm_compute. reflexivity.
  - discriminate.
  - reflexivity.
Defined.

Example repliedRun_pc :
  pcs repliedRun !! 0%nat
  = Some (AwaitFindExisting seriesReplyLocals (lit "series@mit")).
Proof. vm_compute. reflexivity. Qed.

(** The reply to the series mail, the series mail being at the current
    model: the reply is marked, event 7 stays. *)
Lemma same_prompt_writes_no_event_witness :
  outcome host 0 (processMail host daemon [seriesReply] 0 [fine; fine] repliedRun)
  = Some (Some DORMSPAM_PROCESSED_WITH_SAME_PROMPT) ∧
  events (store (processMail host daemon [seriesReply] 0 [fine; fine] repliedRun))
  = events (store repliedRun) ∧
  vectordb (processMail host daemon [seriesReply] 0 [fine; fine] repliedRun)
  = vectordb repliedRun ∧
  ∃ e, email_findUnique (messageId seriesReplyLocals)
         (store (processMail host daemon [seriesReply] 0 [fine; fine] repliedRun))
       = Some e ∧
       e_modelName e = CURRENT_MODEL_NAME host.
Proof.
  apply (same_prompt_writes_no_event host daemon [seriesReply] 0 seriesReply repliedRun
           seriesReplyLocals (lit "series@mit") fine fine seriesEvent
           (seriesEmail 100 (lit "model-2"))).
  - reflexivity.
  - vm_compute. reflexivity.
  - reflexivity.
  - reflexivity.
  - vm_compute. reflexivity.
  - vm_compute. reflexivity.
  - reflexivity.
  - vm_compute. eauto.
Defined.

Example classifiedRun_pc :
  pcs classifiedRun !! 0%nat = Some (AwaitUpsert seriesLocals (lit "series@mit")).
Proof. vm_compute. reflexivity. Qed.

(** The series mail is at the current model and has event 7; handed to
    [processMail] once more, it is on its way to lose the event. *)
Lemma own_root_extracted_again_witness :
  pcs (processMail host daemon [seriesTask] 0 [fine; fine] classifiedRun) !! 0%nat
  = Some (AwaitDeleteMany seriesLocals (messageId seriesLocals)) ∧
  events (store (processMail host daemon [seriesTask] 0 [fine; fine] classifiedRun))
  = events (store classifiedRun) ∧
  ∃ e, email_findUnique (messageId seriesLocals)
         (store (processMail host daemon [seriesTask] 0 [fine; fine] classifiedRun))
       = Some e ∧
       e_modelName e = PROCESSING host.
Proof.
  apply (own_root_extracted_again host daemon [seriesTask] 0 seriesTask classifiedRun
           seriesLocals fine fine seriesEvent).
  - reflexivity.
  - vm_compute. reflexivity.
  - reflexivity.
  - reflexivity.
  - reflexivity.
  - vm_compute. reflexivity.
Defined.

(** The announcement is rejected by the oracle: it is stored under the
    current model name. *)
Lemma outcome_settles_witness :
  settledAs host daemon announcement emptyStore DORMSPAM_BUT_NOT_EVENT_BY_GPT_4
    (store (processMail host daemon [announcement] 0
              [fine; fine; fine; fine; fine; fine]
              (initial host [announcement] emptyStore ∅))).
Proof.
  apply (outcome_settles host daemon [announcement] 0 announcement
           (initial host [announcement] emptyStore ∅)
           [fine; fine; fine; fine; fine; fine]).
  - reflexivity.
  - reflexivity.
  - vm_compute. reflexivity.
Defined.

(** ** The store in a run of the event loop *)

Section StoreFacts.
Variable X : Externals.

(** X18.  What the merge of a candidate does to the store: it leaves the
    emails, the senders and the ledger alone, removes no event and keeps
    the ids of the stored events in place; every event that it has written
    or created holds the data of the candidate, anchored at the root of the
    thread. *)
Theorem mergeOne_store reply l rootMessageId event db index :
  emails (mergeOne X reply l rootMessageId event db index).1.1 = emails db ∧
  senders (mergeOne X reply l rootMessageId event db index).1.1 = senders db ∧
  ignoredEmails (mergeOne X reply l rootMessageId event db index).1.1
  = ignoredEmails db ∧
  (List.map ev_id (events (mergeOne X reply l rootMessageId event db index).1.1)
   = List.map ev_id (events db) ∨
   List.map ev_id (events (mergeOne X reply l rootMessageId event db index).1.1)
   = List.map ev_id (events db) ++ [nextEventId db]) ∧
  ∀ ev, In ev (events (mergeOne X reply l rootMessageId event db index).1.1) →
        In ev (events db) ∨
        ev_data ev = newEventData l rootMessageId event ∧
        d_fromEmailId (ev_data ev) = Some rootMessageId.
Proof.
  unfold mergeOne. cbv zeta.
  destruct (getEmbedding _ _) as [own|]; simpl; [|repeat split; auto].
  destruct (scanNeighbors X db _ _ _) as [[[[[title object] eventId] [|]]|]|]; simpl;
    try (repeat split; auto; fail).
  - unfold event_update.
    destruct (event_findUnique eventId db); [destruct (connects _ db)|]; simpl;
      try (repeat split; auto; fail).
    repeat split; auto.
    + left. rewrite List.map_map. apply List.map_ext_in. intros ev _.
      destruct (Z.eqb_spec (ev_id ev) eventId); [now subst | reflexivity].
    + intros ev Hin. apply in_map_iff in Hin as (old & <- & Hin).
      destruct (ev_id old =? eventId); auto.
  - unfold event_create.
    destruct (connects _ db); simpl; try (repeat split; auto; fail).
    repeat split; auto.
    + right. now rewrite List.map_app.
    + intros ev Hin. apply in_app_iff in Hin as [?|[<-|[]]]; auto.
Qed.

Lemma mergeOne_ledger reply l rootMessageId event db index db' index' merged :
  mergeOne X reply l rootMessageId event db index = (db', index', merged) →
  ignoredEmails db' = ignoredEmails db.
Proof.
  unfold mergeOne. cbv zeta.
  destruct (getEmbedding _ _) as [own|]; [|intros H; now injection H as <- _ _].
  destruct (scanNeighbors X db _ _ _) as [[[[[title object] eventId] [|]]|]|].
  - intros H. now injection H as <- _ _.
  - unfold event_update.
    destruct (event_findUnique eventId db); [destruct (connects _ db)|];
      intros H; now injection H as <- _ _.
  - unfold event_create.
    destruct (connects _ db); intros H; now injection H as <- _ _.
  - intros H. now injection H as <- _ _.
Qed.

Lemma storeChange_emails db db' :
  storeChange X db db' →
  emails db' = emails db ∨
  (∃ new, emails db' = emails db ++ [new] ∧
          email_findUnique (e_messageId new) db = None ∧
          connects (e_inReplyToId new) db = true) ∨
  (∃ m name, (name = PROCESSING X ∨ name = CURRENT_MODEL_NAME X) ∧
             emails db' = List.map (λ e, if jsstring_eqb (e_messageId e) m
                                         then setModelName name e else e)
                                   (emails db)).
Proof.
  intros [ |u uid r|new name db1 Hm Hu|m db1 Hu|root|reply l root event index index' merged db1 Hu].
  - auto.
  - left. unfold ignoredEmail_upsert. now destruct (ignoredHas u uid db).
  - unfold email_upsert, email_updateModelName in Hu.
    destruct (email_findUnique (e_messageId new) db) eqn:Ef.
    + injection Hu as <-. right. right. exists (e_messageId new), (PROCESSING X). auto.
    + destruct (connects (e_inReplyToId new) db) eqn:Ec; [|discriminate].
      injection Hu as <-. right. left. exists new. auto.
  - unfold email_updateModelName in Hu.
    destruct (email_findUnique m db); [|discriminate]. injection Hu as <-.
    right. right. exists m, (CURRENT_MODEL_NAME X). auto.
  - auto.
  - left. eapply mergeOne_emails. eassumption.
Qed.

Lemma storeChange_ledger db db' :
  storeChange X db db' →
  ignoredEmails db' = ignoredEmails db ∨
  ∃ ig, ignoredEmails db' = ignoredEmails db ++ [ig] ∧
        ignoredHas (i_scrapedBy ig) (i_uid ig) db = false.
Proof.
  intros [ |u uid r|new name db1 Hm Hu|m db1 Hu|root|reply l root event index index' merged db1 Hu].
  - auto.
  - unfold ignoredEmail_upsert. destruct (ignoredHas u uid db) eqn:E; [auto|].
    right. eexists. split; [reflexivity | exact E].
  - left. unfold email_upsert, email_updateModelName in Hu.
    destruct (email_findUnique (e_messageId new) db);
      [|destruct (connects (e_inReplyToId new) db); [|discriminate]];
      now injection Hu as <-.
  - left. unfold email_updateModelName in Hu.
    destruct (email_findUnique m db); [|discriminate]. now injection Hu as <-.
  - auto.
  - left. eapply mergeOne_ledger. eassumption.
Qed.

Lemma find_app_Some {A} (f : A → bool) l l' x :
  List.find f l = Some x → List.find f (l ++ l') = Some x.
Proof.
  induction l as [|y l IH]; simpl; [discriminate|].
  destruct (f y); [auto | exact IH].
Qed.

Lemma find_map_messageId (g : Email → Email) m l :
  (∀ e, e_messageId (g e) = e_messageId e) →
  List.find (λ e, jsstring_eqb (e_messageId e) m) (List.map g l)
  = option_map g (List.find (λ e, jsstring_eqb (e_messageId e) m) l).
Proof.
  intros Hg. induction l as [|e l IH]; simpl; [reflexivity|].
  rewrite Hg. destruct (jsstring_eqb (e_messageId e) m); [reflexivity | exact IH].
Qed.

Lemma sameButModelName_refl e : sameButModelName e e.
Proof. now destruct e. Qed.

Lemma sameButModelName_trans e1 e2 e3 :
  sameButModelName e1 e2 → sameButModelName e2 e3 → sameButModelName e1 e3.
Proof. unfold sameButModelName. intros -> ->. now destruct e1. Qed.

Lemma storeChange_persist db db' m e :
  storeChange X db db' → email_findUnique m db = Some e →
  ∃ e', email_findUnique m db' = Some e' ∧ sameButModelName e e' ∧
        (e_modelName e' = e_modelName e ∨ e_modelName e' = PROCESSING X ∨
         e_modelName e' = CURRENT_MODEL_NAME X).
Proof.
  intros Hc Hf. unfold email_findUnique in *.
  destruct (storeChange_emails _ _ Hc) as [-> | [(new & -> & _) | (m' & name & Hn & ->)]].
  - exists e. split; [exact Hf|]. split; [apply sameButModelName_refl | auto].
  - exists e. split; [now apply find_app_Some|].
    split; [apply sameButModelName_refl | auto].
  - rewrite find_map_messageId, Hf; cycle 1.
    { intros e0. now destruct (jsstring_eqb (e_messageId e0) m'). }
    simpl. eexists. split; [reflexivity|].
    destruct (jsstring_eqb (e_messageId e) m').
    + split; [reflexivity | simpl; tauto].
    + split; [apply sameButModelName_refl | auto].
Qed.

Lemma find_None_not_In m l :
  List.find (λ e, jsstring_eqb (e_messageId e) m) l = None →
  ¬ In m (List.map e_messageId l).
Proof.
  intros Hf Hin. apply in_map_iff in Hin as (e & <- & Hin).
  pose proof (List.find_none _ _ Hf e Hin) as H. simpl in H.
  unfold jsstring_eqb in H. now rewrite bool_decide_eq_true_2 in H.
Qed.

Lemma map_messageId_setModelName m name l :
  List.map e_messageId
    (List.map (λ e, if jsstring_eqb (e_messageId e) m then setModelName name e else e) l)
  = List.map e_messageId l.
Proof.
  rewrite List.map_map. apply List.map_ext. intros e.
  now destruct (jsstring_eqb (e_messageId e) m).
Qed.

Lemma storeChange_unique db db' :
  storeChange X db db' →
  List.NoDup (List.map e_messageId (emails db)) →
  List.NoDup (List.map e_messageId (emails db')).
Proof.
  intros Hc Hnd.
  destruct (storeChange_emails _ _ Hc) as [-> | [(new & -> & Hf & _) | (m' & name & Hn & ->)]].
  - exact Hnd.
  - rewrite List.map_app. simpl. apply NoDup_ListNoDup, NoDup_app.
    split; [now apply NoDup_ListNoDup|]. split; [|apply NoDup_singleton].
    intros m Hm ->%list_elem_of_singleton. apply list_elem_of_In in Hm.
    exact (find_None_not_In _ _ Hf Hm).
  - now rewrite map_messageId_setModelName.
Qed.

Lemma ignoredHas_false_not_In u uid db :
  ignoredHas u uid db = false →
  ¬ In (u, uid) (List.map ledgerKey (ignoredEmails db)).
Proof.
  unfold ignoredHas. intros Hf Hin. apply in_map_iff in Hin as (ig & Hk & Hin).
  apply not_true_iff_false in Hf. apply Hf. apply existsb_exists.
  exists ig. split; [exact Hin|]. unfold ledgerKey in Hk. injection Hk as -> ->.
  unfold jsstring_eqb. rewrite bool_decide_eq_true_2 by reflexivity.
  now rewrite Z.eqb_refl.
Qed.

Lemma storeChange_ledger_unique db db' :
  storeChange X db db' →
  List.NoDup (List.map ledgerKey (ignoredEmails db)) →
  List.NoDup (List.map ledgerKey (ignoredEmails db')).
Proof.
  intros Hc Hnd.
  destruct (storeChange_ledger _ _ Hc) as [-> | (ig & -> & Hf)]; [exact Hnd|].
  rewrite List.map_app. simpl. apply NoDup_ListNoDup, NoDup_app.
  split; [now apply NoDup_ListNoDup|]. split; [|apply NoDup_singleton].
  intros k Hk ->%list_elem_of_singleton. apply list_elem_of_In in Hk.
  exact (ignoredHas_false_not_In _ _ _ Hf Hk).
Qed.

Lemma parentsFirstFrom_app seen l l' :
  parentsFirstFrom seen (l ++ l')
  = parentsFirstFrom seen l &&
    parentsFirstFrom (rev (List.map e_messageId l) ++ seen) l'.
Proof.
  revert seen. induction l as [|e l IH]; intros seen; simpl; [reflexivity|].
  rewrite IH, <- app_assoc. simpl. now rewrite andb_assoc.
Qed.

Lemma parentsFirstFrom_setModelName m name seen l :
  parentsFirstFrom seen
    (List.map (λ e, if jsstring_eqb (e_messageId e) m then setModelName name e else e) l)
  = parentsFirstFrom seen l.
Proof.
  revert seen. induction l as [|e l IH]; intros seen; simpl; [reflexivity|].
  rewrite <- IH. now destruct (jsstring_eqb (e_messageId e) m).
Qed.

Lemma storeChange_parentsFirst db db' :
  storeChange X db db' → parentsFirst db → parentsFirst db'.
Proof.
  unfold parentsFirst. intros Hc Hpf.
  destruct (storeChange_emails _ _ Hc) as [-> | [(new & -> & _ & Hcon) | (m' & name & Hn & ->)]].
  - exact Hpf.
  - rewrite parentsFirstFrom_app, Hpf. simpl. rewrite andb_true_r.
    destruct (e_inReplyToId new) as [p|]; [|reflexivity].
    apply bool_decide_eq_true. rewrite app_nil_r.
    apply list_elem_of_In, in_rev. rewrite rev_involutive.
    unfold connects in Hcon. apply bool_decide_eq_true in Hcon as [parent Hparent].
    pose proof (email_findUnique_messageId _ _ _ Hparent) as <-.
    apply in_map. unfold email_findUnique in Hparent.
    now apply List.find_some in Hparent as [? _].
  - now rewrite parentsFirstFrom_setModelName.
Qed.
End StoreFacts.

Section RunStoreFacts.
Variable X : Externals.
Variable scrapedBy : jsstring.
Variable tasks : list Task.

Lemma body_storeChange i t reply p s s' br :
  body X scrapedBy i t reply p s = (s', br) →
  storeChange X (store s) (store s').
Proof.
  intros H. body_cases H.
  all: try (apply sc_none).
  all: try (apply sc_ignore).
  all: try (apply sc_deleteMany).
  all: try (eapply sc_upsert; [|eassumption]; reflexivity).
  all: try (eapply sc_mark; eassumption).
  all: try (eapply sc_merge; eassumption).
Qed.

Lemma step_storeChange s s' :
  step X scrapedBy tasks s s' → storeChange X (store s) (store s').
Proof.
  intros Hstep. inversion Hstep as [i reply s0 s1 He|k ok s0 s1 He]; subst.
  - unfold processMailStep in He.
    destruct (tasks !! i) as [t|]; [|discriminate].
    destruct (pcs s !! i) as [p|]; [|discriminate]. simpl in He.
    destruct (enabled X p s); [|discriminate]. injection He as <-.
    destruct (body X scrapedBy i t reply p s) as [s1 br] eqn:Hb.
    apply body_storeChange in Hb. destruct br; exact Hb.
  - unfold settle in He.
    destruct (unawaited s !! k) as [[i m]|]; [|discriminate]. simpl in He.
    destruct ok; [|injection He as <-; apply sc_none].
    destruct (markProcessedByCurrentModel X m (store s)) as [db|] eqn:Em;
      injection He as <-; [|apply sc_none].
    eapply sc_mark. exact Em.
Qed.

Lemma reachable_store (P : Store → Prop) db index :
  P db → (∀ d d', P d → storeChange X d d' → P d') →
  ∀ s, reachable X scrapedBy tasks db index s → P (store s).
Proof.
  intros H0 Hstep.
  apply (rtc_ind_r (λ s, P (store s)) (initial X tasks db index)); [exact H0|].
  intros s s' _ Hs IH. eapply Hstep; [exact IH | now apply step_storeChange].
Qed.

(** X19.  No run deletes a stored email or rewrites it: an email that the
    store holds when the run starts is found under its message id in every
    state of the run, with the fields it had but for the model name, and
    its model name is the one it had, "processing" or the current one. *)
Theorem emails_never_deleted db index s m e :
  reachable X scrapedBy tasks db index s →
  email_findUnique m db = Some e →
  ∃ e', email_findUnique m (store s) = Some e' ∧ sameButModelName e e' ∧
        (e_modelName e' = e_modelName e ∨ e_modelName e' = PROCESSING X ∨
         e_modelName e' = CURRENT_MODEL_NAME X).
Proof.
  intros Hr Hf. revert s Hr.
  apply (reachable_store
           (λ d, ∃ e', email_findUnique m d = Some e' ∧ sameButModelName e e' ∧
                       (e_modelName e' = e_modelName e ∨
                        e_modelName e' = PROCESSING X ∨
                        e_modelName e' = CURRENT_MODEL_NAME X))).
  - exists e. split; [exact Hf|]. split; [apply sameButModelName_refl | auto].
  - intros d d' (e1 & Hf1 & Hsame1 & Hname1) Hc.
    destruct (storeChange_persist X d d' m e1 Hc Hf1) as (e2 & Hf2 & Hsame2 & Hname2).
    exists e2. split; [exact Hf2|].
    split; [eapply sameButModelName_trans; eassumption|].
    destruct Hname2 as [-> | [-> | ->]]; auto.
Qed.

(** X20.  The message ids of the stored emails stay unique in every run:
    the upsert creates a row only for a message id that is not stored. *)
Theorem messageIds_stay_unique db index s :
  reachable X scrapedBy tasks db index s →
  List.NoDup (List.map e_messageId (emails db)) →
  List.NoDup (List.map e_messageId (emails (store s))).
Proof.
  intros Hr Hnd. revert s Hr.
  apply (reachable_store (λ d, List.NoDup (List.map e_messageId (emails d))));
    [exact Hnd|].
  intros d d' Hd Hc. now apply (storeChange_unique X d d').
Qed.

(** X21.  The ledger of ignored mails only grows in a run: its rows stay
    as they are and where they are, new rows are added at the end, and no
    key (scrapedBy, uid) is entered twice. *)
Theorem ledger_only_grows db index s :
  reachable X scrapedBy tasks db index s →
  (∃ more, ignoredEmails (store s) = ignoredEmails db ++ more) ∧
  (List.NoDup (List.map ledgerKey (ignoredEmails db)) →
   List.NoDup (List.map ledgerKey (ignoredEmails (store s)))).
Proof.
  intros Hr. split.
  - revert s Hr.
    apply (reachable_store (λ d, ∃ more, ignoredEmails d = ignoredEmails db ++ more)).
    + exists []. now rewrite app_nil_r.
    + intros d d' [more Hd] Hc.
      destruct (storeChange_ledger X d d' Hc) as [-> | (ig & -> & _)]; [eauto|].
      exists (more ++ [ig]). now rewrite Hd, app_assoc.
  - intros Hnd. revert s Hr.
    apply (reachable_store (λ d, List.NoDup (List.map ledgerKey (ignoredEmails d))));
      [exact Hnd|].
    intros d d' Hd Hc. now apply (storeChange_ledger_unique X d d').
Qed.

(** X22.  No run stores a reply before its parent: if in the store of the
    start every email that replies to another comes after it, so it is in
    every state of the run.  (The upsert connects a new email to its parent
    and fails when the parent is not stored.) *)
Theorem parents_stay_first db index s :
  reachable X scrapedBy tasks db index s →
  parentsFirst db → parentsFirst (store s).
Proof.
  intros Hr Hpf. revert s Hr. apply (reachable_store parentsFirst); [exact Hpf|].
  intros d d' Hd Hc. now apply (storeChange_parentsFirst X d d').
Qed.
End RunStoreFacts.

(** A reply to the stored series mail, in a run. *)
Lemma emails_never_deleted_witness :
  ∃ e', email_findUnique (lit "series@mit") (store repliedRun) = Some e' ∧
        sameButModelName (seriesEmail 100 (lit "model-2")) e' ∧
        (e_modelName e' = e_modelName (seriesEmail 100 (lit "model-2")) ∨
         e_modelName e' = PROCESSING host ∨
         e_modelName e' = CURRENT_MODEL_NAME host).
Proof.
  apply (emails_never_deleted host daemon [seriesReply]
           (seriesStore 100 (lit "model-2")) seriesIndex repliedRun).
  - unfold repliedRun. repeat apply processMail_reachable. apply rtc_refl.
  - vm_compute. reflexivity.
Defined.

Lemma messageIds_stay_unique_witness :
  List.NoDup (List.map e_messageId (emails (store repliedRun))).
Proof.
  apply (messageIds_stay_unique host daemon [seriesReply]
           (seriesStore 100 (lit "model-2")) seriesIndex repliedRun).
  - unfold repliedRun. repeat apply processMail_reachable. apply rtc_refl.
  - repeat constructor. simpl. tauto.
Defined.

(** The run that tombstones the chatter. *)
Lemma ledger_only_grows_witness :
  (∃ more, ignoredEmails (store tombstoneRun) = ignoredEmails emptyStore ++ more) ∧
  (List.NoDup (List.map ledgerKey (ignoredEmails emptyStore)) →
   List.NoDup (List.map ledgerKey (ignoredEmails (store tombstoneRun)))).
Proof.
  apply (ledger_only_grows host daemon [announcement; chatter] emptyStore ∅
           tombstoneRun).
  unfold tombstoneRun. repeat apply processMail_reachable. apply rtc_refl.
Defined.

Lemma parents_stay_first_witness : parentsFirst (store repliedRun).
Proof.
  apply (parents_stay_first host daemon [seriesReply]
           (seriesStore 100 (lit "model-2")) seriesIndex repliedRun).
  - unfold repliedRun. repeat apply processMail_reachable. apply rtc_refl.
  - reflexivity.
Defined.

(** ** The walk to the root of a thread *)

Lemma parent_rank l : ∀ seen id e p,
  parentsFirstFrom seen l = true →
  List.find (λ e, jsstring_eqb (e_messageId e) id) l = Some e →
  e_inReplyToId e = Some p →
  p ∈ seen ∨
  ∃ e', List.find (λ e, jsstring_eqb (e_messageId e) p) l = Some e' ∧
        (rank p l < rank id l)%nat.
Proof.
  induction l as [|x l IH]; intros seen id e p Hpf Hf Hp; simpl in *; [discriminate|].
  apply andb_true_iff in Hpf as [Hx Hrest].
  destruct (jsstring_eqb (e_messageId x) id) eqn:Eid.
  - injection Hf as <-. rewrite Hp in Hx. left. now apply bool_decide_eq_true in Hx.
  - destruct (IH _ _ _ _ Hrest Hf Hp) as [Hin | (e' & Hf' & Hlt)].
    + apply elem_of_cons in Hin as [-> | Hin]; [|now left].
      right. exists x.
      assert (Hself : jsstring_eqb (e_messageId x) (e_messageId x) = true)
        by now apply jsstring_eqb_eq.
      rewrite !Hself. split; [reflexivity | lia].
    + right. destruct (jsstring_eqb (e_messageId x) p).
      * exists x. split; [reflexivity | lia].
      * exists e'. split; [exact Hf' | lia].
Qed.

Lemma rank_le id l : (rank id l ≤ length l)%nat.
Proof.
  induction l as [|x l IH]; simpl; [lia|].
  destruct (jsstring_eqb (e_messageId x) id); lia.
Qed.

Lemma rootOf_total db fuel : ∀ id e,
  parentsFirst db →
  email_findUnique id db = Some e →
  (rank id (emails db) ≤ fuel)%nat →
  is_Some (rootOf db fuel id).
Proof.
  induction fuel as [|fuel IH]; intros id e Hpf Hf Hrank.
  all: destruct (e_inReplyToId e) as [next|] eqn:En.
  all: try (destruct fuel; simpl; rewrite Hf, En; eauto; fail).
  all: try (simpl; rewrite Hf, En; eauto; fail).
  all: destruct (parent_rank _ _ _ _ _ Hpf Hf En) as [Hin | (e' & Hf' & Hlt)];
    [now apply elem_of_nil in Hin|].
  - lia.
  - simpl. rewrite Hf, En. apply (IH next e' Hpf Hf'). lia.
Qed.

Lemma rootOf_root db fuel : ∀ id root,
  rootOf db fuel id = Some root → e_inReplyToId root = None.
Proof.
  induction fuel as [|fuel IH]; intros id root; simpl.
  all: destruct (email_findUnique id db) as [e|]; [|discriminate].
  all: destruct (e_inReplyToId e) as [next|] eqn:En.
  all: try discriminate.
  all: try (intros H; now injection H as <-).
  apply IH.
Qed.

Section WalkFacts.
Variable X : Externals.
Variable scrapedBy : jsstring.
Variable tasks : list Task.

Lemma walk_to_root fuel : ∀ s i t l inReplyToEmail nextId replies root,
  tasks !! i = Some t →
  pcs s !! i = Some (AwaitFindNextRoot l inReplyToEmail nextId) →
  rootOf (store s) fuel nextId = Some root →
  Forall succeeds replies → (fuel < length replies)%nat →
  ∃ n, (n ≤ S fuel)%nat ∧
    store (processMail X scrapedBy tasks i (take n replies) s) = store s ∧
    pcs (processMail X scrapedBy tasks i (take n replies) s) !! i
    = Some (match processingTasks s !! e_messageId inReplyToEmail with
            | Some d => AwaitPrevDeferred l (e_messageId root) d
            | None => AwaitUpsert l (e_messageId root)
            end).
Proof.
  induction fuel as [|fuel IH]; intros s i t l e0 nextId replies root Ht Hp Hroot Hok Hlen.
  all: destruct replies as [|reply replies]; [simpl in Hlen; lia|].
  all: apply Forall_cons in Hok as [Hr Hok]; unfold succeeds in Hr.
  all: simpl in Hroot.
  all: destruct (email_findUnique nextId (store s)) as [e|] eqn:Ef; [|discriminate].
  all: destruct (e_inReplyToId e) as [next|] eqn:En; try discriminate.
  all: try (injection Hroot as <-).
  - exists 1%nat. split; [lia|]. cbn [take processMail].
    rewrite (processMailStep_body X scrapedBy tasks i t _ reply s Ht Hp eq_refl).
    cbn [body]. rewrite Hr, Ef. unfold walk, rootFound. rewrite En.
    destruct (processingTasks s !! e_messageId e0); cbn [finally];
      (split; [reflexivity | eapply setPc_lookup; simpl; eassumption]).
  - destruct (IH (setPc X i (AwaitFindNextRoot l e0 next) s) i t l e0 next replies root)
      as (n & Hn & Hs & Hpc); auto.
    + eapply setPc_lookup; eassumption.
    + simpl in Hlen. lia.
    + exists (S n). split; [lia|]. cbn [take processMail].
      rewrite (processMailStep_body X scrapedBy tasks i t _ reply s Ht Hp eq_refl).
      cbn [body]. rewrite Hr, Ef. unfold walk. rewrite En. cbn [finally].
      split; [exact Hs | exact Hpc].
  - exists 1%nat. split; [lia|]. cbn [take processMail].
    rewrite (processMailStep_body X scrapedBy tasks i t _ reply s Ht Hp eq_refl).
    cbn [body]. rewrite Hr, Ef. unfold walk, rootFound. rewrite En.
    destruct (processingTasks s !! e_messageId e0); cbn [finally];
      (split; [reflexivity | eapply setPc_lookup; simpl; eassumption]).
Qed.

(** X23.  The walk up a reply chain ends.  In a store in which every reply
    comes after its parent (as in every store that this code has built), a
    call whose parent is stored finds the root of the thread, an email that
    replies to nothing, after at most one lookup more than there are
    emails, the store calls succeeding; it then has the root's message id as
    [rootMessageId] and waits for the parent's handle if
    [processingTasks] has one, and has written nothing. *)
Theorem root_walk_terminates i t l parentId s replies parent :
  tasks !! i = Some t →
  pcs s !! i = Some (AwaitFindParent l parentId) →
  parentsFirst (store s) →
  email_findUnique parentId (store s) = Some parent →
  Forall succeeds replies →
  (length (emails (store s)) < length replies)%nat →
  ∃ n root,
    (n ≤ S (length (emails (store s))))%nat ∧
    rootOf (store s) (length (emails (store s))) parentId = Some root ∧
    e_inReplyToId root = None ∧
    store (processMail X scrapedBy tasks i (take n replies) s) = store s ∧
    pcs (processMail X scrapedBy tasks i (take n replies) s) !! i
    = Some (match processingTasks s !! parentId with
            | Some d => AwaitPrevDeferred l (e_messageId root) d
            | None => AwaitUpsert l (e_messageId root)
            end).
Proof.
  intros Ht Hp Hpf Hf Hok Hlen.
  destruct (rootOf_total (store s) (length (emails (store s))) parentId parent Hpf Hf
              (rank_le _ _)) as [root Hroot].
  pose proof (rootOf_root _ _ _ _ Hroot) as Hnone.
  pose proof (email_findUnique_messageId _ _ _ Hf) as Hid.
  destruct replies as [|reply replies]; [simpl in Hlen; lia|].
  apply Forall_cons in Hok as [Hr Hok]. unfold succeeds in Hr.
  destruct (length (emails (store s))) as [|fuel] eqn:Elen.
  - exists 1%nat, root. split; [lia|]. split; [exact Hroot|]. split; [exact Hnone|].
    simpl in Hroot. rewrite Hf in Hroot.
    destruct (e_inReplyToId parent) as [next|] eqn:En; [discriminate|].
    injection Hroot as <-.
    cbn [take processMail].
    rewrite (processMailStep_body X scrapedBy tasks i t _ reply s Ht Hp eq_refl).
    cbn [body]. rewrite Hr, Hf. unfold walk, rootFound. rewrite En, Hid.
    destruct (processingTasks s !! parentId); cbn [finally];
      (split; [reflexivity | eapply setPc_lookup; simpl; eassumption]).
  - simpl in Hroot. rewrite Hf in Hroot.
    destruct (e_inReplyToId parent) as [next|] eqn:En.
    + destruct (walk_to_root fuel (setPc X i (AwaitFindNextRoot l parent next) s)
                  i t l parent next replies root) as (n & Hn & Hs & Hpc); auto.
      * eapply setPc_lookup; eassumption.
      * simpl in Hlen. lia.
      * exists (S n), root. split; [lia|].
        split; [simpl; now rewrite Hf, En|]. split; [exact Hnone|].
        cbn [take processMail].
        rewrite (processMailStep_body X scrapedBy tasks i t _ reply s Ht Hp eq_refl).
        cbn [body]. rewrite Hr, Hf. unfold walk. rewrite En. cbn [finally].
        rewrite Hid in Hpc. split; [exact Hs | exact Hpc].
    + injection Hroot as <-.
      exists 1%nat, parent. split; [lia|].
      split; [simpl; now rewrite Hf, En|]. split; [exact En|].
      cbn [take processMail].
      rewrite (processMailStep_body X scrapedBy tasks i t _ reply s Ht Hp eq_refl).
      cbn [body]. rewrite Hr, Hf. unfold walk, rootFound. rewrite En, Hid.
      destruct (processingTasks s !! parentId); cbn [finally];
        (split; [reflexivity | eapply setPc_lookup; simpl; eassumption]).
Qed.
End WalkFacts.

(** The reply to the series mail finds the series mail, the root, with one
    lookup. *)
Lemma root_walk_terminates_witness :
  ∃ n root,
    (n ≤ S (length (emails (store askedRun))))%nat ∧
    rootOf (store askedRun) (length (emails (store askedRun))) (lit "series@mit")
    = Some root ∧
    e_inReplyToId root = None ∧
    store (processMail host daemon [seriesReply] 0 (take n [fine; fine]) askedRun)
    = store askedRun ∧
    pcs (processMail host daemon [seriesReply] 0 (take n [fine; fine]) askedRun) !! 0%nat
    = Some (match processingTasks askedRun !! lit "series@mit" with
            | Some d => AwaitPrevDeferred seriesReplyLocals (e_messageId root) d
            | None => AwaitUpsert seriesReplyLocals (e_messageId root)
            end).
Proof.
  apply (root_walk_terminates host daemon [seriesReply] 0 seriesReply
           seriesReplyLocals (lit "series@mit") askedRun [fine; fine]
           (seriesEmail 100 (lit "model-2"))).
  - reflexivity.
  - vm_compute. reflexivity.
  - reflexivity.
  - vm_compute. reflexivity.
  - repeat constructor.
  - vm_compute. lia.
Defined.

(** ** The registration of the handle *)

Section RegisterFacts.
Variable X : Externals.
Variable scrapedBy : jsstring.
Variable tasks : list Task.

Lemma actOk_taskOf i t p br (s : State X) a :
  actOk X i t p br s a → taskOf a = i.
Proof. destruct a; simpl; intuition. Qed.

Lemma body_started i t reply p s s' next :
  body X scrapedBy i t reply p s = (s', Continue next) → next ≠ NotStarted.
Proof. intros H. body_cases H; discriminate. Qed.

Lemma body_registers i t reply s s' br m :
  body X scrapedBy i t reply NotStarted s = (s', br) →
  p_messageId (t_parsed t) = Some m →
  history s' = Register i m :: history s.
Proof. intros H Hm. body_cases H; reflexivity. Qed.

Lemma processMailStep_history j reply s s' :
  processMailStep X scrapedBy tasks j reply s = Some s' →
  ∃ t p p' new,
    tasks !! j = Some t ∧ pcs s !! j = Some p ∧
    pcs s' = <[j := p']> (pcs s) ∧ p' ≠ NotStarted ∧
    history s' = new ++ history s ∧
    Forall (λ a, taskOf a = j) new ∧
    (p = NotStarted → ∀ m, p_messageId (t_parsed t) = Some m →
       ∃ later, new = later ++ [Register j m]).
Proof.
  unfold processMailStep. intros H.
  destruct (tasks !! j) as [t|] eqn:Ht; [|discriminate].
  destruct (pcs s !! j) as [p|] eqn:Hp; [|discriminate]. simpl in H.
  destruct (enabled X p s) eqn:He; [|discriminate]. injection H as <-.
  destruct (body X scrapedBy j t reply p s) as [s1 br] eqn:Hb.
  destruct (body_history _ _ _ _ _ _ _ _ _ Hb) as [acts [Hh Hacts]].
  pose proof (body_pcs _ _ _ _ _ _ _ _ _ Hb) as Hpcs.
  assert (Htask : Forall (λ a, taskOf a = j) acts).
  { eapply Forall_impl; [exact Hacts|]. intros a. apply actOk_taskOf. }
  assert (Hreg : p = NotStarted → ∀ m, p_messageId (t_parsed t) = Some m →
                 acts = [Register j m]).
  { intros -> m Hm. pose proof (body_registers _ _ _ _ _ _ _ Hb Hm) as Hr.
    rewrite Hh in Hr. change (Register j m :: history s)
      with ([Register j m] ++ history s) in Hr.
    now apply app_inv_tail in Hr. }
  exists t, p.
  destruct br as [next|r|]; cbn [finally].
  - exists next, acts. simpl. rewrite Hpcs, Hh. repeat split; auto.
    + eapply body_started. exact Hb.
    + intros Hns m Hm. exists []. now apply Hreg.
  - exists (Exited (Some r)), (Resolve j :: acts). simpl. rewrite Hpcs, Hh.
    repeat split; auto.
    intros Hns m Hm. exists [Resolve j]. simpl. f_equal. now apply Hreg.
  - exists (Exited None), (Resolve j :: acts). simpl. rewrite Hpcs, Hh.
    repeat split; auto.
    intros Hns m Hm. exists [Resolve j]. simpl. f_equal. now apply Hreg.
Qed.

Lemma registered_inv db index s :
  reachable X scrapedBy tasks db index s →
  ∀ i t p, tasks !! i = Some t → pcs s !! i = Some p →
    (p = NotStarted → Forall (λ a, taskOf a ≠ i) (history s)) ∧
    (p ≠ NotStarted → ∀ m, p_messageId (t_parsed t) = Some m →
       ∃ later earlier, history s = later ++ Register i m :: earlier ∧
                        Forall (λ a, taskOf a ≠ i) earlier).
Proof.
  revert s.
  apply (rtc_ind_r
    (λ s, ∀ i t p, tasks !! i = Some t → pcs s !! i = Some p →
       (p = NotStarted → Forall (λ a, taskOf a ≠ i) (history s)) ∧
       (p ≠ NotStarted → ∀ m, p_messageId (t_parsed t) = Some m →
          ∃ later earlier, history s = later ++ Register i m :: earlier ∧
                           Forall (λ a, taskOf a ≠ i) earlier))
    (initial X tasks db index)).
  - intros i t p Ht Hp. simpl in Hp. apply lookup_replicate in Hp as [-> _].
    split; [constructor | congruence].
  - intros s s' Hs Hstep IH i t p' Ht Hp'.
    pose proof (reachable_inv X scrapedBy tasks db index s Hs) as Hinv.
    inversion Hstep as [j reply s0 s1 He|k ok s0 s1 He]; subst.
    + destruct (processMailStep_history _ _ _ _ He)
        as (tj & p & q & new & Htj & Hp & Hpcs & Hq & Hh & Hnew & Hreg).
      rewrite Hpcs in Hp'. destruct (decide (i = j)) as [->|Hij].
      * rewrite list_lookup_insert_eq in Hp' by (eapply lookup_lt_Some; exact Hp).
        injection Hp' as <-. rewrite Ht in Htj. injection Htj as <-.
        split; [congruence|]. intros _ m Hm.
        destruct (IH j t p Ht Hp) as [IH0 IH1].
        assert (Hcase : p = NotStarted ∨ p ≠ NotStarted)
          by (destruct p; auto; right; discriminate).
        destruct Hcase as [Hns|Hns].
        -- destruct (Hreg Hns m Hm) as [later ->].
           exists later, (history s). rewrite Hh, <- app_assoc. split; [reflexivity|].
           now apply IH0.
        -- destruct (IH1 Hns m Hm) as (later & earlier & Hhist & Hearlier).
           exists (new ++ later), earlier. rewrite Hh, Hhist, <- app_assoc.
           split; [reflexivity | exact Hearlier].
      * rewrite list_lookup_insert_ne in Hp' by congruence.
        destruct (IH i t p' Ht Hp') as [IH0 IH1].
        assert (Hother : Forall (λ a, taskOf a ≠ i) new).
        { eapply Forall_impl; [exact Hnew|]. simpl. intros a ->. congruence. }
        split.
        -- intros Hns. rewrite Hh. apply Forall_app. split; [exact Hother | now apply IH0].
        -- intros Hns m Hm.
           destruct (IH1 Hns m Hm) as (later & earlier & Hhist & Hearlier).
           exists (new ++ later), earlier. rewrite Hh, Hhist, <- app_assoc.
           split; [reflexivity | exact Hearlier].
    + unfold settle in He.
      destruct (unawaited s !! k) as [[b m0]|] eqn:Ek; [|discriminate]. simpl in He.
      assert (Hcase : pcs s' = pcs s ∧
                ∃ a, history s' = a :: history s ∧ taskOf a = b).
      { destruct ok; [|injection He as <-; simpl; eauto].
        destruct (markProcessedByCurrentModel X m0 (store s));
          injection He as <-; simpl; eauto. }
      destruct Hcase as (Hpcs & a & Hh & Ha). rewrite Hpcs in Hp'.
      destruct (IH i t p' Ht Hp') as [IH0 IH1]. rewrite Hh.
      assert (Hb : ∃ o, pcs s !! b = Some (Exited o)).
      { apply (inv_unawaited X tasks s Hinv b m0).
        apply list_elem_of_In. eapply list_elem_of_lookup_2. exact Ek. }
      destruct Hb as [o Hb]. split.
      * intros ->. constructor; [|now apply IH0].
        rewrite Ha. intros ->. rewrite Hb in Hp'. discriminate.
      * intros Hns m Hm.
        destruct (IH1 Hns m Hm) as (later & earlier & Hhist & Hearlier).
        exists (a :: later), earlier. rewrite Hhist.
        split; [reflexivity | exact Hearlier].
Qed.

(** X24.  The handle of a call is registered before the call does anything
    else.  In every state of every run, a call that has been made and whose
    mail has a message id has recorded the registration of its deferred in
    [processingTasks], and nothing that the call has done comes before it:
    no lookup, no write, no resolve. *)
Theorem registered_before_anything_else db index s i t m p :
  reachable X scrapedBy tasks db index s →
  tasks !! i = Some t → p_messageId (t_parsed t) = Some m →
  pcs s !! i = Some p → p ≠ NotStarted →
  ∃ later earlier,
    history s = later ++ Register i m :: earlier ∧
    Forall (λ a, taskOf a ≠ i) earlier.
Proof.
  intros Hr Ht Hm Hp Hns.
  destruct (registered_inv db index s Hr i t p Ht Hp) as [_ H]. now apply H.
Qed.
End RegisterFacts.

(** In the ordered run the follow-up has registered its handle before its
    lookup of the announcement's. *)
Lemma registered_before_anything_else_witness :
  ∃ later earlier,
    history orderedRun = later ++ Register 1 (lit "c@mit") :: earlier ∧
    Forall (λ a, taskOf a ≠ 1%nat) earlier.
Proof.
  eapply (registered_before_anything_else host daemon [announcement; followUp]
            emptyStore ∅ orderedRun 1 followUp (lit "c@mit") _).
  - unfold orderedRun. repeat apply processMail_reachable. apply rtc_refl.
  - reflexivity.
  - reflexivity.
  - vm_compute. reflexivity.
  - discriminate.
Defined.

(** ** More of the merge and of the success path *)

Section MoreFacts.
Variable X : Externals.
Variable scrapedBy : jsstring.
Variable tasks : list Task.

(** X25.  An event id that the index lists and the store does not hold is
    passed over: the scan of a neighbour's ids answers as it does on the
    ids whose events are stored. *)
Theorem scanEventIds_skips_missing db candidate ids :
  scanEventIds X db candidate ids
  = scanEventIds X db candidate
      (List.filter (λ id, bool_decide (is_Some (event_findUnique id db))) ids).
Proof.
  induction ids as [|id ids IH]; simpl; [reflexivity|].
  destruct (event_findUnique id db) as [other|] eqn:Ef.
  - rewrite bool_decide_eq_true_2 by eauto. simpl. rewrite Ef.
    destruct (mergeEvents _ _ candidate (storedInput db other)) as [[| |]|];
      simpl; auto.
  - rewrite bool_decide_eq_false_2 by (intros [? ?]; discriminate). exact IH.
Qed.

(** X26.  A mail that replies to nothing is its own root and waits for
    nobody: once it has passed validation, the identity check and the
    classifier, the call is at the upsert with its own message id as
    [rootMessageId]; it has registered its handle, has not consulted
    [processingTasks] and has not written to the store. *)
Theorem root_mail_is_own_root i t s mid r1 r2 :
  tasks !! i = Some t →
  pcs s !! i = Some NotStarted →
  passesChecks X (store s) t mid →
  p_inReplyTo (t_parsed t) = None →
  succeeds r2 →
  ∃ l, pcs (processMail X scrapedBy tasks i [r1; r2] s) !! i = Some (AwaitUpsert l mid) ∧
       messageId l = mid ∧
       receivedAt l = receivedAtOfTask t ∧
       store (processMail X scrapedBy tasks i [r1; r2] s) = store s ∧
       history (processMail X scrapedBy tasks i [r1; r2] s)
       = Register i mid :: history s.
Proof.
  intros Ht Hp (sender & others & address & html & subject & Hmid & Hfrom
                & Haddr & Hhtml & Hne & Hsubj & Huid & Hspam) Hroot Hr2.
  unfold succeeds in Hr2.
  cbn [processMail]. rewrite (processMailStep_body X scrapedBy tasks i t _ r1 s Ht Hp eq_refl).
  cbn [body]. unfold start. rewrite Hmid, Hfrom, Haddr, Hhtml, Hsubj.
  destruct html as [|c html']; [congruence|]. cbn [finally].
  set (s1 := setPc X i _ _).
  assert (Hp1 : pcs s1 !! i =
                Some (AwaitFindSelf mid address (ea_name sender) (c :: html') subject)).
  { eapply setPc_lookup. simpl. eassumption. }
  rewrite (processMailStep_body X scrapedBy tasks i t _ r2 s1 Ht Hp1 eq_refl).
  cbn [body]. rewrite Hr2.
  change (store s1) with (store s).
  replace (match email_findUnique mid (store s) with
           | Some e => negb (e_uid e =? t_uid t)
           | None => false
           end) with false
    by (destruct (email_findUnique mid (store s)) as [e|] eqn:E;
        [rewrite (Huid e eq_refl), Z.eqb_refl|]; reflexivity).
  rewrite Hspam, Hroot. cbn [negb finally].
  eexists. split; [eapply setPc_lookup; exact Hp1|].
  repeat split; reflexivity.
Qed.

(** X27.  The end of the success path.  When the unawaited call of
    [markProcessedByCurrentModel()] of a call that has returned
    DORMSPAM_WITH_EVENT settles without an error, the mail is stored under
    the current model name; the events are as the call left them. *)
Theorem success_marked_when_settled i t s replies k mid s'' :
  tasks !! i = Some t →
  pcs s !! i = Some NotStarted →
  outcome X i (processMail X scrapedBy tasks i replies s)
  = Some (Some DORMSPAM_WITH_EVENT) →
  p_messageId (t_parsed t) = Some mid →
  unawaited (processMail X scrapedBy tasks i replies s) !! k = Some (i, mid) →
  settle X k true (processMail X scrapedBy tasks i replies s) = Some s'' →
  (∃ e, email_findUnique mid (store s'') = Some e ∧
        e_modelName e = CURRENT_MODEL_NAME X) ∧
  events (store s'') = events (store (processMail X scrapedBy tasks i replies s)) ∧
  outcome X i s'' = Some (Some DORMSPAM_WITH_EVENT).
Proof.
  intros Ht Hp Hout Hmid Hk Hsettle.
  destruct (processMail_tracked X scrapedBy tasks (store s) i t replies s NotStarted
              Ht Hp eq_refl) as (p' & Hp' & Hset).
  pose proof Hout as Hout'. unfold outcome in Hout'. rewrite Hp' in Hout'.
  destruct p'; try discriminate. injection Hout' as ->.
  simpl in Hset. destruct Hset as (mid' & e & Hmid' & He & _).
  rewrite Hmid in Hmid'. injection Hmid' as <-.
  unfold settle in Hsettle. rewrite Hk in Hsettle. simpl in Hsettle.
  unfold markProcessedByCurrentModel, email_updateModelName in Hsettle.
  rewrite He in Hsettle. injection Hsettle as <-. simpl.
  split; [|split; [reflexivity | exact Hout]].
  destruct (email_updateModelName_found mid (CURRENT_MODEL_NAME X)
              (store (processMail X scrapedBy tasks i replies s))
              (withEmails
                 (List.map (λ e0, if jsstring_eqb (e_messageId e0) mid
                                  then setModelName (CURRENT_MODEL_NAME X) e0 else e0))
                 (store (processMail X scrapedBy tasks i replies s))))
    as (e' & He' & Hn & _).
  { unfold email_updateModelName. now rewrite He. }
  eauto.
Qed.
End MoreFacts.

(** The announcement replies to nothing. *)
Lemma root_mail_is_own_root_witness :
  ∃ l, pcs (processMail host daemon [announcement] 0 [fine; fine]
              (initial host [announcement] emptyStore ∅)) !! 0%nat
       = Some (AwaitUpsert l (lit "a@mit")) ∧
       messageId l = lit "a@mit" ∧
       receivedAt l = receivedAtOfTask announcement ∧
       store (processMail host daemon [announcement] 0 [fine; fine]
                (initial host [announcement] emptyStore ∅))
       = store (initial host [announcement] emptyStore ∅) ∧
       history (processMail host daemon [announcement] 0 [fine; fine]
                  (initial host [announcement] emptyStore ∅))
       = Register 0 (lit "a@mit") :: history (initial host [announcement] emptyStore ∅).
Proof.
  apply (root_mail_is_own_root host daemon [announcement] 0 announcement
           (initial host [announcement] emptyStore ∅) (lit "a@mit") fine fine).
  - reflexivity.
  - reflexivity.
  - do 5 eexists. repeat split; try reflexivity; discriminate.
  - reflexivity.
  - reflexivity.
Defined.

(** The mark of the announcement arrives. *)
Lemma success_marked_when_settled_witness :
  ∃ s'', settle host 0 true successRun = Some s'' ∧
    (∃ e, email_findUnique (lit "a@mit") (store s'') = Some e ∧
          e_modelName e = CURRENT_MODEL_NAME host) ∧
    events (store s'') = events (store successRun) ∧
    outcome host 0 s'' = Some (Some DORMSPAM_WITH_EVENT).
Proof.
  assert (Hk : unawaited successRun !! 0%nat = Some (0%nat, lit "a@mit"))
    by (vm_compute; reflexivity).
  destruct (settle_is_Some host 0 true 0 (lit "a@mit") successRun Hk) as [s'' Es].
  exists s''. split; [exact Es|].
  apply (success_marked_when_settled host daemon [announcement] 0 announcement
           (initial host [announcement] emptyStore ∅)
           [fine; fine; fine; fine; extracts; extracts] 0 (lit "a@mit") s'').
  - reflexivity.
  - reflexivity.
  - vm_compute. reflexivity.
  - reflexivity.
  - exact Hk.
  - exact Es.
Defined.

(** ** The handles that a lookup finds *)

Section RegistryFacts.
Variable X : Externals.
Variable scrapedBy : jsstring.
Variable tasks : list Task.

Lemma body_registry_grows i t reply p s s' br :
  body X scrapedBy i t reply p s = (s', br) →
  (∀ m, is_Some (processingTasks s !! m) → is_Some (processingTasks s' !! m)) ∧
  (p = NotStarted → ∀ m, p_messageId (t_parsed t) = Some m →
     processingTasks s' !! m = Some i).
Proof.
  intros H. body_cases H.
  all: split; [|try discriminate; try (intros _ m Hm; simplify_eq; apply lookup_insert_eq)].
  all: try (intros m Hm; exact Hm).
  all: intros m Hm; apply lookup_insert_is_Some;
    match goal with
    | |- ?k = m ∨ _ => destruct (decide (k = m)); [left | right]; auto
    end.
Qed.

Lemma registry_inv db index s :
  reachable X scrapedBy tasks db index s →
  ∀ a ta m p, tasks !! a = Some ta → p_messageId (t_parsed ta) = Some m →
    pcs s !! a = Some p → p ≠ NotStarted →
    is_Some (processingTasks s !! m).
Proof.
  revert s.
  apply (rtc_ind_r
    (λ s, ∀ a ta m p, tasks !! a = Some ta → p_messageId (t_parsed ta) = Some m →
       pcs s !! a = Some p → p ≠ NotStarted → is_Some (processingTasks s !! m))
    (initial X tasks db index)).
  - intros a ta m p _ _ Hp Hns. simpl in Hp.
    apply lookup_replicate in Hp as [-> _]. congruence.
  - intros s s' Hs Hstep IH a ta m p' Hta Hm Hp' Hns.
    inversion Hstep as [j reply s0 s1 He|k ok s0 s1 He]; subst.
    + unfold processMailStep in He.
      destruct (tasks !! j) as [tj|] eqn:Htj; [|discriminate].
      destruct (pcs s !! j) as [p|] eqn:Hp; [|discriminate]. simpl in He.
      destruct (enabled X p s); [|discriminate]. injection He as <-.
      destruct (body X scrapedBy j tj reply p s) as [s1 br] eqn:Hb.
      destruct (body_registry_grows _ _ _ _ _ _ _ Hb) as [Hgrow Hown].
      pose proof (body_pcs _ _ _ _ _ _ _ _ _ Hb) as Hpcs.
      assert (Hreg : processingTasks (finally X j (s1, br)) = processingTasks s1)
        by (destruct br; reflexivity).
      assert (Hpc : ∃ q, pcs (finally X j (s1, br)) = <[j := q]> (pcs s))
        by (destruct br; simpl; rewrite Hpcs; eauto).
      destruct Hpc as [q Hpc]. rewrite Hreg. rewrite Hpc in Hp'.
      destruct (decide (a = j)) as [->|Haj].
      * rewrite Hta in Htj. injection Htj as <-.
        assert (Hcase : p = NotStarted ∨ p ≠ NotStarted)
          by (destruct p; auto; right; discriminate).
        destruct Hcase as [Hp0|Hp0].
        -- rewrite (Hown Hp0 m Hm). eauto.
        -- apply Hgrow. exact (IH j ta m p Hta Hm Hp Hp0).
      * rewrite list_lookup_insert_ne in Hp' by congruence.
        apply Hgrow. exact (IH a ta m p' Hta Hm Hp' Hns).
    + unfold settle in He.
      destruct (unawaited s !! k) as [[b m0]|]; [|discriminate]. simpl in He.
      assert (Hsame : pcs s' = pcs s ∧ processingTasks s' = processingTasks s).
      { destruct ok; [|injection He as <-; simpl; auto].
        destruct (markProcessedByCurrentModel X m0 (store s));
          injection He as <-; simpl; auto. }
      destruct Hsame as [Hpcs Hreg]. rewrite Hreg. rewrite Hpcs in Hp'.
      exact (IH a ta m p' Hta Hm Hp' Hns).
Qed.

(** X30.  A handle, once registered, is found for the rest of the run.  In
    every state of every run, if a call has been made for a mail with
    message id [m], then [processingTasks] holds under [m] the deferred of
    a call for a mail with that message id; so a reply to [m] that consults
    [processingTasks] in this state finds a handle and awaits it before its
    upsert. *)
Theorem started_parent_is_found db index s a ta m p :
  reachable X scrapedBy tasks db index s →
  tasks !! a = Some ta → p_messageId (t_parsed ta) = Some m →
  pcs s !! a = Some p → p ≠ NotStarted →
  ∃ d td,
    processingTasks s !! m = Some d ∧
    tasks !! d = Some td ∧ p_messageId (t_parsed td) = Some m ∧
    ∀ i l inReplyToEmail root,
      e_messageId inReplyToEmail = m →
      (rootFound X i l inReplyToEmail root s).2
      = Continue (AwaitPrevDeferred l (e_messageId root) d).
Proof.
  intros Hr Hta Hm Hp Hns.
  destruct (registry_inv db index s Hr a ta m p Hta Hm Hp Hns) as [d Hd].
  pose proof (reachable_inv X scrapedBy tasks db index s Hr) as Hinv.
  destruct (inv_register X tasks s Hinv d m (inv_registry X tasks s Hinv m d Hd))
    as (td & Htd & Hmd).
  exists d, td. repeat split; auto.
  intros i l e0 root <-. unfold rootFound. now rewrite Hd.
Qed.
End RegistryFacts.

(** In the ordered run the handle of the announcement is there for the
    follow-up. *)
Lemma started_parent_is_found_witness :
  ∃ d td,
    processingTasks orderedRun !! lit "a@mit" = Some d ∧
    [announcement; followUp] !! d = Some td ∧
    p_messageId (t_parsed td) = Some (lit "a@mit") ∧
    ∀ i l inReplyToEmail root,
      e_messageId inReplyToEmail = lit "a@mit" →
      (rootFound host i l inReplyToEmail root orderedRun).2
      = Continue (AwaitPrevDeferred l (e_messageId root) d).
Proof.
  eapply (started_parent_is_found host daemon [announcement; followUp]
            emptyStore ∅ orderedRun 0 announcement (lit "a@mit") _).
  - unfold orderedRun. repeat apply processMail_reachable. apply rtc_refl.
  - reflexivity.
  - reflexivity.
  - vm_compute. reflexivity.
  - discriminate.
Defined.
